(** * Publish check: missing files, commit and rollback

    A shallow embedding of the publish check of the api-server
    ([getMissingFilesForRootFiles] and its helpers) and the properties of
    its specification.

    Modelling decisions.
    - A file name is a [string]; a JavaScript string is a sequence of
      UTF-16 code units, here a sequence of 8-bit characters.
    - The store is one flat directory, which exists: a finite map from names
      to contents.  [path.join filesPath name] addresses the entry [name] of
      that map, and [readdir] lists the names in the order in which the map
      enumerates them.  Every name, the empty one included, is taken to
      address an entry: what the file system does with a name that is not
      the name of an entry (the empty name, a name with a separator) is not
      modelled.
    - A file's content is kept up to what [JSON.parse] makes of its text,
      at the type [FileWithRefs] the source declares for the result; the
      error of [JSON.parse] is made from the text it is given.
    - A JavaScript [Set] remembers insertion order: it is a list without
      duplicates, [add] appending at the end.
    - An [async] function is a computation over the world (the directory and
      the log of file system calls issued) that returns, throws or runs out
      of fuel.  [Promise.all] over calls that are already issued runs each of
      them, in the order of issue, and fails with the first failure in that
      order when one of them failed.  The fuel bounds the nesting of the
      recursive calls; the entry point gives enough of it.
    - The calls of a batch are in flight together, and the order of issue is
      one of the orders in which they can take effect.  [Promise_all_under]
      takes a batch under a scheduler, which chooses the order in which the
      calls take effect on the directory and the order in which their
      promises settle; the functions named [_under] are the functions of the
      source with their batches under a scheduler, and the log then has the
      calls in the order in which they took effect.  What depends on these
      orders is stated for every fair scheduler; the run in the order of
      issue is the run under the scheduler [in_order].
    - A rename to a name that the file system does not take for the name of
      a file of the directory is not modelled: where a property needs a
      rename to go through, the new name is assumed to be [plain].
    - [stats.readFiles] is written and never read: the log of [ReadFile]
      calls stands for it. *)

From stdpp Require Import base option list strings gmap fin_maps.
From Stdlib Require Import ZArith Lia.

Open Scope string_scope.
Open Scope list_scope.
Open Scope nat_scope.

(** ** JavaScript strings *)

(** [s.substr(start, length)] *)
Definition substr (s : string) (start len : Z) : string :=
  let size := Z.of_nat (String.length s) in
  let start' := if (start <? 0)%Z then Z.max (size + start) 0 else Z.min start size in
  let len' := Z.min (Z.max len 0) (size - start') in
  if (len' <=? 0)%Z then "" else String.substring (Z.to_nat start') (Z.to_nat len') s.

(** [s.endsWith(suffix)] *)
Definition endsWith (s suffix : string) : bool :=
  let n := String.length s in
  let m := String.length suffix in
  if (m <=? n)%nat then String.eqb (String.substring (n - m) m s) suffix else false.

(** ** JavaScript sets of strings, in insertion order *)

Module JSSet.

Abbreviation t := (list string).

Definition has (x : string) (s : t) : bool := bool_decide (x ∈ s).

Definition add (x : string) (s : t) : t := if has x s then s else s ++ [x].

Definition delete (x : string) (s : t) : t := filter (λ y, y ≠ x) s.

(** [new Set(iterable)] *)
Definition from (l : list string) : t := fold_left (λ s x, add x s) l [].

(** [s.size] *)
Definition size (s : t) : nat := length s.

End JSSet.

(** [difference(setA, setB)] *)
Definition difference (setA setB : JSSet.t) : JSSet.t :=
  fold_left (λ _difference elem, JSSet.delete elem _difference) setB setA.

(** The loop of [chunkArrayInGroups]: it runs at most once per element. *)
Fixpoint chunk_loop {T : Type} (steps : nat) (arr : list T) (size : nat) : list (list T) :=
  match steps, arr with
  | S steps', _ :: _ => take size arr :: chunk_loop steps' (drop size arr) size
  | _, _ => []
  end.

(** [chunkArrayInGroups(arr, size)], for a [size] of 1 at least. *)
Definition chunkArrayInGroups {T : Type} (arr : list T) (size : nat) : list (list T) :=
  chunk_loop (length arr) arr size.

(** ** Files and the world *)

(** [interface FileWithRefs]: the entries of [refs], when present, in the
    order in which [Object.values] enumerates them. *)
Record FileWithRefs := { refs : option (list (nat * string)) }.

(** [Object.values(o)] *)
Definition Object_values (o : list (nat * string)) : list string := o.*2.

(** The content of a file: a text that [JSON.parse] rejects, or one that it
    parses to a value. *)
Inductive content :=
| Unparseable (text : string)
| Json (value : FileWithRefs).

(** The errors thrown: [new Error(message)], the error of [JSON.parse], and
    the error of a file system call on a name that is not in the directory. *)
Inductive error :=
| Error (message : string)
| SyntaxError (text : string)
| ENOENT (syscall path : string).

(** The file system calls. *)
Inductive call :=
| ReadDir
| ReadFile (name : string)
| Rename (oldName newName : string)
| Unlink (name : string).

(** The directory, and the calls issued so far. *)
Record world := { files : gmap string content; calls : list call }.

(** The call [c] is issued and changes no file. *)
Definition issue (c : call) (w : world) : world :=
  {| files := files w; calls := calls w ++ [c] |}.

(** ** Asynchronous computations *)

(** How a computation ends. *)
Inductive outcome (A : Type) :=
| Returned (a : A)
| Thrown (e : error)
| OutOfFuel.
Arguments Returned {A} a.
Arguments Thrown {A} e.
Arguments OutOfFuel {A}.

(** A [Promise<A>], awaited. *)
Definition async (A : Type) : Type := world → world * outcome A.

(** [return a] *)
Definition ret {A} (a : A) : async A := λ w, (w, Returned a).

(** [throw e] *)
Definition throw {A} (e : error) : async A := λ w, (w, Thrown e).

(** [await m], then [k]: a failure of [m] is the failure of the whole. *)
Definition bind {A B} (m : async A) (k : A → async B) : async B :=
  λ w, match m w with
       | (w', Returned a) => k a w'
       | (w', Thrown e) => (w', Thrown e)
       | (w', OutOfFuel) => (w', OutOfFuel)
       end.

Notation "'await' x <~ m ; k" := (bind m (λ x, k))
  (at level 10, x pattern, m at level 100, k at level 200,
   format "'[v' 'await'  x  <~  m ; '/' k ']'").

(** [Promise.all(promises)]: every call runs; the first failure in the order
    of issue is the failure of the whole. *)
Fixpoint Promise_all {A} (promises : list (async A)) : async (list A) :=
  match promises with
  | [] => ret []
  | p :: promises' => λ w,
      let '(w1, r) := p w in
      let '(w2, rs) := Promise_all promises' w1 in
      (w2, match r, rs with
           | Returned a, Returned l => Returned (a :: l)
           | Returned _, Thrown e => Thrown e
           | Returned _, OutOfFuel => OutOfFuel
           | Thrown e, _ => Thrown e
           | OutOfFuel, _ => OutOfFuel
           end)
  end.

(** ** The file system calls *)

(** [readDirAsync(path)] *)
Definition readDirAsync : async (list string) :=
  λ w, (issue ReadDir w, Returned (map_to_list (files w)).*1).

(** [readFileAsync(path.join(filePath, name), "utf8")] *)
Definition readFileAsync (name : string) : async content :=
  λ w, (issue (ReadFile name) w,
        match files w !! name with
        | Some c => Returned c
        | None => Thrown (ENOENT "open" name)
        end).

(** [renameAsync(oldFullPath, newFullPath)]: a file of the new name is
    replaced. *)
Definition renameAsync (oldName newName : string) : async unit :=
  λ w, match files w !! oldName with
       | Some c =>
           ({| files := <[newName := c]> (delete oldName (files w));
               calls := calls w ++ [Rename oldName newName] |}, Returned tt)
       | None => (issue (Rename oldName newName) w, Thrown (ENOENT "rename" oldName))
       end.

(** [unlinkAsync(path.join(filesPath, name))] *)
Definition unlinkAsync (name : string) : async unit :=
  λ w, match files w !! name with
       | Some _ =>
           ({| files := delete name (files w);
               calls := calls w ++ [Unlink name] |}, Returned tt)
       | None => (issue (Unlink name) w, Thrown (ENOENT "unlink" name))
       end.

(** [JSON.parse(text)] *)
Definition JSON_parse (c : content) : async FileWithRefs :=
  match c with
  | Json v => ret v
  | Unparseable text => throw (SyntaxError text)
  end.

(** ** The resolver *)

(** [interface MissingFilesResult] *)
Record MissingFilesResult := {
  missingFiles : list string;
  referencedFiles : list string
}.

(** [readFileWithRefs(fileName)] *)
Definition readFileWithRefs (fileName : string) : async FileWithRefs :=
  await text <~ readFileAsync fileName ;
  JSON_parse text.

(** [(content.refs && Object.values(content.refs)) || []] *)
Definition referencedFileNames (content : FileWithRefs) : list string :=
  match refs content with
  | Some o => Object_values o
  | None => []
  end.

(** The first loop of a level: the names to read and the names that are
    missing, as the pair [(fileNamesWithRefs, fileNamesThatAreMissing)]. *)
Definition classify_step (existingFiles : JSSet.t) (sets : JSSet.t * JSSet.t)
    (fileName : string) : JSSet.t * JSSet.t :=
  if JSSet.has fileName existingFiles then
    if endsWith fileName ".json" then (JSSet.add fileName sets.1, sets.2) else sets
  else (sets.1, JSSet.add fileName sets.2).

(** The loop, from the two empty sets. *)
Definition classify (existingFiles : JSSet.t) (fileNames : list string)
    : JSSet.t * JSSet.t :=
  fold_left (classify_step existingFiles) fileNames ([], []).

(** The set [fileNamesWithRefs] after the loop. *)
Definition fileNamesWithRefs (existingFiles : JSSet.t) (fileNames : list string) : JSSet.t :=
  (classify existingFiles fileNames).1.

(** The set [fileNamesThatAreMissing] after the loop. *)
Definition fileNamesThatAreMissing (existingFiles : JSSet.t) (fileNames : list string) : JSSet.t :=
  (classify existingFiles fileNames).2.

(** The inner loops over the contents of a chunk. *)
Definition addReferenced (allReferencedFileNames : JSSet.t)
    (chunkContent : list FileWithRefs) : JSSet.t :=
  fold_left (λ all content,
      fold_left (λ all' referencedFileName, JSSet.add referencedFileName all')
        (referencedFileNames content) all)
    chunkContent allReferencedFileNames.

(** The loop over the chunks. *)
Fixpoint readChunks (fileNamesToReadChunked : list (list string))
    (allReferencedFileNames : JSSet.t) : async JSSet.t :=
  match fileNamesToReadChunked with
  | [] => ret allReferencedFileNames
  | chunk :: chunks =>
      await chunkContent <~ Promise_all (map readFileWithRefs chunk) ;
      readChunks chunks (addReferenced allReferencedFileNames chunkContent)
  end.

(** The error of a level beyond 10. *)
Definition tooDeep : error :=
  Error "Too deep recursion while checking for missing files.".

(** The initial value of [missingChildFiles]. *)
Definition noChildFiles : MissingFilesResult :=
  {| missingFiles := []; referencedFiles := [] |}.

(** [getMissingFilesRecursive]; [fuel] bounds the nesting of the calls.  The
    call at depth 11 throws, so that 12 calls nest at most. *)
Fixpoint getMissingFilesRecursive (fuel : nat) (existingFiles : JSSet.t)
    (fileNames : list string) (level : nat) : async MissingFilesResult :=
  match fuel with
  | 0 => λ w, (w, OutOfFuel)
  | S fuel' =>
      if (10 <? level)%nat then throw tooDeep else
      let fileNamesToRead := fileNamesWithRefs existingFiles fileNames in
      let fileNamesToReadChunked := chunkArrayInGroups fileNamesToRead 50 in
      await allReferencedFileNames <~ readChunks fileNamesToReadChunked [] ;
      await missingChildFiles <~
        (if (0 <? JSSet.size allReferencedFileNames)%nat
         then getMissingFilesRecursive fuel' existingFiles allReferencedFileNames (level + 1)
         else ret noChildFiles) ;
      ret {| missingFiles :=
               missingFiles missingChildFiles ++ fileNamesThatAreMissing existingFiles fileNames;
             referencedFiles := referencedFiles missingChildFiles ++ fileNames |}
  end.

(** ** The entry point *)

(** [getExistingFiles(path)] *)
Definition getExistingFiles : async JSSet.t :=
  await existingFilesArray <~ readDirAsync ;
  ret (JSSet.from existingFilesArray).

(** [file.substr(0, file.length - tempFileSuffix.length)] *)
Definition newName (file tempFileSuffix : string) : string :=
  substr file 0 (Z.of_nat (String.length file) - Z.of_nat (String.length tempFileSuffix)).

(** The state of [fileNames.map] in the commit branch: the two sets and the
    promises of the renames issued. *)
Record renaming := {
  referencedSet : JSSet.t;
  existingSet : JSSet.t;
  renamePromises : list (async unit)
}.

(** The callback of [fileNames.map]: it renames in the two sets and issues
    the rename on disk. *)
Definition rename_step (tempFileSuffix : string) (st : renaming) (file : string) : renaming :=
  let new := newName file tempFileSuffix in
  {| referencedSet := JSSet.add new (JSSet.delete file (referencedSet st));
     existingSet := JSSet.add new (JSSet.delete file (existingSet st));
     renamePromises := renamePromises st ++ [renameAsync file new] |}.

(** [fileNames.map] over the roots. *)
Definition rename_all (tempFileSuffix : string) (referenced existing : JSSet.t)
    (fileNames : list string) : renaming :=
  fold_left (rename_step tempFileSuffix) fileNames
    {| referencedSet := referenced; existingSet := existing; renamePromises := [] |}.

(** The handling of the save parameter (lines 36 to 63 of the entry point). *)
Definition handleSaveParam (fileNames : list string)
    (saveQueryParam tempFileSuffix : string) (existingFiles : JSSet.t)
    (missingFilesResult : MissingFilesResult) : async unit :=
  if String.eqb saveQueryParam "ifcomplete" || String.eqb saveQueryParam "no" then
    if String.eqb saveQueryParam "ifcomplete"
       && (length (missingFiles missingFilesResult) =? 0)%nat then
      let referencedFiles := JSSet.from (referencedFiles missingFilesResult) in
      let renamed := rename_all tempFileSuffix referencedFiles existingFiles fileNames in
      await _ <~ Promise_all (renamePromises renamed) ;
      let pruneFiles := difference (existingSet renamed) (referencedSet renamed) in
      await _ <~ Promise_all (map unlinkAsync pruneFiles) ;
      ret tt
    else
      await _ <~ Promise_all (map unlinkAsync fileNames) ;
      ret tt
  else ret tt.

(** [getMissingFilesForRootFiles(filesPath, fileNames, saveQueryParam,
    tempFileSuffix)], on the directory at [filesPath]. *)
Definition getMissingFilesForRootFiles (fileNames : list string)
    (saveQueryParam tempFileSuffix : string) : async (list string) :=
  await existingFiles <~ getExistingFiles ;
  await missingFilesResult <~ getMissingFilesRecursive 12 existingFiles fileNames 0 ;
  await _ <~ handleSaveParam fileNames saveQueryParam tempFileSuffix
               existingFiles missingFilesResult ;
  ret (missingFiles missingFilesResult).

(** ** The outcome of reading a manifest *)

(** What reading and parsing the file [name] gives on the directory [d]. *)
Definition parsed (d : gmap string content) (name : string) : outcome FileWithRefs :=
  match d !! name with
  | Some (Json v) => Returned v
  | Some (Unparseable text) => Thrown (SyntaxError text)
  | None => Thrown (ENOENT "open" name)
  end.

(** The names that the manifest [name] refers to; none when it cannot be read. *)
Definition refs_of (d : gmap string content) (name : string) : list string :=
  match parsed d name with
  | Returned v => referencedFileNames v
  | _ => []
  end.

(** How the outcomes of the calls of a [Promise.all] make its outcome. *)
Fixpoint all_of {A} (l : list (outcome A)) : outcome (list A) :=
  match l with
  | [] => Returned []
  | r :: l' =>
      match r, all_of l' with
      | Returned a, Returned l => Returned (a :: l)
      | Returned _, Thrown e => Thrown e
      | Returned _, OutOfFuel => OutOfFuel
      | Thrown e, _ => Thrown e
      | OutOfFuel, _ => OutOfFuel
      end
  end.

(** The world after the reads of [names], which change no file. *)
Definition after_reads (w : world) (names : list string) : world :=
  {| files := files w; calls := calls w ++ map ReadFile names |}.

(** ** The levels of a traversal, and the reference graph *)

(** The names a level passes on to the next one when all its reads succeed. *)
Definition next (d : gmap string content) (existingFiles : JSSet.t)
    (fileNames : list string) : JSSet.t :=
  JSSet.from (concat (map (refs_of d) (fileNamesWithRefs existingFiles fileNames))).

(** The input of the call at depth [k] below a call on [fileNames]. *)
Fixpoint frontier (d : gmap string content) (existingFiles : JSSet.t) (k : nat)
    (fileNames : list string) : list string :=
  match k with
  | 0 => fileNames
  | S k' => frontier d existingFiles k' (next d existingFiles fileNames)
  end.

(** The parts [part 0], ..., [part depth] of the levels, the deepest first. *)
Definition deepest_first {A} (part : nat → list A) (depth : nat) : list A :=
  concat (map part (rev (seq 0 (S depth)))).

(** A manifest of the snapshot refers to a name. *)
Definition refers (d : gmap string content) (e : JSSet.t) (m y : string) : Prop :=
  m ∈ e ∧ endsWith m ".json" = true ∧ y ∈ refs_of d m.

(** A name is reachable from the roots: a root, or a name that a reachable
    manifest of the snapshot refers to. *)
Definition reachable (d : gmap string content) (e : JSSet.t) (roots : list string)
    (x : string) : Prop :=
  ∃ r, r ∈ roots ∧ rtc (refers d e) r x.

(** The manifests examined down to depth 10 can be read and parsed. *)
Definition manifests_parse (e : JSSet.t) (d : gmap string content)
    (names : list string) (level : nat) : Prop :=
  ∀ k n, k + level ≤ 10 → n ∈ frontier d e k names → n ∈ e →
         endsWith n ".json" = true → ∃ v, parsed d n = Returned v.

(** A check of [manifests_parse] that computes. *)
Definition parses (d : gmap string content) (e : JSSet.t) (n : string) : bool :=
  negb (JSSet.has n e && endsWith n ".json")
  || match parsed d n with Returned _ => true | _ => false end.

(** The same check for the manifests down to depth 10. *)
Definition manifests_parseb (d : gmap string content) (e : JSSet.t)
    (roots : list string) : bool :=
  forallb (λ k, forallb (parses d e) (frontier d e k roots)) (seq 0 11).

(** ** What one call and the whole traversal do *)

(** The two sets of the first loop, after the names [seen]. *)
Definition classified (existingFiles : JSSet.t) (sets : JSSet.t * JSSet.t)
    (seen : list string) : Prop :=
  (∀ x, x ∈ sets.1 ↔ x ∈ seen ∧ x ∈ existingFiles ∧ endsWith x ".json" = true)
  ∧ (∀ x, x ∈ sets.2 ↔ x ∈ seen ∧ x ∉ existingFiles)
  ∧ NoDup sets.1 ∧ NoDup sets.2.

(** A case analysis of one call that returns, throws or runs out of fuel. *)
Inductive call_cases (fuel : nat) (e : JSSet.t) (names : list string) (level : nat)
    (w : world) : world → outcome MissingFilesResult → Prop :=
| too_deep :
    10 < level → call_cases fuel e names level w w (Thrown tooDeep)
| read_failed read err n :
    level ≤ 10 → read `prefix_of` fileNamesWithRefs e names →
    n ∈ fileNamesWithRefs e names → parsed (files w) n = Thrown err →
    call_cases fuel e names level w (after_reads w read) (Thrown err)
| no_children :
    level ≤ 10 → next (files w) e names = [] →
    (∀ n, n ∈ fileNamesWithRefs e names → ∃ v, parsed (files w) n = Returned v) →
    call_cases fuel e names level w (after_reads w (fileNamesWithRefs e names))
      (Returned {| missingFiles := [] ++ fileNamesThatAreMissing e names;
                   referencedFiles := [] ++ names |})
| child_returned w2 child :
    level ≤ 10 → next (files w) e names ≠ [] →
    (∀ n, n ∈ fileNamesWithRefs e names → ∃ v, parsed (files w) n = Returned v) →
    getMissingFilesRecursive fuel e (next (files w) e names) (level + 1)
      (after_reads w (fileNamesWithRefs e names)) = (w2, Returned child) →
    call_cases fuel e names level w w2
      (Returned {| missingFiles := missingFiles child ++ fileNamesThatAreMissing e names;
                   referencedFiles := referencedFiles child ++ names |})
| child_threw w2 err :
    level ≤ 10 → next (files w) e names ≠ [] →
    (∀ n, n ∈ fileNamesWithRefs e names → ∃ v, parsed (files w) n = Returned v) →
    getMissingFilesRecursive fuel e (next (files w) e names) (level + 1)
      (after_reads w (fileNamesWithRefs e names)) = (w2, Thrown err) →
    call_cases fuel e names level w w2 (Thrown err)
| child_out_of_fuel w2 :
    level ≤ 10 → next (files w) e names ≠ [] →
    getMissingFilesRecursive fuel e (next (files w) e names) (level + 1)
      (after_reads w (fileNamesWithRefs e names)) = (w2, OutOfFuel) →
    call_cases fuel e names level w w2 OutOfFuel.

(** What a call that returns has computed. *)
Record returned_spec (e : JSSet.t) (d : gmap string content) (names : list string)
    (level : nat) (r : MissingFilesResult) : Prop := {
  missing_spec : ∀ x, x ∈ missingFiles r ↔ ∃ k, x ∈ frontier d e k names ∧ x ∉ e;
  referenced_spec : ∀ x, x ∈ referencedFiles r ↔ ∃ k, x ∈ frontier d e k names;
  depth_spec : ∃ k, 1 ≤ k ∧ k + level ≤ 11 ∧ frontier d e k names = [];
  parsed_spec : ∀ k n, n ∈ frontier d e k names → n ∈ e → endsWith n ".json" = true →
                ∃ v, parsed d n = Returned v;
  nodup_spec : (∀ x k1 k2, x ∈ frontier d e k1 names → x ∈ frontier d e k2 names →
                           x ∉ e → k1 = k2) → NoDup (missingFiles r)
}.

(** What a call that throws has met. *)
Inductive thrown_spec (e : JSSet.t) (d : gmap string content) (names : list string)
    (level : nat) : error → Prop :=
| thrown_too_deep :
    (∀ k, 1 ≤ k → k + level ≤ 11 → frontier d e k names ≠ []) →
    (∀ k n, k + level ≤ 10 → n ∈ frontier d e k names → n ∈ e →
            endsWith n ".json" = true → ∃ v, parsed d n = Returned v) →
    thrown_spec e d names level tooDeep
| thrown_by_read k n err :
    k + level ≤ 10 → n ∈ frontier d e k names → n ∈ e → endsWith n ".json" = true →
    parsed d n = Thrown err →
    (∀ k' n', k' < k → n' ∈ frontier d e k' names → n' ∈ e →
              endsWith n' ".json" = true → ∃ v, parsed d n' = Returned v) →
    thrown_spec e d names level err.

(** ** The snapshot, and the calls of a run *)

(** The set that [getExistingFiles] makes of the listing of [d]. *)
Definition snapshot (d : gmap string content) : JSSet.t :=
  JSSet.from (map_to_list d).*1.

(** Resolution as the entry point starts it: on the snapshot, at depth 0. *)
Definition resolution (fileNames : list string) : async MissingFilesResult :=
  await existingFiles <~ getExistingFiles ;
  getMissingFilesRecursive 12 existingFiles fileNames 0.

(** The calls issued between two worlds. *)
Definition issued (w w' : world) : list call := drop (length (calls w)) (calls w').

(** A call that changes the directory. *)
Definition mutation (c : call) : bool :=
  match c with
  | Rename _ _ | Unlink _ => true
  | ReadDir | ReadFile _ => false
  end.

(** ** The effect of renames and deletions on the directory *)

(** What a call does to the directory [d]. *)
Definition effect (c : call) (d : gmap string content) : gmap string content :=
  match c with
  | Rename oldName newName =>
      match d !! oldName with
      | Some text => <[newName := text]> (delete oldName d)
      | None => d
      end
  | Unlink name => delete name d
  | ReadDir | ReadFile _ => d
  end.

(** How a call ends on the directory [d]. *)
Definition result (c : call) (d : gmap string content) : outcome unit :=
  match c with
  | Rename oldName _ =>
      match d !! oldName with
      | Some _ => Returned tt
      | None => Thrown (ENOENT "rename" oldName)
      end
  | Unlink name =>
      match d !! name with
      | Some _ => Returned tt
      | None => Thrown (ENOENT "unlink" name)
      end
  | ReadDir | ReadFile _ => Returned tt
  end.

(** The directory after the calls [cs], run in this order. *)
Fixpoint effects (cs : list call) (d : gmap string content) : gmap string content :=
  match cs with
  | [] => d
  | c :: cs' => effects cs' (effect c d)
  end.

(** How the calls [cs] end, run in this order. *)
Fixpoint results (cs : list call) (d : gmap string content) : list (outcome unit) :=
  match cs with
  | [] => []
  | c :: cs' => result c d :: results cs' (effect c d)
  end.

(** The computation [p] is the call [c]. *)
Definition performs (p : async unit) (c : call) : Prop :=
  ∀ w, p w = ({| files := effect c (files w); calls := calls w ++ [c] |},
              result c (files w)).

(** The renames of a batch all succeed. *)
Definition succeed (cs : list call) (d : gmap string content) : Prop :=
  ∃ us, all_of (results cs d) = Returned us.

(** The names a call touches. *)
Definition touched (c : call) : list string :=
  match c with
  | Rename oldName newName => [oldName; newName]
  | Unlink name => [name]
  | ReadDir | ReadFile _ => []
  end.

(** The same names in two directories. *)
Definition same_names (d1 d2 : gmap string content) : Prop :=
  ∀ n, is_Some (d1 !! n) ↔ is_Some (d2 !! n).

(** The outcome of a batch, its results forgotten. *)
Definition unit_of (o : outcome (list unit)) : outcome unit :=
  match o with
  | Returned _ => Returned tt
  | Thrown err => Thrown err
  | OutOfFuel => OutOfFuel
  end.

(** ** The sets of the commit *)

(** The renames that the commit issues. *)
Definition renames (tempFileSuffix : string) (fileNames : list string) : list call :=
  map (λ file, Rename file (newName file tempFileSuffix)) fileNames.

(** A set after the commit has renamed the roots in it. *)
Definition renamed_set (tempFileSuffix : string) (fileNames : list string)
    (s : JSSet.t) : JSSet.t :=
  fold_left (λ s file, JSSet.add (newName file tempFileSuffix) (JSSet.delete file s))
    fileNames s.

(** The names the commit prunes. *)
Definition pruneFiles (tempFileSuffix : string) (fileNames : list string)
    (existingFiles : JSSet.t) (r : MissingFilesResult) : JSSet.t :=
  difference (renamed_set tempFileSuffix fileNames existingFiles)
    (renamed_set tempFileSuffix fileNames (JSSet.from (referencedFiles r))).

(** ** Sample stores *)

(** A manifest that refers to [targets]. *)
Definition manifest (targets : list string) : content :=
  Json {| refs := Some (imap (λ i target, (i, target)) targets) |}.

(** The manifest [{}]. *)
Definition emptyManifest : content := Json {| refs := None |}.

(** A directory with the files [l], before any call. *)
Definition store (l : list (string * content)) : world :=
  {| files := list_to_map l; calls := [] |}.

(** The first scenario of the specification. *)
Definition scenario1 : world :=
  store [("root.json", manifest ["a.json"; "b.json"]);
         ("a.json", manifest ["blob1"]);
         ("b.json", emptyManifest)].

(** A blob that is absent, and referenced at two depths. *)
Definition shared_blob : world :=
  store [("root.json", manifest ["a.json"; "blobX"]);
         ("a.json", manifest ["blobX"])].

(** A chain of manifests, each referring to the next; the last refers to
    nothing. *)
Fixpoint chain (names : list string) : list (string * content) :=
  match names with
  | [] => []
  | name :: rest =>
      (name, match rest with
             | [] => emptyManifest
             | target :: _ => manifest [target]
             end) :: chain rest
  end.

(** Ten references below the root: the deepest call is the one at depth 10. *)
Definition chain10 : world :=
  store (chain ["c0.json"; "c1.json"; "c2.json"; "c3.json"; "c4.json"; "c5.json";
                "c6.json"; "c7.json"; "c8.json"; "c9.json"; "c10.json"]).

(** Eleven references below the root. *)
Definition chain11 : world :=
  store (chain ["c0.json"; "c1.json"; "c2.json"; "c3.json"; "c4.json"; "c5.json";
                "c6.json"; "c7.json"; "c8.json"; "c9.json"; "c10.json"; "c11.json"]).

(** A manifest that refers to itself. *)
Definition selfref : world := store [("loop.json", manifest ["loop.json"])].




(** Two manifests with the same unparseable text. *)
Definition garbled : world :=
  store [("a.json", Unparseable "oops"); ("b.json", Unparseable "oops")].

(** A root that does not carry the suffix, and one shorter than it. *)
Definition unsuffixed : world :=
  store [("root.json", emptyManifest); ("ab", Unparseable "blob")].

(** Two directories that differ in the content of a blob. *)
Definition with_blob (text : string) : world :=
  {| files := <["blob" := Unparseable text]> (files scenario1); calls := [] |}.

(** ** Batches whose calls are in flight together *)

(** [Promise.all] is given the promises of calls that are already in flight.
    The calls take effect on the directory in an order that the program does
    not choose, and their promises settle in an order of their own.  A
    schedule of a batch of [n] calls gives the two orders, as lists of the
    indices [0 .. n - 1] of the calls in the order of issue. *)
Record schedule := { effect_order : list nat; settle_order : list nat }.

(** A scheduler chooses the schedule of a batch of [n] calls from the world
    in which the batch starts.  The log of that world grows with every call,
    so that the batches of one run can all be given different schedules. *)
Definition scheduler : Type := world → nat → schedule.

(** Every call of a batch takes effect once and settles once. *)
Definition fair (σ : scheduler) : Prop :=
  ∀ w n, effect_order (σ w n) ≡ₚ seq 0 n ∧ settle_order (σ w n) ≡ₚ seq 0 n.

(** The scheduler that takes every batch in the order of issue. *)
Definition in_order : scheduler :=
  λ _ n, {| effect_order := seq 0 n; settle_order := seq 0 n |}.

(** The elements of [l] in the order [order], each with its index. *)
Definition in_flight {T} (l : list T) (order : list nat) : list (nat * T) :=
  omap (λ i, (λ x, (i, x)) <$> l !! i) order.

(** The calls take effect one after the other; each outcome is kept with the
    index of its call. *)
Fixpoint take_effect {A} (batch : list (nat * async A)) (w : world)
    : world * list (nat * outcome A) :=
  match batch with
  | [] => (w, [])
  | (i, p) :: batch' =>
      let '(w1, r) := p w in
      let '(w2, rs) := take_effect batch' w1 in
      (w2, (i, r) :: rs)
  end.

(** The first of the promises, in the order [order], that does not settle
    with a value. *)
Fixpoint first_failure {A B} (outcomes : gmap nat (outcome A)) (order : list nat)
    : option (outcome B) :=
  match order with
  | [] => None
  | i :: order' =>
      match outcomes !! i with
      | Some (Thrown e) => Some (Thrown e)
      | Some OutOfFuel => Some OutOfFuel
      | _ => first_failure outcomes order'
      end
  end.

(** The promise of [Promise.all] over [n] promises: it is rejected with the
    error of the first promise that is rejected, and fulfilled with the values
    of the promises, in the order of issue, when none is. *)
Definition settle {A} (outcomes : list (nat * outcome A)) (order : list nat) (n : nat)
    : outcome (list A) :=
  let by_index : gmap nat (outcome A) := list_to_map outcomes in
  match first_failure by_index order with
  | Some failure => failure
  | None =>
      Returned (omap (λ i, match by_index !! i with
                           | Some (Returned a) => Some a
                           | _ => None
                           end) (seq 0 n))
  end.

(** [Promise.all(promises)] under the scheduler [σ]. *)
Definition Promise_all_under {A} (σ : scheduler) (promises : list (async A))
    : async (list A) :=
  λ w, let s := σ w (length promises) in
       let '(w', outcomes) := take_effect (in_flight promises (effect_order s)) w in
       (w', settle outcomes (settle_order s) (length promises)).

(** The loop over the chunks, each chunk a batch under [σ]. *)
Fixpoint readChunks_under (σ : scheduler) (fileNamesToReadChunked : list (list string))
    (allReferencedFileNames : JSSet.t) : async JSSet.t :=
  match fileNamesToReadChunked with
  | [] => ret allReferencedFileNames
  | chunk :: chunks =>
      await chunkContent <~ Promise_all_under σ (map readFileWithRefs chunk) ;
      readChunks_under σ chunks (addReferenced allReferencedFileNames chunkContent)
  end.

(** [getMissingFilesRecursive], its batches under [σ]. *)
Fixpoint getMissingFilesRecursive_under (σ : scheduler) (fuel : nat)
    (existingFiles : JSSet.t) (fileNames : list string) (level : nat)
    : async MissingFilesResult :=
  match fuel with
  | 0 => λ w, (w, OutOfFuel)
  | S fuel' =>
      if (10 <? level)%nat then throw tooDeep else
      let fileNamesToRead := fileNamesWithRefs existingFiles fileNames in
      let fileNamesToReadChunked := chunkArrayInGroups fileNamesToRead 50 in
      await allReferencedFileNames <~ readChunks_under σ fileNamesToReadChunked [] ;
      await missingChildFiles <~
        (if (0 <? JSSet.size allReferencedFileNames)%nat
         then getMissingFilesRecursive_under σ fuel' existingFiles
                allReferencedFileNames (level + 1)
         else ret noChildFiles) ;
      ret {| missingFiles :=
               missingFiles missingChildFiles ++ fileNamesThatAreMissing existingFiles fileNames;
             referencedFiles := referencedFiles missingChildFiles ++ fileNames |}
  end.

(** The handling of the save parameter, its batches under [σ]. *)
Definition handleSaveParam_under (σ : scheduler) (fileNames : list string)
    (saveQueryParam tempFileSuffix : string) (existingFiles : JSSet.t)
    (missingFilesResult : MissingFilesResult) : async unit :=
  if String.eqb saveQueryParam "ifcomplete" || String.eqb saveQueryParam "no" then
    if String.eqb saveQueryParam "ifcomplete"
       && (length (missingFiles missingFilesResult) =? 0)%nat then
      let referencedFiles := JSSet.from (referencedFiles missingFilesResult) in
      let renamed := rename_all tempFileSuffix referencedFiles existingFiles fileNames in
      await _ <~ Promise_all_under σ (renamePromises renamed) ;
      let pruneFiles := difference (existingSet renamed) (referencedSet renamed) in
      await _ <~ Promise_all_under σ (map unlinkAsync pruneFiles) ;
      ret tt
    else
      await _ <~ Promise_all_under σ (map unlinkAsync fileNames) ;
      ret tt
  else ret tt.

(** [getMissingFilesForRootFiles], its batches under [σ]. *)
Definition getMissingFilesForRootFiles_under (σ : scheduler) (fileNames : list string)
    (saveQueryParam tempFileSuffix : string) : async (list string) :=
  await existingFiles <~ getExistingFiles ;
  await missingFilesResult <~
    getMissingFilesRecursive_under σ 12 existingFiles fileNames 0 ;
  await _ <~ handleSaveParam_under σ fileNames saveQueryParam tempFileSuffix
               existingFiles missingFilesResult ;
  ret (missingFiles missingFilesResult).

(** How a batch of the calls [cs], taking effect in this order on the
    directory [d], can end: with no failure, or with the error of a call
    that fails. *)
Definition batch_ending (cs : list call) (d : gmap string content) (o : outcome unit)
    : Prop :=
  (succeed cs d ∧ o = Returned tt) ∨ (∃ e, Thrown e ∈ results cs d ∧ o = Thrown e).

(** A name that the file system takes for the name of a file of the
    directory: not empty, not [.] or [..], and without a separator. *)
Definition plain (name : string) : bool :=
  negb (String.eqb name "") && negb (String.eqb name ".") && negb (String.eqb name "..")
  && match String.index 0 "/" name with None => true | Some _ => false end.

(** A scheduler under which, of three calls in flight, the second takes
    effect last. *)
Definition second_last : scheduler :=
  λ _ n, {| effect_order := if (n =? 3)%nat then [0; 2; 1] else seq 0 n;
            settle_order := seq 0 n |}.

(** A scheduler under which the calls take effect and settle last first. *)
Definition last_first : scheduler :=
  λ _ n, {| effect_order := rev (seq 0 n); settle_order := rev (seq 0 n) |}.

(** Two computations end alike: both return, the same value, or both throw,
    the error of a level beyond 10 in both or in neither. *)
Definition alike {A} (o1 o2 : outcome A) : Prop :=
  match o1, o2 with
  | Returned a1, Returned a2 => a1 = a2
  | Thrown e1, Thrown e2 => e1 = tooDeep ↔ e2 = tooDeep
  | OutOfFuel, OutOfFuel => True
  | _, _ => False
  end.

(** A file staged twice over beside the file staged once, and a file of an
    older publish; none of them is a manifest. *)
Definition raced : world :=
  store [("a.t", Unparseable "one"); ("a.t.t", Unparseable "two");
         ("old", Unparseable "old")].

(** Two staged roots, one of them over an older publish. *)
Definition two_roots : world :=
  store [("x.json.tmp.json", manifest ["a.json"]);
         ("y.json.tmp.json", manifest ["b.json"]);
         ("a.json", emptyManifest);
         ("b.json", emptyManifest);
         ("x.json", manifest ["old.json"]);
         ("old.json", emptyManifest)].

(** ** Sets in insertion order *)

Section sets.
Implicit Types (x y : string) (s : JSSet.t) (l : list string).

Lemma has_true x s : JSSet.has x s = true ↔ x ∈ s.
Proof. unfold JSSet.has. by rewrite bool_decide_eq_true. Qed.

Lemma has_false x s : JSSet.has x s = false ↔ x ∉ s.
Proof. unfold JSSet.has. by rewrite bool_decide_eq_false. Qed.

Lemma elem_of_add y x s : y ∈ JSSet.add x s ↔ y = x ∨ y ∈ s.
Proof.
  unfold JSSet.add. destruct (JSSet.has x s) eqn:E.
  - apply has_true in E. split; [by right | intros [->|]; done].
  - rewrite elem_of_app, list_elem_of_singleton. tauto.
Qed.

Lemma NoDup_add x s : NoDup s → NoDup (JSSet.add x s).
Proof.
  intros Hs. unfold JSSet.add. destruct (JSSet.has x s) eqn:E; [done|].
  apply has_false in E. apply NoDup_app. split_and!; [done| |apply NoDup_singleton].
  intros y Hy ->%list_elem_of_singleton. done.
Qed.

Lemma elem_of_delete y x s : y ∈ JSSet.delete x s ↔ y ∈ s ∧ y ≠ x.
Proof. unfold JSSet.delete. rewrite list_elem_of_filter. tauto. Qed.

Lemma NoDup_delete x s : NoDup s → NoDup (JSSet.delete x s).
Proof. apply NoDup_filter. Qed.

Lemma elem_of_fold_add y l s :
  y ∈ fold_left (λ s x, JSSet.add x s) l s ↔ y ∈ l ∨ y ∈ s.
Proof.
  revert s. induction l as [|x l IH]; intros s; simpl.
  - rewrite elem_of_nil. tauto.
  - rewrite IH, elem_of_add, elem_of_cons. tauto.
Qed.

Lemma NoDup_fold_add l s : NoDup s → NoDup (fold_left (λ s x, JSSet.add x s) l s).
Proof. revert s. induction l; simpl; auto using NoDup_add. Qed.

Lemma elem_of_from y l : y ∈ JSSet.from l ↔ y ∈ l.
Proof. unfold JSSet.from. rewrite elem_of_fold_add, elem_of_nil. tauto. Qed.

Lemma NoDup_from l : NoDup (JSSet.from l).
Proof. apply NoDup_fold_add, NoDup_nil_2. Qed.


Lemma elem_of_difference y (a b : JSSet.t) : y ∈ difference a b ↔ y ∈ a ∧ y ∉ b.
Proof.
  unfold difference. revert a. induction b as [|x b IH]; intros a; simpl.
  - rewrite elem_of_nil. tauto.
  - rewrite IH, elem_of_delete, not_elem_of_cons. tauto.
Qed.

Lemma NoDup_difference (a b : JSSet.t) : NoDup a → NoDup (difference a b).
Proof.
  unfold difference. revert a. induction b; simpl; auto using NoDup_delete.
Qed.
End sets.

(** ** The first loop of a level *)

Section classify.
Variable existingFiles : JSSet.t.
Implicit Types (x : string) (fileNames : list string).

Lemma classify_step_classified sets seen x :
  classified existingFiles sets seen →
  classified existingFiles (classify_step existingFiles sets x) (seen ++ [x]).
Proof.
  intros (H1 & H2 & N1 & N2). unfold classify_step.
  destruct (JSSet.has x existingFiles) eqn:E;
    [apply has_true in E; destruct (endsWith x ".json") eqn:J | apply has_false in E];
    (split_and!; simpl; auto using NoDup_add);
    intros y; rewrite ?elem_of_add, ?H1, ?H2, elem_of_app, list_elem_of_singleton;
    clear H1 H2; intuition (subst; auto; congruence).
Qed.

Lemma fold_classify_classified fileNames sets seen :
  classified existingFiles sets seen →
  classified existingFiles (fold_left (classify_step existingFiles) fileNames sets)
    (seen ++ fileNames).
Proof.
  revert sets seen. induction fileNames as [|x l IH]; intros sets seen H; simpl.
  - by rewrite app_nil_r.
  - rewrite cons_middle, app_assoc. by apply IH, classify_step_classified.
Qed.

Lemma classify_classified fileNames :
  classified existingFiles (classify existingFiles fileNames) fileNames.
Proof.
  apply (fold_classify_classified fileNames ([], []) []).
  split_and!; simpl; try apply NoDup_nil_2; intros x;
    (split; [intros H | intros [H _]]; by apply elem_of_nil in H).
Qed.

Lemma elem_of_fileNamesWithRefs x fileNames :
  x ∈ fileNamesWithRefs existingFiles fileNames
  ↔ x ∈ fileNames ∧ x ∈ existingFiles ∧ endsWith x ".json" = true.
Proof. apply classify_classified. Qed.

Lemma elem_of_fileNamesThatAreMissing x fileNames :
  x ∈ fileNamesThatAreMissing existingFiles fileNames
  ↔ x ∈ fileNames ∧ x ∉ existingFiles.
Proof. apply classify_classified. Qed.

Lemma NoDup_fileNamesWithRefs fileNames :
  NoDup (fileNamesWithRefs existingFiles fileNames).
Proof. apply classify_classified. Qed.

Lemma NoDup_fileNamesThatAreMissing fileNames :
  NoDup (fileNamesThatAreMissing existingFiles fileNames).
Proof. apply classify_classified. Qed.
End classify.

(** ** Chunks *)

Lemma chunk_loop_concat {T} steps (arr : list T) size :
  0 < size → length arr ≤ steps → concat (chunk_loop steps arr size) = arr.
Proof.
  intros Hsize. revert arr. induction steps as [|steps IH]; intros arr Hlen.
  - destruct arr; [done | simpl in Hlen; lia].
  - destruct arr as [|a arr]; [done|].
    cbn [chunk_loop concat]. rewrite IH.
    + apply take_drop.
    + rewrite length_drop. simpl in *. lia.
Qed.

Lemma chunkArrayInGroups_concat {T} (arr : list T) size :
  0 < size → concat (chunkArrayInGroups arr size) = arr.
Proof. intros. by apply chunk_loop_concat. Qed.

Lemma chunk_loop_length {T} steps (arr : list T) size :
  Forall (λ chunk, length chunk ≤ size) (chunk_loop steps arr size).
Proof.
  revert arr. induction steps as [|steps IH]; intros arr; [by constructor|].
  destruct arr as [|a arr]; [by constructor|].
  cbn [chunk_loop]. constructor; [|apply IH].
  rewrite length_take. lia.
Qed.

Lemma chunk_loop_lookup {T} steps (arr : list T) size i :
  0 < size → length arr ≤ steps →
  chunk_loop steps arr size !! i
  = if decide (i * size < length arr) then Some (take size (drop (i * size) arr))
    else None.
Proof.
  intros Hsize. revert arr i. induction steps as [|steps IH]; intros arr i Hlen.
  - destruct arr; [|simpl in Hlen; lia]. case_decide; [simpl in *; lia|done].
  - destruct arr as [|a arr].
    + case_decide; [simpl in *; lia|done].
    + cbn [chunk_loop]. destruct i as [|i].
      * case_decide; [done|simpl in *; lia].
      * rewrite lookup_cons. rewrite IH by (rewrite length_drop; simpl in *; lia).
        rewrite length_drop, drop_drop.
        replace (size + i * size) with (S i * size) by lia.
        repeat case_decide; try done; lia.
Qed.


Lemma chunk_loop_take {T} steps (arr : list T) size j :
  0 < size → length arr ≤ steps →
  concat (take j (chunk_loop steps arr size)) = take (j * size) arr.
Proof.
  intros Hsize. revert arr j. induction steps as [|steps IH]; intros arr j Hlen.
  - destruct arr; [|simpl in Hlen; lia]. simpl. by rewrite !take_nil.
  - destruct arr as [|a arr]; [simpl; by rewrite !take_nil|].
    cbn [chunk_loop]. destruct j as [|j]; [done|].
    cbn [take concat]. rewrite IH by (rewrite length_drop; simpl in *; lia).
    rewrite take_take_drop. f_equal.
Qed.

(** ** Reading the manifests of a level *)

Lemma map_ReadFile_inj l1 l2 : map ReadFile l1 = map ReadFile l2 → l1 = l2.
Proof.
  revert l2. induction l1 as [|x l1 IH]; intros [|y l2]; simpl; try done.
  intros [= -> H]. f_equal. by apply IH.
Qed.

Lemma after_reads_nil w : after_reads w [] = w.
Proof. destruct w. unfold after_reads. simpl. by rewrite app_nil_r. Qed.

Lemma after_reads_app w l1 l2 :
  after_reads (after_reads w l1) l2 = after_reads w (l1 ++ l2).
Proof. unfold after_reads. simpl. by rewrite map_app, app_assoc. Qed.

Lemma readFileWithRefs_eq name w :
  readFileWithRefs name w = (after_reads w [name], parsed (files w) name).
Proof.
  unfold readFileWithRefs, bind, readFileAsync, parsed, after_reads, issue. simpl.
  destruct (files w !! name) as [[text|v]|]; reflexivity.
Qed.

Lemma Promise_all_reads chunk w :
  Promise_all (map readFileWithRefs chunk) w
  = (after_reads w chunk, all_of (map (parsed (files w)) chunk)).
Proof.
  revert w. induction chunk as [|name chunk IH]; intros w.
  - simpl. unfold ret. by rewrite after_reads_nil.
  - cbn [map Promise_all all_of]. rewrite readFileWithRefs_eq, IH.
    rewrite after_reads_app. simpl.
    destruct (parsed (files w) name);
      destruct (all_of (map (parsed (files w)) chunk)); reflexivity.
Qed.

Lemma all_of_Returned {A} (l : list (outcome A)) vs :
  all_of l = Returned vs → l = map Returned vs.
Proof.
  revert vs. induction l as [|r l IH]; intros vs; simpl.
  - by intros [= <-].
  - destruct r as [a|e|]; [|done..].
    destruct (all_of l) as [l'|e|] eqn:E; [|done..].
    intros [= <-]. simpl. f_equal. by apply IH.
Qed.

Lemma all_of_Thrown {A} (l : list (outcome A)) e :
  all_of l = Thrown e → Thrown e ∈ l.
Proof.
  induction l as [|r l IH]; simpl; [done|].
  destruct r as [a|e'|]; [|intros [= ->]; left|done].
  destruct (all_of l) as [l'|e'|]; [done| |done].
  intros [= ->]. right. by apply IH.
Qed.

Lemma all_of_OutOfFuel {A} (l : list (outcome A)) :
  all_of l = OutOfFuel → OutOfFuel ∈ l.
Proof.
  induction l as [|r l IH]; simpl; [done|].
  destruct r as [a|e'|]; [|done|left].
  destruct (all_of l) as [l'|e'|]; [done|done|].
  intros _. right. by apply IH.
Qed.


Lemma parsed_not_OutOfFuel d name : parsed d name ≠ OutOfFuel.
Proof. unfold parsed. by destruct (d !! name) as [[]|]. Qed.

Lemma addReferenced_fold acc vs :
  addReferenced acc vs
  = fold_left (λ s x, JSSet.add x s) (concat (map referencedFileNames vs)) acc.
Proof.
  unfold addReferenced. revert acc. induction vs as [|v vs IH]; intros acc; simpl; [done|].
  by rewrite fold_left_app, IH.
Qed.

Lemma addReferenced_app acc vs1 vs2 :
  addReferenced (addReferenced acc vs1) vs2 = addReferenced acc (vs1 ++ vs2).
Proof. unfold addReferenced. by rewrite fold_left_app. Qed.

Lemma parsed_all_refs d names vs :
  map (parsed d) names = map Returned vs →
  map referencedFileNames vs = map (refs_of d) names.
Proof.
  revert vs. induction names as [|n names IH]; intros [|v vs]; simpl; try done.
  intros [= E1 E2]. unfold refs_of at 1. rewrite E1. f_equal. by apply IH.
Qed.

(** The loop over the chunks reads a prefix of the names, all of them when
    it returns, and fails with the failure of one of the names. *)
Lemma readChunks_spec chunks acc w w' o :
  readChunks chunks acc w = (w', o) →
  ∃ read, w' = after_reads w read ∧ read `prefix_of` concat chunks ∧
    match o with
    | Returned s =>
        read = concat chunks ∧
        ∃ vs, map (parsed (files w)) (concat chunks) = map Returned vs
              ∧ s = addReferenced acc vs
    | Thrown e => ∃ name, name ∈ concat chunks ∧ parsed (files w) name = Thrown e
    | OutOfFuel => False
    end.
Proof.
  revert acc w. induction chunks as [|chunk chunks IH]; intros acc w; simpl.
  - intros [= <- <-]. exists []. rewrite after_reads_nil.
    split; [done|]. split; [done|]. split; [done|]. by exists [].
  - unfold bind. rewrite Promise_all_reads.
    destruct (all_of (map (parsed (files w)) chunk)) as [vs|e|] eqn:E.
    + intros H. apply IH in H as (read & -> & Hpre & Ho).
      exists (chunk ++ read). rewrite after_reads_app. split_and!; [done| |].
      { by apply prefix_app. }
      apply all_of_Returned in E.
      destruct o as [s|e|]; [| |done].
      * destruct Ho as (-> & vs' & Hvs' & ->). split; [done|].
        exists (vs ++ vs'). rewrite !map_app, addReferenced_app. simpl in Hvs'.
        by rewrite E, Hvs'.
      * destruct Ho as (name & Hin & Hname). exists name.
        rewrite elem_of_app. auto.
    + intros [= <- <-]. exists chunk. split_and!; [done|by apply prefix_app_r|].
      apply all_of_Thrown, list_elem_of_fmap in E as (name & Hname & Hin).
      exists name. rewrite elem_of_app. auto.
    + apply all_of_OutOfFuel, list_elem_of_fmap in E as (name & Hname & _).
      symmetry in Hname. by apply parsed_not_OutOfFuel in Hname.
Qed.

Lemma readChunks_Thrown chunks acc w w' err :
  readChunks chunks acc w = (w', Thrown err) →
  ∃ j chunk name,
    chunks !! j = Some chunk ∧ name ∈ chunk ∧ parsed (files w) name = Thrown err
    ∧ (∀ n, n ∈ concat (take j chunks) → ∃ v, parsed (files w) n = Returned v)
    ∧ w' = after_reads w (concat (take (S j) chunks)).
Proof.
  revert acc w. induction chunks as [|chunk chunks IH]; intros acc w; simpl.
  - unfold ret. intros [=].
  - unfold bind. rewrite Promise_all_reads.
    destruct (all_of (map (parsed (files w)) chunk)) as [vs|e|] eqn:E.
    + intros H. apply IH in H as (j & chunk' & name & Hj & Hname & Herr & Hbefore & ->).
      exists (S j), chunk', name. split; [done|]. split; [done|]. split; [done|]. split.
      * intros n [Hn|Hn]%elem_of_app; [|by apply Hbefore].
        apply all_of_Returned in E.
        apply list_elem_of_In, (in_map (parsed (files w))) in Hn.
        rewrite E in Hn. apply in_map_iff in Hn as (v & Hv & _). eauto.
      * by rewrite after_reads_app.
    + intros [= <- <-].
      apply all_of_Thrown, list_elem_of_fmap in E as (name & Hname & Hin).
      exists 0, chunk, name. split; [done|]. split; [done|]. split; [done|]. split.
      * intros n Hn. by apply elem_of_nil in Hn.
      * simpl. by rewrite app_nil_r.
    + intros [=].
Qed.

(** ** The levels of the traversal *)

Lemma next_nil d e : next d e [] = [].
Proof. reflexivity. Qed.

Lemma frontier_nil d e k : frontier d e k [] = [].
Proof. induction k; simpl; [done|]. by rewrite next_nil. Qed.

Lemma frontier_S d e k names :
  frontier d e (S k) names = next d e (frontier d e k names).
Proof. revert names. induction k as [|k IH]; intros names; [done|]. simpl. by rewrite <- IH. Qed.

Lemma frontier_nil_le d e k k' names :
  k ≤ k' → frontier d e k names = [] → frontier d e k' names = [].
Proof.
  induction 1 as [|k' _ IH]; [done|]. intros H. rewrite frontier_S, IH; done.
Qed.

Lemma read_level_spec e names w w' o :
  readChunks (chunkArrayInGroups (fileNamesWithRefs e names) 50) [] w = (w', o) →
  ∃ read, w' = after_reads w read ∧ read `prefix_of` fileNamesWithRefs e names ∧
    match o with
    | Returned s =>
        read = fileNamesWithRefs e names ∧ s = next (files w) e names ∧
        ∀ n, n ∈ fileNamesWithRefs e names → ∃ v, parsed (files w) n = Returned v
    | Thrown err =>
        ∃ n, n ∈ fileNamesWithRefs e names ∧ parsed (files w) n = Thrown err
    | OutOfFuel => False
    end.
Proof.
  intros H. apply readChunks_spec in H as (read & -> & Hpre & Ho).
  rewrite chunkArrayInGroups_concat in Hpre, Ho by lia.
  exists read. split; [done|]. split; [done|].
  destruct o as [s|err|]; [|done..].
  destruct Ho as (-> & vs & Hvs & ->). split; [done|]. split.
  - unfold next, JSSet.from. by rewrite addReferenced_fold, (parsed_all_refs _ _ _ Hvs).
  - intros n Hn. apply list_elem_of_In, (in_map (parsed (files w))) in Hn.
    rewrite Hvs in Hn. apply in_map_iff in Hn as (v & Hv & _). eauto.
Qed.

(** The body of the function, one call unfolded. *)
Lemma getMissingFilesRecursive_S fuel e names level w :
  getMissingFilesRecursive (S fuel) e names level w =
  if 10 <? level then (w, Thrown tooDeep) else
  match readChunks (chunkArrayInGroups (fileNamesWithRefs e names) 50) [] w with
  | (w1, Returned s) =>
      match (if 0 <? JSSet.size s
             then getMissingFilesRecursive fuel e s (level + 1)
             else ret noChildFiles) w1 with
      | (w2, Returned child) =>
          (w2, Returned {| missingFiles := missingFiles child ++ fileNamesThatAreMissing e names;
                           referencedFiles := referencedFiles child ++ names |})
      | (w2, Thrown err) => (w2, Thrown err)
      | (w2, OutOfFuel) => (w2, OutOfFuel)
      end
  | (w1, Thrown err) => (w1, Thrown err)
  | (w1, OutOfFuel) => (w1, OutOfFuel)
  end.
Proof.
  cbn [getMissingFilesRecursive]. destruct (10 <? level); [done|].
  unfold bind at 1. destruct (readChunks _ _ w) as [w1 [s|err|]]; [|done..].
  unfold bind at 1. destruct (0 <? JSSet.size s).
  - by destruct (getMissingFilesRecursive fuel e s (level + 1) w1) as [w2 [child|err|]].
  - done.
Qed.

Lemma size_pos_false (s : JSSet.t) : (0 <? JSSet.size s) = false → s = [].
Proof. destruct s; [done|]. simpl. done. Qed.

Lemma size_pos_true (s : JSSet.t) : (0 <? JSSet.size s) = true → s ≠ [].
Proof. by destruct s. Qed.

Lemma getMissingFilesRecursive_cases fuel e names level w w' o :
  getMissingFilesRecursive (S fuel) e names level w = (w', o) →
  call_cases fuel e names level w w' o.
Proof.
  rewrite getMissingFilesRecursive_S.
  destruct (10 <? level) eqn:L.
  { apply Nat.ltb_lt in L. intros [= <- <-]. by constructor. }
  apply Nat.ltb_ge in L.
  destruct (readChunks _ _ w) as [w1 o1] eqn:R.
  apply read_level_spec in R as (read & -> & Hpre & Ho).
  destruct o1 as [s|err|]; [|..|done].
  - destruct Ho as (-> & -> & Hok).
    destruct (0 <? JSSet.size _) eqn:Z.
    + apply size_pos_true in Z.
      destruct (getMissingFilesRecursive fuel e _ (level + 1) _) as [w2 oc] eqn:C.
      destruct oc as [child|err|]; intros [= <- <-].
      * by eapply child_returned.
      * by eapply child_threw.
      * by eapply child_out_of_fuel.
    + apply size_pos_false in Z. intros [= <- <-]. by apply no_children.
  - destruct Ho as (n & Hn & Hp). intros [= <- <-]. by eapply read_failed.
Qed.

(** ** The resolver as a whole *)

Lemma deepest_first_0 {A} (part : nat → list A) : deepest_first part 0 = part 0.
Proof. unfold deepest_first. simpl. apply app_nil_r. Qed.

Lemma deepest_first_S {A} (part : nat → list A) depth :
  deepest_first part (S depth) = deepest_first (λ k, part (S k)) depth ++ part 0.
Proof.
  unfold deepest_first.
  change (seq 0 (S (S depth))) with (0 :: seq 1 (S depth)).
  rewrite <- seq_shift. cbn [rev]. rewrite map_app, concat_app, <- map_rev, map_map.
  simpl. by rewrite app_nil_r.
Qed.

Section resolver.
Variable e : JSSet.t.
Implicit Types (names read : list string) (w : world) (r : MissingFilesResult).

(** The resolver only reads, and it reads manifests of the snapshot. *)
Lemma resolver_reads fuel names level w w' o :
  getMissingFilesRecursive fuel e names level w = (w', o) →
  ∃ read, w' = after_reads w read
          ∧ Forall (λ n, n ∈ e ∧ endsWith n ".json" = true) read.
Proof.
  revert names level w w' o.
  induction fuel as [|fuel IH]; intros names level w w' o H.
  { injection H as <- <-. exists []. by rewrite after_reads_nil. }
  assert (∀ read, read `prefix_of` fileNamesWithRefs e names →
            Forall (λ n, n ∈ e ∧ endsWith n ".json" = true) read) as Hpre.
  { intros read [k Hk]. apply Forall_forall. intros n Hn.
    assert (n ∈ fileNamesWithRefs e names) as Hin
      by (rewrite Hk, elem_of_app; by left).
    apply elem_of_fileNamesWithRefs in Hin. tauto. }
  apply getMissingFilesRecursive_cases in H.
  destruct H as [?|read err n ? Hp|?|w2 child ? ? ? Hc|w2 err ? ? ? Hc|w2 ? ? Hc].
  - exists []. by rewrite after_reads_nil.
  - exists read. auto.
  - eexists. split; [done|]. by apply Hpre.
  - apply IH in Hc as (read & -> & Hread). rewrite after_reads_app.
    eexists. split; [done|]. apply Forall_app. split; [by apply Hpre|done].
  - apply IH in Hc as (read & -> & Hread). rewrite after_reads_app.
    eexists. split; [done|]. apply Forall_app. split; [by apply Hpre|done].
  - apply IH in Hc as (read & -> & Hread). rewrite after_reads_app.
    eexists. split; [done|]. apply Forall_app. split; [by apply Hpre|done].
Qed.

Lemma resolver_files fuel names level w w' o :
  getMissingFilesRecursive fuel e names level w = (w', o) → files w' = files w.
Proof. intros H. by apply resolver_reads in H as (read & -> & _). Qed.

(** With fuel for every level up to the bound, the fuel does not run out. *)
Lemma resolver_fuel fuel names level w w' :
  11 - level < fuel →
  getMissingFilesRecursive fuel e names level w ≠ (w', OutOfFuel).
Proof.
  revert names level w w'.
  induction fuel as [|fuel IH]; intros names level w w' Hf H; [lia|].
  apply getMissingFilesRecursive_cases in H.
  inversion H as [| | | | |w2 ? ? Hc]; subst.
  apply IH in Hc; [done|lia].
Qed.

Lemma resolver_returned fuel names level w w' r :
  getMissingFilesRecursive fuel e names level w = (w', Returned r) →
  returned_spec e (files w) names level r.
Proof.
  revert names level w w' r.
  induction fuel as [|fuel IH]; intros names level w w' r H; [done|].
  apply getMissingFilesRecursive_cases in H.
  inversion H as [| |Hl Hn Hok|w2 child Hl Hn Hok Hc| |]; subst; clear H.
  - (* no manifest of the level refers to a file *)
    assert (∀ k, frontier (files w) e (S k) names = []) as Hnil.
    { intros k. simpl. rewrite Hn. apply frontier_nil. }
    split; simpl.
    + intros x. rewrite elem_of_fileNamesThatAreMissing. split.
      * intros Hx. by exists 0.
      * intros ([|k] & Hk & Hx); [done|]. rewrite Hnil in Hk. by apply elem_of_nil in Hk.
    + intros x. split.
      * intros Hx. by exists 0.
      * intros ([|k] & Hk); [done|]. rewrite Hnil in Hk. by apply elem_of_nil in Hk.
    + exists 1. split_and!; [lia|lia|apply Hnil].
    + intros [|k] n Hk He Hj.
      * apply Hok, elem_of_fileNamesWithRefs. done.
      * rewrite Hnil in Hk. by apply elem_of_nil in Hk.
    + intros _. apply NoDup_fileNamesThatAreMissing.
  - (* the call on the referenced names returned *)
    apply IH in Hc as [Hm Hr (k0 & Hk0 & Hk0' & Hk0'') Hp Hd]. simpl in *.
    split; simpl.
    + intros x. rewrite elem_of_app, Hm, elem_of_fileNamesThatAreMissing. split.
      * intros [(k & Hk & Hx)|[Hx Hx']]; [by exists (S k)|by exists 0].
      * intros ([|k] & Hk & Hx); [by right|left; by exists k].
    + intros x. rewrite elem_of_app, Hr. split.
      * intros [(k & Hk)|Hx]; [by exists (S k)|by exists 0].
      * intros ([|k] & Hk); [by right|left; by exists k].
    + exists (S k0). split_and!; [lia|lia|done].
    + intros [|k] n Hk He Hj.
      * apply Hok, elem_of_fileNamesWithRefs. done.
      * by apply (Hp k).
    + intros Hone. apply NoDup_app. split_and!.
      * apply Hd. intros x k1 k2 H1 H2 Hx.
        specialize (Hone x (S k1) (S k2) H1 H2 Hx). lia.
      * intros x (k & Hk & Hx)%Hm (Hx1 & _)%elem_of_fileNamesThatAreMissing.
        specialize (Hone x (S k) 0 Hk Hx1 Hx). lia.
      * apply NoDup_fileNamesThatAreMissing.
Qed.

Lemma resolver_thrown fuel names level w w' err :
  getMissingFilesRecursive fuel e names level w = (w', Thrown err) →
  thrown_spec e (files w) names level err.
Proof.
  revert names level w w' err.
  induction fuel as [|fuel IH]; intros names level w w' err H; [done|].
  apply getMissingFilesRecursive_cases in H.
  inversion H as [Hl|read err' n Hl Hpre Hin Hp| | |w2 err' Hl Hn Hok Hc|]; subst; clear H.
  - apply thrown_too_deep; intros; lia.
  - apply elem_of_fileNamesWithRefs in Hin as (? & ? & ?).
    apply (thrown_by_read _ _ _ _ 0 n); [done..|]. intros; lia.
  - apply IH in Hc. simpl in Hc.
    destruct Hc as [Hdeep Hparse|k n err ? ? ? ? ? Hbefore].
    + apply thrown_too_deep.
      * intros [|k] ? ?; [lia|].
        destruct k as [|k]; [done|]. apply (Hdeep (S k)); lia.
      * intros [|k] n ? Hk ? ?.
        -- apply Hok, elem_of_fileNamesWithRefs. done.
        -- apply (Hparse k n); [lia|done..].
    + apply (thrown_by_read _ _ _ _ (S k) n); [lia|done..|].
      intros [|k'] n' ? Hk' ? ?.
      * apply Hok, elem_of_fileNamesWithRefs. done.
      * apply (Hbefore k' n'); [lia|done..].
Qed.

(** A call that returns has read the manifests of its level, first. *)
Lemma resolver_reads_level fuel names level w w' r :
  getMissingFilesRecursive fuel e names level w = (w', Returned r) →
  ∃ rest, w' = after_reads w (fileNamesWithRefs e names ++ rest).
Proof.
  destruct fuel as [|fuel]; [done|]. intros H.
  apply getMissingFilesRecursive_cases in H.
  inversion H as [| |Hl Hn Hok|w2 child Hl Hn Hok Hc| |]; subst; clear H.
  - exists []. by rewrite app_nil_r.
  - apply resolver_reads in Hc as (rest & -> & _). exists rest.
    by rewrite after_reads_app.
Qed.

(** A call that returns lists the missing names of the levels, and their
    inputs, from the deepest level to its own. *)
Lemma resolver_returned_levels fuel names level w w' r :
  getMissingFilesRecursive fuel e names level w = (w', Returned r) →
  ∃ depth,
    depth + level ≤ 10
    ∧ frontier (files w) e (S depth) names = []
    ∧ missingFiles r
      = deepest_first
          (λ k, fileNamesThatAreMissing e (frontier (files w) e k names)) depth
    ∧ referencedFiles r = deepest_first (λ k, frontier (files w) e k names) depth.
Proof.
  revert names level w w' r.
  induction fuel as [|fuel IH]; intros names level w w' r H; [done|].
  apply getMissingFilesRecursive_cases in H.
  inversion H as [| |Hl Hn Hok|w2 child Hl Hn Hok Hc| |]; subst; clear H.
  - exists 0. rewrite !deepest_first_0. simpl. split_and!; [lia|done..].
  - apply IH in Hc as (depth & Hd & Hnil & Hm & Hr). simpl in *.
    exists (S depth). rewrite !deepest_first_S. simpl.
    split_and!; [lia|done|by rewrite Hm|by rewrite Hr].
Qed.
End resolver.

(** ** References, reachability and cycles *)

Section graph.
Variables (d : gmap string content) (e : JSSet.t).
Implicit Types (names : list string) (m x y : string).

Lemma elem_of_next y names :
  y ∈ next d e names ↔ ∃ m, m ∈ names ∧ refers d e m y.
Proof.
  unfold next, refers. rewrite elem_of_from, list_elem_of_In, in_concat. split.
  - intros (l & Hl & Hy). apply in_map_iff in Hl. destruct Hl as (m & <- & Hm).
    apply list_elem_of_In, elem_of_fileNamesWithRefs in Hm as (? & ? & ?).
    apply list_elem_of_In in Hy. by exists m.
  - intros (m & Hm & He & Hj & Hy). exists (refs_of d m). split.
    + apply in_map, list_elem_of_In, elem_of_fileNamesWithRefs. done.
    + by apply list_elem_of_In.
Qed.

Lemma elem_of_frontier k x names :
  x ∈ frontier d e k names ↔ ∃ r, r ∈ names ∧ nsteps (refers d e) k r x.
Proof.
  revert names. induction k as [|k IH]; intros names; simpl.
  - split.
    + intros Hx. exists x. split; [done|constructor].
    + intros (r & Hr & Hs). by inversion Hs; subst.
  - rewrite IH. split.
    + intros (y & (m & Hm & Hy)%elem_of_next & Hs). exists m. split; [done|].
      by econstructor.
    + intros (r & Hr & Hs). inversion Hs as [|? ? y ? Hy Hs']; subst.
      exists y. split; [|done]. apply elem_of_next. by exists r.
Qed.

Lemma reachable_frontier roots x :
  reachable d e roots x ↔ ∃ k, x ∈ frontier d e k roots.
Proof.
  unfold reachable. split.
  - intros (r & Hr & (k & Hk)%rtc_nsteps). exists k. apply elem_of_frontier. eauto.
  - intros (k & (r & Hr & Hs)%elem_of_frontier). exists r. split; [done|].
    by apply rtc_nsteps_2 in Hs.
Qed.

Lemma nsteps_prefix n k x z :
  k ≤ n → nsteps (refers d e) n x z → ∃ y, nsteps (refers d e) k x y.
Proof.
  intros Hk Hs. replace n with (k + (n - k)) in Hs by lia.
  apply nsteps_add_inv in Hs as (y & Hy & _). eauto.
Qed.

(** From a manifest on a cycle there are paths of every length. *)
Lemma cycle_unbounded m k : tc (refers d e) m m → ∃ x, nsteps (refers d e) k m x.
Proof.
  intros (c & Hc & Hcycle)%tc_nsteps.
  induction k as [k IH] using lt_wf_ind.
  destruct (decide (k ≤ c)) as [Hle|Hgt].
  - by apply (nsteps_prefix c k m m).
  - destruct (IH (k - c)) as (x & Hx); [lia|].
    exists x. replace k with (c + (k - c)) by lia. by eapply nsteps_trans.
Qed.

Lemma cycle_frontier roots m k :
  reachable d e roots m → tc (refers d e) m m → frontier d e k roots ≠ [].
Proof.
  intros (r & Hr & (a & Ha)%rtc_nsteps) Hcycle.
  assert (∃ x, nsteps (refers d e) k r x) as (x & Hx).
  { destruct (decide (k ≤ a)) as [Hle|Hgt].
    - by apply (nsteps_prefix a k r m).
    - destruct (cycle_unbounded m (k - a) Hcycle) as (x & Hx).
      exists x. replace k with (a + (k - a)) by lia. by eapply nsteps_trans. }
  intros Hnil.
  assert (x ∈ frontier d e k roots) as Hin by (apply elem_of_frontier; eauto).
  rewrite Hnil in Hin. by apply elem_of_nil in Hin.
Qed.
End graph.

(** ** Resolution that returns, and resolution that is too deep *)

Section outcomes.
Variable e : JSSet.t.

Lemma resolver_returns fuel names level w :
  11 - level < fuel →
  manifests_parse e (files w) names level →
  (∃ k, 1 ≤ k ∧ k + level ≤ 11 ∧ frontier (files w) e k names = []) →
  ∃ w' r, getMissingFilesRecursive fuel e names level w = (w', Returned r).
Proof.
  intros Hfuel Hparse (k & Hk1 & Hk2 & Hnil).
  destruct (getMissingFilesRecursive fuel e names level w) as [w' [r|err|]] eqn:H.
  - eauto.
  - apply resolver_thrown in H. destruct H as [Hdeep _|k' n err Hk' Hn He Hj Hp _].
    + by apply Hdeep in Hnil.
    + destruct (Hparse k' n) as (v & Hv); [done..|]. congruence.
  - by apply resolver_fuel in H.
Qed.

Lemma resolver_too_deep fuel names level w :
  11 - level < fuel →
  manifests_parse e (files w) names level →
  frontier (files w) e (11 - level) names ≠ [] →
  ∃ w', getMissingFilesRecursive fuel e names level w = (w', Thrown tooDeep).
Proof.
  intros Hfuel Hparse Hdeep.
  destruct (getMissingFilesRecursive fuel e names level w) as [w' [r|err|]] eqn:H.
  - apply resolver_returned in H as [_ _ (k & Hk1 & Hk2 & Hnil) _ _].
    destruct Hdeep. apply (frontier_nil_le _ _ k); [lia|done].
  - apply resolver_thrown in H. destruct H as [_ _|k' n err Hk' Hn He Hj Hp _].
    + eauto.
    + destruct (Hparse k' n) as (v & Hv); [done..|]. congruence.
  - by apply resolver_fuel in H.
Qed.
End outcomes.

(** ** The directory snapshot *)

Lemma elem_of_listing (d : gmap string content) n :
  n ∈ (map_to_list d).*1 ↔ is_Some (d !! n).
Proof.
  rewrite list_elem_of_fmap. split.
  - intros ([n' c] & -> & H%elem_of_map_to_list). by exists c.
  - intros [c H]. exists (n, c). split; [done|]. by apply elem_of_map_to_list.
Qed.

Lemma elem_of_snapshot (d : gmap string content) n :
  n ∈ snapshot d ↔ is_Some (d !! n).
Proof. unfold snapshot. by rewrite elem_of_from, elem_of_listing. Qed.

Lemma getExistingFiles_eq w :
  getExistingFiles w = (issue ReadDir w, Returned (snapshot (files w))).
Proof. reflexivity. Qed.

Lemma resolution_eq fileNames w :
  resolution fileNames w
  = getMissingFilesRecursive 12 (snapshot (files w)) fileNames 0 (issue ReadDir w).
Proof. reflexivity. Qed.

Lemma getMissingFilesForRootFiles_eq fileNames saveQueryParam tempFileSuffix w :
  getMissingFilesForRootFiles fileNames saveQueryParam tempFileSuffix w =
  match resolution fileNames w with
  | (w1, Returned r) =>
      match handleSaveParam fileNames saveQueryParam tempFileSuffix
              (snapshot (files w)) r w1 with
      | (w2, Returned _) => (w2, Returned (missingFiles r))
      | (w2, Thrown err) => (w2, Thrown err)
      | (w2, OutOfFuel) => (w2, OutOfFuel)
      end
  | (w1, Thrown err) => (w1, Thrown err)
  | (w1, OutOfFuel) => (w1, OutOfFuel)
  end.
Proof.
  rewrite resolution_eq.
  unfold getMissingFilesForRootFiles. unfold bind at 1. rewrite getExistingFiles_eq.
  unfold bind at 1.
  destruct (getMissingFilesRecursive 12 _ fileNames 0 _) as [w1 [r|err|]]; [|done..].
  unfold bind at 1.
  by destruct (handleSaveParam _ _ _ _ r w1) as [w2 [[]|err|]].
Qed.

Lemma issued_app w w' l : calls w' = calls w ++ l → issued w w' = l.
Proof. unfold issued. intros ->. by rewrite drop_app_length. Qed.

Lemma resolution_frame fileNames w w' o :
  resolution fileNames w = (w', o) →
  files w' = files w ∧
  ∃ read, calls w' = calls w ++ ReadDir :: map ReadFile read
          ∧ Forall (λ n, is_Some (files w !! n) ∧ endsWith n ".json" = true) read.
Proof.
  rewrite resolution_eq. intros H.
  apply resolver_reads in H as (read & -> & Hread). split; [done|].
  exists read. split.
  - simpl. by rewrite <- app_assoc.
  - eapply Forall_impl; [exact Hread|]. simpl. intros n [Hn ?].
    by apply elem_of_snapshot in Hn.
Qed.

Lemma resolution_not_OutOfFuel fileNames w w' :
  resolution fileNames w ≠ (w', OutOfFuel).
Proof. rewrite resolution_eq. apply resolver_fuel. lia. Qed.

Lemma reads_no_mutation read :
  forallb (λ c, negb (mutation c)) (ReadDir :: map ReadFile read) = true.
Proof. simpl. induction read; simpl; auto. Qed.

(** ** Batches of renames and deletions *)

Lemma renameAsync_performs oldName new : performs (renameAsync oldName new) (Rename oldName new).
Proof.
  intros w. unfold renameAsync, issue. simpl. by destruct (files w !! oldName).
Qed.

Lemma unlinkAsync_performs name : performs (unlinkAsync name) (Unlink name).
Proof.
  intros w. unfold unlinkAsync, issue. simpl.
  destruct (files w !! name) eqn:E; [done|]. by rewrite delete_id.
Qed.

Lemma Promise_all_performs ps cs w :
  Forall2 performs ps cs →
  Promise_all ps w = ({| files := effects cs (files w); calls := calls w ++ cs |},
                      all_of (results cs (files w))).
Proof.
  intros H. revert w. induction H as [|p c ps cs Hp _ IH]; intros w.
  - simpl. unfold ret. destruct w. simpl. by rewrite app_nil_r.
  - cbn [Promise_all effects results all_of]. rewrite Hp, IH. simpl.
    rewrite <- app_assoc. simpl.
    destruct (result c (files w));
      destruct (all_of (results cs (effect c (files w)))); reflexivity.
Qed.

Lemma unlinks_perform names : Forall2 performs (map unlinkAsync names) (map Unlink names).
Proof. induction names; constructor; auto using unlinkAsync_performs. Qed.

Lemma result_not_OutOfFuel c d : result c d ≠ OutOfFuel.
Proof. destruct c as [| |o n|n]; simpl; try done; by destruct (d !! _). Qed.

Lemma results_not_OutOfFuel cs d : all_of (results cs d) ≠ OutOfFuel.
Proof.
  intros H%all_of_OutOfFuel. revert d H.
  induction cs as [|c cs IH]; intros d; simpl.
  - intros H. by apply elem_of_nil in H.
  - intros [H|H]%elem_of_cons; [|by eapply IH].
    symmetry in H. by apply result_not_OutOfFuel in H.
Qed.

Lemma effect_frame c d x : x ∉ touched c → effect c d !! x = d !! x.
Proof.
  destruct c as [| |o n|n]; simpl; try done.
  - intros H. apply not_elem_of_cons in H as [Ho H]. apply not_elem_of_cons in H as [Hn _].
    destruct (d !! o); [|done]. by rewrite lookup_insert_ne, lookup_delete_ne.
  - intros H. apply not_elem_of_cons in H as [Hn _]. by rewrite lookup_delete_ne.
Qed.

Lemma effects_frame cs d x :
  (∀ c, c ∈ cs → x ∉ touched c) → effects cs d !! x = d !! x.
Proof.
  revert d. induction cs as [|c cs IH]; intros d H; simpl; [done|].
  rewrite IH, effect_frame; [done|apply H; left|].
  intros c' Hc'. apply H. by right.
Qed.

Lemma effects_unlinks_None names d x :
  x ∈ names → effects (map Unlink names) d !! x = None.
Proof.
  revert d. induction names as [|n names IH]; intros d H; simpl.
  - by apply elem_of_nil in H.
  - destruct (decide (x ∈ names)) as [Hin|Hnotin]; [by apply IH|].
    apply elem_of_cons in H as [->|]; [|done].
    rewrite effects_frame.
    + apply lookup_delete_eq.
    + intros c Hc. apply list_elem_of_In, in_map_iff in Hc as (n' & <- & Hn').
      simpl. apply list_elem_of_In in Hn'. intros ->%list_elem_of_singleton. done.
Qed.

Lemma effects_unlinks_frame names d x :
  x ∉ names → effects (map Unlink names) d !! x = d !! x.
Proof.
  intros H. apply effects_frame. intros c Hc.
  apply list_elem_of_In, in_map_iff in Hc as (n' & <- & Hn').
  simpl. apply list_elem_of_In in Hn'. intros ->%list_elem_of_singleton. done.
Qed.

Lemma same_names_effect c d1 d2 :
  same_names d1 d2 → same_names (effect c d1) (effect c d2) ∧ result c d1 = result c d2.
Proof.
  intros H. destruct c as [| |o n|n]; simpl; try done.
  - pose proof (H o) as Ho.
    destruct (d1 !! o) as [c1|] eqn:E1, (d2 !! o) as [c2|] eqn:E2;
      try (exfalso; destruct Ho as [Ho1 Ho2];
           first [by destruct Ho1 as [? ?] | by destruct Ho2 as [? ?]]).
    + split; [|done]. intros x.
      rewrite !lookup_insert_is_Some, !lookup_delete_is_Some, (H x). tauto.
    + done.
  - pose proof (H n) as Hn. split.
    + intros x. rewrite !lookup_delete_is_Some, (H x). tauto.
    + destruct (d1 !! n) eqn:E1, (d2 !! n) eqn:E2; try done;
        exfalso; destruct Hn as [Hn1 Hn2];
        first [by destruct Hn1 as [? ?] | by destruct Hn2 as [? ?]].
Qed.

Lemma same_names_effects cs d1 d2 :
  same_names d1 d2 →
  same_names (effects cs d1) (effects cs d2) ∧ results cs d1 = results cs d2.
Proof.
  revert d1 d2. induction cs as [|c cs IH]; intros d1 d2 H; simpl; [done|].
  destruct (same_names_effect c d1 d2 H) as [H' ->].
  destruct (IH _ _ H') as [? ->]. done.
Qed.

(** ** The handling of the save parameter *)

Lemma fold_rename_step suffix names st cs :
  Forall2 performs (renamePromises st) cs →
  let st' := fold_left (rename_step suffix) names st in
  referencedSet st' = renamed_set suffix names (referencedSet st)
  ∧ existingSet st' = renamed_set suffix names (existingSet st)
  ∧ Forall2 performs (renamePromises st') (cs ++ renames suffix names).
Proof.
  revert st cs. induction names as [|file names IH]; intros st cs H; simpl.
  - by rewrite app_nil_r.
  - destruct (IH (rename_step suffix st file) (cs ++ [Rename file (newName file suffix)]))
      as (H1 & H2 & H3).
    { simpl. apply Forall2_app; [done|]. constructor; [|constructor].
      apply renameAsync_performs. }
    simpl in *. rewrite <- app_assoc in H3. done.
Qed.

Lemma rename_all_spec suffix r e names :
  referencedSet (rename_all suffix r e names) = renamed_set suffix names r
  ∧ existingSet (rename_all suffix r e names) = renamed_set suffix names e
  ∧ Forall2 performs (renamePromises (rename_all suffix r e names)) (renames suffix names).
Proof.
  unfold rename_all.
  apply (fold_rename_step suffix names
           {| referencedSet := r; existingSet := e; renamePromises := [] |} []).
  constructor.
Qed.


Lemma NoDup_renamed_set suffix names s : NoDup s → NoDup (renamed_set suffix names s).
Proof.
  unfold renamed_set. revert s. induction names; simpl; auto using NoDup_add, NoDup_delete.
Qed.

Lemma handleSaveParam_verify names p suffix e r :
  p ≠ "ifcomplete" → p ≠ "no" → handleSaveParam names p suffix e r = ret tt.
Proof.
  intros H1%String.eqb_neq H2%String.eqb_neq. unfold handleSaveParam.
  by rewrite H1, H2.
Qed.

Lemma handleSaveParam_rollback names p suffix e r w :
  p = "no" ∨ (p = "ifcomplete" ∧ missingFiles r ≠ []) →
  handleSaveParam names p suffix e r w
  = ({| files := effects (map Unlink names) (files w);
        calls := calls w ++ map Unlink names |},
     unit_of (all_of (results (map Unlink names) (files w)))).
Proof.
  intros H. unfold handleSaveParam.
  assert (String.eqb p "ifcomplete" || String.eqb p "no" = true) as ->.
  { destruct H as [->|[-> _]]; reflexivity. }
  assert (String.eqb p "ifcomplete" && (length (missingFiles r) =? 0) = false) as ->.
  { destruct H as [->|[-> H]]; [reflexivity|]. by destruct (missingFiles r). }
  unfold bind. rewrite (Promise_all_performs _ _ _ (unlinks_perform names)).
  by destruct (all_of _).
Qed.

Lemma handleSaveParam_commit names suffix e r w :
  missingFiles r = [] →
  handleSaveParam names "ifcomplete" suffix e r w =
  let d1 := effects (renames suffix names) (files w) in
  match all_of (results (renames suffix names) (files w)) with
  | Returned _ =>
      let prune := map Unlink (pruneFiles suffix names e r) in
      ({| files := effects prune d1;
          calls := calls w ++ renames suffix names ++ prune |},
       unit_of (all_of (results prune d1)))
  | Thrown err => ({| files := d1; calls := calls w ++ renames suffix names |}, Thrown err)
  | OutOfFuel => ({| files := d1; calls := calls w ++ renames suffix names |}, OutOfFuel)
  end.
Proof.
  intros Hm. unfold handleSaveParam. rewrite Hm. cbn [String.eqb orb andb length Nat.eqb].
  simpl.
  destruct (rename_all_spec suffix (JSSet.from (referencedFiles r)) e names)
    as (-> & -> & Hp).
  unfold bind at 1. rewrite (Promise_all_performs _ _ _ Hp).
  destruct (all_of (results (renames suffix names) (files w))); [|done..].
  unfold bind. rewrite (Promise_all_performs _ _ _ (unlinks_perform _)). simpl.
  rewrite <- app_assoc. unfold pruneFiles. by destruct (all_of _).
Qed.

(** ** The permanent name of a root *)

Lemma substring_all (s : string) : String.substring 0 (String.length s) s = s.
Proof. induction s as [|c s IH]; simpl; [done|]. by rewrite IH. Qed.

Lemma substring_split (s : string) (n : nat) :
  n ≤ String.length s →
  s = String.append (String.substring 0 n s) (String.substring n (String.length s - n) s).
Proof.
  revert n. induction s as [|c s IH]; intros n Hn; simpl in *.
  - by destruct n.
  - destruct n as [|n]; simpl.
    + by rewrite substring_all.
    + change (String c s = String c (String.append (String.substring 0 n s)
                                       (String.substring n (String.length s - n) s))).
      f_equal. apply IH. lia.
Qed.

Lemma substring_length (s : string) (n m : nat) :
  n + m ≤ String.length s → String.length (String.substring n m s) = m.
Proof.
  revert n m. induction s as [|c s IH]; intros n m H; simpl in *.
  - by destruct n, m; simpl in *; try lia.
  - destruct n as [|n]; [destruct m as [|m]|]; simpl; try done.
    + f_equal. apply IH. lia.
    + apply IH. lia.
Qed.

Lemma newName_eq (file tempFileSuffix : string) :
  newName file tempFileSuffix
  = String.substring 0 (String.length file - String.length tempFileSuffix) file.
Proof.
  unfold newName, substr. cbn [Z.ltb Z.compare].
  set (n := String.length file). set (m := String.length tempFileSuffix).
  rewrite (Z.min_l 0 (Z.of_nat n)), Z.sub_0_r by lia.
  destruct (decide (n ≤ m)) as [Hle|Hgt].
  - rewrite (Z.max_r (Z.of_nat n - Z.of_nat m) 0), (Z.min_l 0 (Z.of_nat n)) by lia.
    simpl. replace (n - m) with 0 by lia. by destruct file.
  - rewrite (Z.max_l (Z.of_nat n - Z.of_nat m) 0) by lia.
    rewrite (Z.min_l (Z.of_nat n - Z.of_nat m) (Z.of_nat n)) by lia.
    destruct (Z.leb_spec (Z.of_nat n - Z.of_nat m) 0); [lia|].
    simpl. f_equal. lia.
Qed.

Lemma newName_short (file tempFileSuffix : string) :
  String.length file ≤ String.length tempFileSuffix → newName file tempFileSuffix = "".
Proof.
  intros H. rewrite newName_eq. replace (_ - _) with 0 by lia. by destruct file.
Qed.

Lemma newName_strips (file tempFileSuffix : string) :
  String.length tempFileSuffix ≤ String.length file →
  let last := String.substring (String.length file - String.length tempFileSuffix)
                (String.length tempFileSuffix) file in
  file = String.append (newName file tempFileSuffix) last
  ∧ String.length last = String.length tempFileSuffix.
Proof.
  intros H. simpl. rewrite newName_eq. split.
  - rewrite (substring_split file (String.length file - String.length tempFileSuffix))
      at 1 by lia.
    do 2 f_equal. lia.
  - apply substring_length. lia.
Qed.

Lemma newName_endsWith (file tempFileSuffix : string) :
  endsWith file tempFileSuffix = true →
  file = String.append (newName file tempFileSuffix) tempFileSuffix.
Proof.
  unfold endsWith. destruct (Nat.leb_spec (String.length tempFileSuffix) (String.length file));
    [|done].
  intros E%String.eqb_eq. destruct (newName_strips file tempFileSuffix) as [Hf _]; [done|].
  by rewrite E in Hf.
Qed.

(** ** What the outcome depends on *)

Lemma readChunks_ext chunks acc w1 w2 :
  (∀ n, n ∈ concat chunks → parsed (files w1) n = parsed (files w2) n) →
  ∃ read o, readChunks chunks acc w1 = (after_reads w1 read, o)
            ∧ readChunks chunks acc w2 = (after_reads w2 read, o).
Proof.
  revert acc w1 w2. induction chunks as [|chunk chunks IH]; intros acc w1 w2 H; simpl.
  - exists [], (Returned acc). by rewrite !after_reads_nil.
  - unfold bind. rewrite !Promise_all_reads.
    assert (map (parsed (files w1)) chunk = map (parsed (files w2)) chunk) as ->.
    { apply map_ext_in. intros n Hn. apply H. simpl.
      rewrite elem_of_app, list_elem_of_In. by left. }
    destruct (all_of (map (parsed (files w2)) chunk)) as [vs|err|].
    + destruct (IH (addReferenced acc vs) (after_reads w1 chunk) (after_reads w2 chunk))
        as (read & o & H1 & H2).
      { intros n Hn. simpl. apply H. simpl. rewrite elem_of_app. by right. }
      exists (chunk ++ read), o. by rewrite H1, H2, !after_reads_app.
    + by exists chunk, (Thrown err).
    + by exists chunk, OutOfFuel.
Qed.

Lemma resolver_ext fuel e names level w1 w2 :
  (∀ n, n ∈ e → endsWith n ".json" = true → parsed (files w1) n = parsed (files w2) n) →
  ∃ read o, getMissingFilesRecursive fuel e names level w1 = (after_reads w1 read, o)
            ∧ getMissingFilesRecursive fuel e names level w2 = (after_reads w2 read, o).
Proof.
  intros H. revert names level w1 w2 H.
  induction fuel as [|fuel IH]; intros names level w1 w2 H.
  { exists [], OutOfFuel. by rewrite !after_reads_nil. }
  rewrite !getMissingFilesRecursive_S.
  destruct (10 <? level).
  { exists [], (Thrown tooDeep). by rewrite !after_reads_nil. }
  destruct (readChunks_ext (chunkArrayInGroups (fileNamesWithRefs e names) 50) [] w1 w2)
    as (read & o & -> & ->).
  { intros n Hn. rewrite chunkArrayInGroups_concat in Hn by lia.
    apply elem_of_fileNamesWithRefs in Hn as (_ & ? & ?). by apply H. }
  destruct o as [s|err|]; [|by exists read, (Thrown err)|by exists read, OutOfFuel].
  destruct (0 <? JSSet.size s).
  - destruct (IH s (level + 1) (after_reads w1 read) (after_reads w2 read) H)
      as (read' & o & -> & ->).
    rewrite !after_reads_app.
    destruct o as [child|err|]; eauto.
  - unfold ret. eauto.
Qed.

(** ** The entry point, case by case *)

Lemma entry_resolution_thrown roots policy suffix w err :
  snd (resolution roots w) = Thrown err →
  getMissingFilesForRootFiles roots policy suffix w = (fst (resolution roots w), Thrown err).
Proof.
  rewrite getMissingFilesForRootFiles_eq.
  destruct (resolution roots w) as [w1 o]. simpl. by intros ->.
Qed.

Lemma entry_resolution_returned roots policy suffix w r :
  snd (resolution roots w) = Returned r →
  getMissingFilesForRootFiles roots policy suffix w =
  match handleSaveParam roots policy suffix (snapshot (files w)) r
          (fst (resolution roots w)) with
  | (w2, Returned _) => (w2, Returned (missingFiles r))
  | (w2, Thrown err) => (w2, Thrown err)
  | (w2, OutOfFuel) => (w2, OutOfFuel)
  end.
Proof.
  rewrite getMissingFilesForRootFiles_eq.
  destruct (resolution roots w) as [w1 o]. simpl. by intros ->.
Qed.

Lemma resolution_files roots w : files (fst (resolution roots w)) = files w.
Proof.
  destruct (resolution roots w) as [w1 o] eqn:E. by apply resolution_frame in E as [? _].
Qed.

Lemma resolution_issued roots w :
  ∃ read, issued w (fst (resolution roots w)) = ReadDir :: map ReadFile read
          ∧ Forall (λ n, is_Some (files w !! n) ∧ endsWith n ".json" = true) read.
Proof.
  destruct (resolution roots w) as [w1 o] eqn:E.
  apply resolution_frame in E as (_ & read & Hc & Hread).
  exists read. split; [|done]. by apply issued_app.
Qed.

(** The entry point throws what resolution throws, and has then changed
    nothing. *)
Lemma entry_aborts roots policy suffix w err :
  snd (resolution roots w) = Thrown err →
  let w' := fst (getMissingFilesForRootFiles roots policy suffix w) in
  snd (getMissingFilesForRootFiles roots policy suffix w) = Thrown err
  ∧ files w' = files w
  ∧ forallb (λ c, negb (mutation c)) (issued w w') = true.
Proof.
  intros H. rewrite (entry_resolution_thrown _ _ _ _ _ H). simpl.
  split; [done|]. split; [apply resolution_files|].
  destruct (resolution_issued roots w) as (read & -> & _). apply reads_no_mutation.
Qed.

Lemma resolution_returned roots w r :
  snd (resolution roots w) = Returned r →
  returned_spec (snapshot (files w)) (files w) roots 0 r.
Proof.
  rewrite resolution_eq.
  destruct (getMissingFilesRecursive 12 _ roots 0 _) as [w' o] eqn:E. simpl. intros ->.
  by apply resolver_returned in E.
Qed.

Lemma entry_verify roots policy suffix w :
  policy ≠ "ifcomplete" → policy ≠ "no" →
  getMissingFilesForRootFiles roots policy suffix w =
  (fst (resolution roots w),
   match snd (resolution roots w) with
   | Returned r => Returned (missingFiles r)
   | Thrown err => Thrown err
   | OutOfFuel => OutOfFuel
   end).
Proof.
  intros H1 H2. rewrite getMissingFilesForRootFiles_eq.
  destruct (resolution roots w) as [w1 [r|err|]]; [|done..].
  by rewrite handleSaveParam_verify.
Qed.

Lemma entry_rollback roots policy suffix w r :
  snd (resolution roots w) = Returned r →
  policy = "no" ∨ (policy = "ifcomplete" ∧ missingFiles r ≠ []) →
  getMissingFilesForRootFiles roots policy suffix w =
  ({| files := effects (map Unlink roots) (files w);
      calls := calls (fst (resolution roots w)) ++ map Unlink roots |},
   match all_of (results (map Unlink roots) (files w)) with
   | Returned _ => Returned (missingFiles r)
   | Thrown err => Thrown err
   | OutOfFuel => OutOfFuel
   end).
Proof.
  intros Hr Hp. rewrite (entry_resolution_returned _ _ _ _ _ Hr).
  rewrite handleSaveParam_rollback, resolution_files by done.
  by destruct (all_of _).
Qed.

Lemma entry_commit roots suffix w r :
  snd (resolution roots w) = Returned r →
  missingFiles r = [] →
  getMissingFilesForRootFiles roots "ifcomplete" suffix w =
  let w1 := fst (resolution roots w) in
  let d1 := effects (renames suffix roots) (files w) in
  match all_of (results (renames suffix roots) (files w)) with
  | Returned _ =>
      let prune := map Unlink (pruneFiles suffix roots (snapshot (files w)) r) in
      ({| files := effects prune d1;
          calls := calls w1 ++ renames suffix roots ++ prune |},
       match all_of (results prune d1) with
       | Returned _ => Returned (missingFiles r)
       | Thrown err => Thrown err
       | OutOfFuel => OutOfFuel
       end)
  | Thrown err => ({| files := d1; calls := calls w1 ++ renames suffix roots |}, Thrown err)
  | OutOfFuel => ({| files := d1; calls := calls w1 ++ renames suffix roots |}, OutOfFuel)
  end.
Proof.
  intros Hr Hm. rewrite (entry_resolution_returned _ _ _ _ _ Hr).
  rewrite handleSaveParam_commit, resolution_files by done. simpl.
  destruct (all_of (results (renames suffix roots) (files w))); [|done..].
  by destruct (all_of _).
Qed.

Lemma renames_frame suffix roots d x :
  x ∉ roots → x ∉ map (λ file, newName file suffix) roots →
  effects (renames suffix roots) d !! x = d !! x.
Proof.
  intros H1 H2. apply effects_frame. intros c Hc.
  apply list_elem_of_In, in_map_iff in Hc as (file & <- & Hfile). simpl.
  intros [->|[->|[]%elem_of_nil]%elem_of_cons]%elem_of_cons.
  - by apply list_elem_of_In in Hfile.
  - apply H2, list_elem_of_In, in_map_iff. by exists file.
Qed.

(** ** How the entry point ends *)

Lemma results_Thrown cs d err :
  all_of (results cs d) = Thrown err → ∃ syscall path, err = ENOENT syscall path.
Proof.
  intros H%all_of_Thrown. revert d H.
  induction cs as [|c cs IH]; intros d; simpl.
  - intros H. by apply elem_of_nil in H.
  - intros [H|H]%elem_of_cons; [|by eapply IH].
    destruct c as [| |o n|n]; simpl in H; try done;
      destruct (d !! _); try done; injection H as ->; eauto.
Qed.

Lemma batch_outcome cs d :
  unit_of (all_of (results cs d)) = Returned tt
  ∨ ∃ syscall path, unit_of (all_of (results cs d)) = Thrown (ENOENT syscall path).
Proof.
  destruct (all_of (results cs d)) as [us|err|] eqn:E; simpl.
  - by left.
  - right. apply results_Thrown in E as (syscall & path & ->). eauto.
  - by apply results_not_OutOfFuel in E.
Qed.

(** The handling of the save parameter returns, or throws the error of a
    rename or a deletion that failed. *)
Lemma handleSaveParam_outcome roots policy suffix e r w :
  snd (handleSaveParam roots policy suffix e r w) = Returned tt
  ∨ ∃ syscall path,
      snd (handleSaveParam roots policy suffix e r w) = Thrown (ENOENT syscall path).
Proof.
  destruct (decide (policy = "ifcomplete")) as [->|H1].
  - destruct (missingFiles r) as [|x l] eqn:Hm.
    + rewrite handleSaveParam_commit by done. simpl.
      destruct (all_of (results (renames suffix roots) (files w))) eqn:E; simpl.
      * apply batch_outcome.
      * right. apply results_Thrown in E as (syscall & path & ->). eauto.
      * by apply results_not_OutOfFuel in E.
    + rewrite handleSaveParam_rollback by (right; by rewrite Hm). apply batch_outcome.
  - destruct (decide (policy = "no")) as [->|H2].
    + rewrite handleSaveParam_rollback by by left. apply batch_outcome.
    + rewrite handleSaveParam_verify by done. by left.
Qed.

(** The entry point returns the missing files of a resolution that returns,
    unless a rename or a deletion fails. *)
Lemma entry_outcome roots policy suffix w r :
  snd (resolution roots w) = Returned r →
  snd (getMissingFilesForRootFiles roots policy suffix w) = Returned (missingFiles r)
  ∨ ∃ syscall path,
      snd (getMissingFilesForRootFiles roots policy suffix w)
      = Thrown (ENOENT syscall path).
Proof.
  intros Hr. rewrite (entry_resolution_returned _ _ _ _ _ Hr).
  destruct (handleSaveParam_outcome roots policy suffix (snapshot (files w)) r
              (fst (resolution roots w))) as [H|(syscall & path & H)];
    destruct (handleSaveParam _ _ _ _ r _) as [w2 [[]|err|]]; simpl in *;
    try done; [by left|right]. injection H as ->. eauto.
Qed.


(** Only the resolution throws the too-deep error, and then nothing is
    changed. *)
Lemma entry_too_deep roots policy suffix w :
  snd (getMissingFilesForRootFiles roots policy suffix w) = Thrown tooDeep →
  files (fst (getMissingFilesForRootFiles roots policy suffix w)) = files w
  ∧ forallb (λ c, negb (mutation c))
      (issued w (fst (getMissingFilesForRootFiles roots policy suffix w))) = true.
Proof.
  intros H. destruct (resolution roots w) as [w1 [r|err|]] eqn:E.
  - destruct (entry_outcome roots policy suffix w r) as [H'|(? & ? & H')];
      [by rewrite E|rewrite H' in H; discriminate H..].
  - destruct (entry_aborts roots policy suffix w err) as (_ & ? & ?);
      [by rewrite E|done].
  - by apply resolution_not_OutOfFuel in E.
Qed.

(** ** The calls of a whole run *)

Lemma renames_mutation suffix roots : forallb mutation (renames suffix roots) = true.
Proof. induction roots; simpl; auto. Qed.

Lemma unlinks_mutation names : forallb mutation (map Unlink names) = true.
Proof. induction names; simpl; auto. Qed.

Lemma handleSaveParam_issued roots policy suffix e r w :
  ∃ ops, calls (fst (handleSaveParam roots policy suffix e r w)) = calls w ++ ops
         ∧ forallb mutation ops = true.
Proof.
  destruct (decide (policy = "ifcomplete")) as [->|H1].
  - destruct (missingFiles r) as [|x l] eqn:Hm.
    + rewrite handleSaveParam_commit by done. simpl.
      destruct (all_of (results (renames suffix roots) (files w))); simpl.
      * eexists. split; [done|].
        by rewrite forallb_app, renames_mutation, unlinks_mutation.
      * eexists. split; [done|]. apply renames_mutation.
      * eexists. split; [done|]. apply renames_mutation.
    + rewrite handleSaveParam_rollback by (right; by rewrite Hm). simpl.
      eexists. split; [done|]. apply unlinks_mutation.
  - destruct (decide (policy = "no")) as [->|H2].
    + rewrite handleSaveParam_rollback by by left. simpl.
      eexists. split; [done|]. apply unlinks_mutation.
    + rewrite handleSaveParam_verify by done. exists []. by rewrite app_nil_r.
Qed.

(** A run lists the directory once, at its start, then reads manifests of
    the snapshot, then renames and deletes. *)
Lemma entry_issued roots policy suffix w :
  ∃ read ops,
    issued w (fst (getMissingFilesForRootFiles roots policy suffix w))
    = ReadDir :: map ReadFile read ++ ops
    ∧ Forall (λ n, is_Some (files w !! n) ∧ endsWith n ".json" = true) read
    ∧ forallb mutation ops = true.
Proof.
  rewrite getMissingFilesForRootFiles_eq.
  destruct (resolution roots w) as [w1 o] eqn:E.
  apply resolution_frame in E as (_ & read & Hcalls & Hread).
  exists read.
  destruct o as [r|err|].
  - destruct (handleSaveParam_issued roots policy suffix (snapshot (files w)) r w1)
      as (ops & Hops & Hmut).
    exists ops. split; [|done].
    destruct (handleSaveParam _ _ _ _ r w1) as [w2 [[]|err|]]; simpl in *;
      apply issued_app; by rewrite Hops, Hcalls, <- app_assoc.
  - exists []. rewrite app_nil_r. split; [by apply issued_app|done].
  - exists []. rewrite app_nil_r. split; [by apply issued_app|done].
Qed.

(** ** Batches that do not fail *)

Lemma unlinks_succeed_iff (names : list string) (d : gmap string content) :
  succeed (map Unlink names) d
  ↔ NoDup names ∧ ∀ n, n ∈ names → is_Some (d !! n).
Proof.
  unfold succeed. revert d. induction names as [|name names IH]; intros d.
  - simpl. split; [intros _|by eauto].
    split; [constructor|]. intros n Hn. by apply elem_of_nil in Hn.
  - cbn [map results all_of result effect].
    assert ((∃ us, all_of (results (map Unlink names) (delete name d)) = Returned us)
            ↔ NoDup names ∧ (name ∉ names) ∧ ∀ n, n ∈ names → is_Some (d !! n)) as IH'.
    { rewrite IH. split.
      - intros [Hnd Hall]. split; [done|]. split.
        + intros Hin. apply Hall in Hin. rewrite lookup_delete_eq in Hin.
          by destruct Hin.
        + intros n Hn. apply Hall in Hn. apply lookup_delete_is_Some in Hn. tauto.
      - intros (Hnd & Hnotin & Hall). split; [done|]. intros n Hn.
        apply lookup_delete_is_Some. split; [|by apply Hall].
        intros ->. done. }
    rewrite NoDup_cons. split.
    + destruct (d !! name) as [c|] eqn:E; [|by intros [? ?]].
      destruct (all_of (results (map Unlink names) (delete name d))) as [us|err|] eqn:E';
        [|by intros [? ?]..].
      intros _. destruct IH' as [IH' _]. destruct IH' as (? & ? & Hall); [by eauto|].
      split; [done|]. intros n [->|Hn]%elem_of_cons; [by rewrite E|by apply Hall].
    + intros [[Hnotin Hnd] Hall].
      destruct (Hall name) as [c ->]; [by left|].
      destruct IH' as [_ IH']. destruct IH' as [us ->]; [|by eauto].
      split; [done|]. split; [done|]. intros n Hn. apply Hall. by right.
Qed.


(** The renames of distinct files succeed, and a set that has the names of the
    directory has them still after the renames. *)
Lemma renames_succeed suffix (roots : list string) (d : gmap string content)
    (s : JSSet.t) :
  NoDup roots → (∀ n, n ∈ roots → is_Some (d !! n)) →
  (∀ x, x ∈ s ↔ is_Some (d !! x)) →
  succeed (renames suffix roots) d
  ∧ ∀ x, x ∈ renamed_set suffix roots s
         ↔ is_Some (effects (renames suffix roots) d !! x).
Proof.
  unfold succeed, renamed_set. revert d s.
  induction roots as [|file roots IH]; intros d s Hnd Hall Hs.
  - simpl. split; [by eauto|done].
  - apply NoDup_cons in Hnd as [Hfile Hnd].
    destruct (Hall file) as [c Hc]; [by left|].
    cbn [renames map results effects all_of result effect fold_left]. rewrite Hc.
    destruct (IH (<[newName file suffix := c]> (delete file d))
                (JSSet.add (newName file suffix) (JSSet.delete file s)))
      as [[us Hus] Hmirror]; [done| | |].
    + intros n Hn. apply lookup_insert_is_Some.
      destruct (decide (newName file suffix = n)); [by left|right].
      split; [done|]. apply lookup_delete_is_Some. split; [|apply Hall; by right].
      intros ->. done.
    + intros x. rewrite elem_of_add, elem_of_delete, Hs.
      rewrite lookup_insert_is_Some, lookup_delete_is_Some.
      destruct (decide (newName file suffix = x)); intuition congruence.
    + split; [|done]. fold (renames suffix roots). rewrite Hus. by eauto.
Qed.


Lemma renamed_set_mono suffix (roots : list string) (s1 s2 : JSSet.t) :
  (∀ x, x ∈ s1 → x ∈ s2) →
  ∀ x, x ∈ renamed_set suffix roots s1 → x ∈ renamed_set suffix roots s2.
Proof.
  unfold renamed_set. revert s1 s2.
  induction roots as [|file roots IH]; intros s1 s2 H; simpl; [done|].
  apply IH. intros x. rewrite !elem_of_add, !elem_of_delete. intuition auto.
Qed.


(** The roots and the referenced files of a resolution without a missing file
    are in the directory. *)
Lemma complete_in_directory roots w r :
  snd (resolution roots w) = Returned r → missingFiles r = [] →
  (∀ n, n ∈ roots → is_Some (files w !! n))
  ∧ (∀ x, x ∈ JSSet.from (referencedFiles r) → x ∈ snapshot (files w)).
Proof.
  intros Hr Hm. destruct (resolution_returned _ _ _ Hr) as [Hmiss Href _ _ _].
  assert (∀ k x, x ∈ frontier (files w) (snapshot (files w)) k roots →
                 x ∈ snapshot (files w)) as Hin.
  { intros k x Hx. destruct (decide (x ∈ snapshot (files w))) as [|Hnot]; [done|].
    assert (x ∈ missingFiles r) as Hx' by (apply Hmiss; eauto).
    rewrite Hm in Hx'. by apply elem_of_nil in Hx'. }
  split.
  - intros n Hn. apply elem_of_snapshot. by apply (Hin 0).
  - intros x. rewrite elem_of_from, Href. intros (k & Hk). by apply (Hin k).
Qed.

(** * Batches under a schedule *)

(** ** The calls in flight *)

Lemma fair_in_order : fair in_order.
Proof. intros w n. by split. Qed.

Lemma fair_last_first : fair last_first.
Proof. intros w n. simpl. split; by rewrite <- Permutation_rev. Qed.

Lemma fair_second_last : fair second_last.
Proof.
  intros w n. unfold second_last. simpl. split; [|done].
  destruct (Nat.eqb_spec n 3) as [->|]; [|done]. simpl. apply perm_skip, perm_swap.
Qed.

Lemma elem_of_in_flight {T} (l : list T) (order : list nat) i x :
  (i, x) ∈ in_flight l order ↔ i ∈ order ∧ l !! i = Some x.
Proof.
  unfold in_flight. rewrite list_elem_of_omap. split.
  - intros (j & Hj & Hx). destruct (l !! j) as [y|] eqn:E; [|done].
    simpl in Hx. injection Hx as -> ->. done.
  - intros [Hi Hx]. exists i. by rewrite Hx.
Qed.

Lemma in_flight_fmap {T U} (f : T → U) (l : list T) (order : list nat) :
  in_flight (map f l) order = prod_map id f <$> in_flight l order.
Proof.
  unfold in_flight. induction order as [|i order IH]; [done|].
  cbn [omap list_omap]. change (map f l) with (f <$> l) in *.
  rewrite list_lookup_fmap, IH. by destruct (l !! i).
Qed.

Lemma in_flight_seq {T} (pre l : list T) :
  in_flight (pre ++ l) (seq (length pre) (length l))
  = zip (seq (length pre) (length l)) l.
Proof.
  revert pre. induction l as [|x l IH]; intros pre; [done|].
  cbn [length seq zip zip_with]. unfold in_flight in *. cbn [omap list_omap].
  rewrite list_lookup_middle by done. simpl. f_equal.
  specialize (IH (pre ++ [x])). rewrite <- app_assoc, length_app in IH. simpl in IH.
  by rewrite Nat.add_1_r in IH.
Qed.

Lemma in_flight_Permutation {T} (l : list T) (order : list nat) :
  order ≡ₚ seq 0 (length l) →
  (in_flight l order).*1 ≡ₚ seq 0 (length l) ∧ (in_flight l order).*2 ≡ₚ l.
Proof.
  intros H. unfold in_flight. rewrite H.
  pose proof (in_flight_seq [] l) as E. simpl in E. unfold in_flight in E. rewrite E.
  by rewrite fst_zip, snd_zip by (rewrite length_seq; lia).
Qed.

Lemma NoDup_in_flight {T} (l : list T) (order : list nat) :
  order ≡ₚ seq 0 (length l) → NoDup (in_flight l order).*1.
Proof.
  intros [H _]%in_flight_Permutation. rewrite H. apply NoDup_seq.
Qed.

(** ** The promise of a batch *)

Lemma first_failure_None {A B} (outcomes : gmap nat (outcome A)) (order : list nat) :
  first_failure (B := B) outcomes order = None
  ↔ ∀ i, i ∈ order → outcomes !! i = None ∨ ∃ a, outcomes !! i = Some (Returned a).
Proof.
  induction order as [|i order IH]; simpl.
  - split; [|done]. intros _ i Hi. by apply elem_of_nil in Hi.
  - destruct (outcomes !! i) as [[a|e|]|] eqn:E.
    + rewrite IH. split.
      * intros H j [->|Hj]%elem_of_cons; [right; eauto|by apply H].
      * intros H j Hj. apply H. by right.
    + split; [done|]. intros H. destruct (H i) as [H'|[a H']]; [by left|..];
        rewrite E in H'; discriminate H'.
    + split; [done|]. intros H. destruct (H i) as [H'|[a H']]; [by left|..];
        rewrite E in H'; discriminate H'.
    + rewrite IH. split.
      * intros H j [->|Hj]%elem_of_cons; [by left|by apply H].
      * intros H j Hj. apply H. by right.
Qed.

Lemma first_failure_Some {A B} (outcomes : gmap nat (outcome A)) (order : list nat)
    (o : outcome B) :
  first_failure outcomes order = Some o →
  ∃ i, i ∈ order
       ∧ ((∃ e, outcomes !! i = Some (Thrown e) ∧ o = Thrown e)
          ∨ (outcomes !! i = Some OutOfFuel ∧ o = OutOfFuel)).
Proof.
  induction order as [|i order IH]; simpl; [done|].
  destruct (outcomes !! i) as [[a|e|]|] eqn:E.
  - intros (j & Hj & H)%IH. exists j. split; [by right|done].
  - intros [= <-]. exists i. split; [by left|]. left. eauto.
  - intros [= <-]. exists i. split; [by left|]. by right.
  - intros (j & Hj & H)%IH. exists j. split; [by right|done].
Qed.

Lemma values_in_order {A} (outcomes : gmap nat (outcome A)) (vs : list A) :
  (∀ i a, vs !! i = Some a → outcomes !! i = Some (Returned a)) →
  omap (λ i, match outcomes !! i with
             | Some (Returned a) => Some a
             | _ => None
             end) (seq 0 (length vs)) = vs.
Proof.
  induction vs as [|a vs IH] using rev_ind; intros H; [done|].
  rewrite length_app. simpl. rewrite Nat.add_1_r, seq_S, omap_app. simpl.
  rewrite (H (length vs) a) by (by rewrite list_lookup_middle).
  simpl. f_equal. apply IH. intros i b Hb. apply H.
  rewrite lookup_app_l; [done|]. by apply lookup_lt_Some in Hb.
Qed.

(** A batch all of whose calls return is fulfilled with their values. *)
Lemma settle_Returned {A} (outcomes : list (nat * outcome A)) (order : list nat)
    (vs : list A) :
  NoDup outcomes.*1 →
  (∀ i o, (i, o) ∈ outcomes ↔ ∃ a, vs !! i = Some a ∧ o = Returned a) →
  settle outcomes order (length vs) = Returned vs.
Proof.
  intros Hnd H. unfold settle.
  assert (first_failure (B := list A) (list_to_map outcomes) order = None) as ->.
  { apply first_failure_None. intros i _.
    destruct (list_to_map (M := gmap nat (outcome A)) outcomes !! i) as [o|] eqn:E;
      [right|by left].
    apply elem_of_list_to_map in E; [|done]. apply H in E as (a & _ & ->). eauto. }
  f_equal. apply values_in_order. intros i a Ha.
  apply elem_of_list_to_map; [done|]. apply H. eauto.
Qed.

(** A batch one of whose calls fails is rejected with the error of one of
    the calls that fail. *)
Lemma settle_failure {A} (outcomes : list (nat * outcome A)) (order : list nat) n i o :
  NoDup outcomes.*1 → (i, o) ∈ outcomes → i ∈ order →
  (∀ a, o ≠ Returned a) →
  ∃ j o', (j, o') ∈ outcomes ∧ settle outcomes order n = 
            match o' with Thrown e => Thrown e | _ => OutOfFuel end
          ∧ ∀ a, o' ≠ Returned a.
Proof.
  intros Hnd Hi Hin Hfail. unfold settle.
  destruct (first_failure (B := list A) (list_to_map outcomes) order) as [f|] eqn:E.
  - apply first_failure_Some in E as (j & Hj & [(e & He & ->)|[He ->]]).
    + exists j, (Thrown e). split; [by apply elem_of_list_to_map in He|]. done.
    + exists j, OutOfFuel. split; [by apply elem_of_list_to_map in He|]. done.
  - exfalso. rewrite first_failure_None in E.
    apply elem_of_list_to_map in Hi; [|done].
    destruct (E i Hin) as [H|[a H]]; rewrite Hi in H; [done|].
    injection H as ->. by eapply Hfail.
Qed.

(** ** A batch of reads *)

Lemma fst_prod_map {T U} (f : T → U) (l : list (nat * T)) :
  (prod_map id f <$> l).*1 = l.*1.
Proof. induction l as [|[i x] l IH]; [done|]. cbn. f_equal. exact IH. Qed.

Lemma snd_prod_map {T U} (f : T → U) (l : list (nat * T)) :
  (prod_map id f <$> l).*2 = f <$> l.*2.
Proof. induction l as [|[i x] l IH]; [done|]. cbn. f_equal. exact IH. Qed.

Lemma elem_of_prod_map {T U} (f : T → U) (l : list (nat * T)) i y :
  (i, y) ∈ prod_map id f <$> l ↔ ∃ x, (i, x) ∈ l ∧ y = f x.
Proof.
  rewrite list_elem_of_fmap. split.
  - intros ([j x] & [= -> ->] & H). eauto.
  - intros (x & H & ->). by exists (i, x).
Qed.

Lemma take_effect_reads (chunk : list (nat * string)) w :
  take_effect (prod_map id readFileWithRefs <$> chunk) w
  = (after_reads w chunk.*2, prod_map id (parsed (files w)) <$> chunk).
Proof.
  revert w. induction chunk as [|[i name] chunk IH]; intros w.
  - simpl. by rewrite after_reads_nil.
  - cbn [fmap list_fmap prod_map take_effect fst snd id].
    rewrite readFileWithRefs_eq, IH, after_reads_app. done.
Qed.

Lemma parsed_Thrown d name e : parsed d name = Thrown e → e ≠ tooDeep.
Proof. unfold parsed. destruct (d !! name) as [[]|]; intros [= <-]; done. Qed.

(** Under any schedule the reads of a chunk are all issued and change no
    file; the batch gives the contents of the chunk, in the order of the
    chunk, when every file parses, and the error of one of its files
    otherwise. *)
Lemma Promise_all_under_reads σ chunk w :
  fair σ →
  ∃ chunk' o,
    Promise_all_under σ (map readFileWithRefs chunk) w = (after_reads w chunk', o)
    ∧ chunk' ≡ₚ chunk
    ∧ match all_of (map (parsed (files w)) chunk) with
      | Returned vs => o = Returned vs
      | Thrown _ =>
          ∃ name e, name ∈ chunk ∧ parsed (files w) name = Thrown e ∧ o = Thrown e
      | OutOfFuel => False
      end.
Proof.
  intros Hfair. unfold Promise_all_under. rewrite length_map.
  destruct (Hfair w (length chunk)) as [He Hs].
  set (s := σ w (length chunk)) in *.
  rewrite in_flight_fmap, take_effect_reads.
  pose proof (in_flight_Permutation chunk (effect_order s) He) as [_ Hperm].
  pose proof (NoDup_in_flight chunk (effect_order s) He) as Hnd.
  assert (∀ i, i ∈ effect_order s ↔ i < length chunk) as Hin.
  { intros i. rewrite He, elem_of_seq. lia. }
  assert (∀ i, i ∈ settle_order s ↔ i < length chunk) as Hin'.
  { intros i. rewrite Hs, elem_of_seq. lia. }
  set (ichunk := in_flight chunk (effect_order s)) in *.
  assert (∀ i o, (i, o) ∈ prod_map id (parsed (files w)) <$> ichunk
                 ↔ ∃ name, chunk !! i = Some name ∧ o = parsed (files w) name) as Hout.
  { intros i o. rewrite elem_of_prod_map. unfold ichunk.
    setoid_rewrite elem_of_in_flight. setoid_rewrite Hin. split.
    - intros (name & [_ Hname] & ->). eauto.
    - intros (name & Hname & ->). exists name. split; [|done]. split; [|done].
      by apply lookup_lt_Some in Hname. }
  eexists _, _. split; [done|]. split; [done|].
  destruct (all_of (map (parsed (files w)) chunk)) as [vs|e|] eqn:E.
  - apply all_of_Returned in E.
    assert (length vs = length chunk) as <-.
    { apply (f_equal length) in E. by rewrite !length_map in E. }
    apply settle_Returned; [by rewrite fst_prod_map|].
    intros i o. rewrite Hout.
    assert (parsed (files w) <$> chunk !! i = Returned <$> vs !! i) as Ei.
    { rewrite <- !list_lookup_fmap. by f_equal. }
    split.
    + intros (name & Hname & ->). rewrite Hname in Ei. simpl in Ei.
      destruct (vs !! i) as [a|]; [|done]. injection Ei as Ei. eauto.
    + intros (a & Ha & ->). rewrite Ha in Ei. simpl in Ei.
      destruct (chunk !! i) as [name|]; [|done]. injection Ei as Ei. eauto.
  - apply all_of_Thrown, list_elem_of_fmap in E as (name & Hname & Hc).
    apply list_elem_of_lookup in Hc as (i & Hi).
    destruct (settle_failure (prod_map id (parsed (files w)) <$> ichunk)
                (settle_order s) (length chunk) i (Thrown e))
      as (j & o' & Hj & -> & Hfail).
    + by rewrite fst_prod_map.
    + apply Hout. eauto.
    + apply Hin'. by apply lookup_lt_Some in Hi.
    + done.
    + apply Hout in Hj as (name' & Hname' & ->).
      destruct (parsed (files w) name') as [a|e'|] eqn:E'.
      * by destruct (Hfail a).
      * exists name', e'. split; [by eapply list_elem_of_lookup_2|done].
      * by apply parsed_not_OutOfFuel in E'.
  - apply all_of_OutOfFuel, list_elem_of_fmap in E as (name & Hname & _).
    symmetry in Hname. by apply parsed_not_OutOfFuel in Hname.
Qed.

(** ** A batch of renames or deletions *)

Lemma in_flight_performs ps cs (order : list nat) :
  Forall2 performs ps cs →
  Forall2 (λ ip ic, ip.1 = ic.1 ∧ performs ip.2 ic.2)
    (in_flight ps order) (in_flight cs order).
Proof.
  intros H. unfold in_flight. induction order as [|i order IH]; [constructor|].
  cbn [omap list_omap].
  destruct (proj1 (Forall2_lookup _ _ _) H i) as [p c Hpc|]; simpl; [|done].
  by constructor.
Qed.

Lemma take_effect_performs (ips : list (nat * async unit)) (ics : list (nat * call)) w :
  Forall2 (λ ip ic, ip.1 = ic.1 ∧ performs ip.2 ic.2) ips ics →
  ∃ outcomes,
    take_effect ips w
    = ({| files := effects ics.*2 (files w); calls := calls w ++ ics.*2 |}, outcomes)
    ∧ outcomes.*1 = ics.*1
    ∧ outcomes.*2 = results ics.*2 (files w).
Proof.
  intros H. revert w. induction H as [|[i p] [j c] ips ics [Hi Hp] _ IH]; intros w.
  - exists []. simpl. rewrite app_nil_r. by destruct w.
  - simpl in Hi, Hp. subst j. cbn [take_effect]. rewrite (Hp w).
    destruct (IH {| files := effect c (files w); calls := calls w ++ [c] |})
      as (outcomes & -> & H1 & H2).
    eexists. split; [|split].
    + cbn [fmap list_fmap snd effects files calls]. by rewrite <- app_assoc.
    + cbn. by rewrite H1.
    + cbn. cbn in H2. by rewrite H2.
Qed.

Lemma results_not_OutOfFuel_elem cs d : OutOfFuel ∉ results cs d.
Proof.
  revert d. induction cs as [|c cs IH]; intros d; simpl.
  - apply not_elem_of_nil.
  - intros [H|H]%elem_of_cons; [|by eapply IH].
    symmetry in H. by apply result_not_OutOfFuel in H.
Qed.

Lemma all_of_Returned_iff {A} (l : list (outcome A)) :
  (∃ vs, all_of l = Returned vs) ↔ ∀ o, o ∈ l → ∃ a, o = Returned a.
Proof.
  split.
  - intros [vs ->%all_of_Returned] o (a & -> & _)%list_elem_of_fmap. eauto.
  - induction l as [|o l IH]; intros H; simpl; [eauto|].
    destruct (H o) as [a ->]; [by left|].
    destruct IH as [vs ->]; [|eauto]. intros o' Ho'. apply H. by right.
Qed.

(** Under any schedule the calls of a batch of renames or deletions all take
    effect, in some order, and the batch ends as the calls in that order
    do. *)
Lemma Promise_all_under_performs σ ps cs w :
  fair σ → Forall2 performs ps cs →
  ∃ cs' o,
    Promise_all_under σ ps w
    = ({| files := effects cs' (files w); calls := calls w ++ cs' |}, o)
    ∧ cs' ≡ₚ cs
    ∧ batch_ending cs' (files w) (unit_of o).
Proof.
  intros Hfair H. unfold Promise_all_under.
  pose proof (Forall2_length _ _ _ H) as Hlen.
  destruct (Hfair w (length ps)) as [He Hs].
  set (s := σ w (length ps)) in *.
  destruct (take_effect_performs _ _ w (in_flight_performs ps cs (effect_order s) H))
    as (outcomes & -> & H1 & H2).
  rewrite Hlen in He.
  pose proof (in_flight_Permutation cs (effect_order s) He) as [Hidx Hperm].
  pose proof (NoDup_in_flight cs (effect_order s) He) as Hnd.
  rewrite <- H1 in Hnd, Hidx.
  set (cs' := (in_flight cs (effect_order s)).*2) in *.
  eexists cs', _. split; [done|]. split; [done|].
  unfold settle, batch_ending.
  destruct (first_failure (B := list unit) (list_to_map outcomes) (settle_order s))
    as [f|] eqn:E.
  - right. apply first_failure_Some in E as (j & Hj & [(e & He' & ->)|[He' ->]]).
    + exists e. split; [|done]. rewrite <- H2.
      apply elem_of_list_to_map in He'; [|done].
      apply list_elem_of_fmap. by exists (j, Thrown e).
    + exfalso. apply (results_not_OutOfFuel_elem cs' (files w)). rewrite <- H2.
      apply elem_of_list_to_map in He'; [|done].
      apply list_elem_of_fmap. by exists (j, OutOfFuel).
  - left. split; [|done]. apply all_of_Returned_iff. intros o Ho.
    rewrite <- H2 in Ho. apply list_elem_of_fmap in Ho as ([i o'] & -> & Hio).
    simpl. rewrite first_failure_None in E.
    assert (i ∈ settle_order s) as Hi.
    { rewrite Hs, Hlen, <- Hidx. apply list_elem_of_fmap. by exists (i, o'). }
    apply elem_of_list_to_map in Hio; [|done].
    destruct (E i Hi) as [E'|[a E']]; rewrite Hio in E'; [done|].
    injection E' as ->. eauto.
Qed.

(** ** Resolution under a schedule *)

(** The loop over the chunks reads the same chunks under any schedule and
    ends alike. *)
Lemma readChunks_under_alike σ chunks acc w ws :
  fair σ → files ws = files w →
  ∃ read read' o o',
    readChunks chunks acc w = (after_reads w read, o)
    ∧ readChunks_under σ chunks acc ws = (after_reads ws read', o')
    ∧ read' ≡ₚ read
    ∧ match o, o' with
      | Returned s, Returned s' => s = s'
      | Thrown e, Thrown e' => e ≠ tooDeep ∧ e' ≠ tooDeep
      | _, _ => False
      end.
Proof.
  intros Hfair. revert acc w ws.
  induction chunks as [|chunk chunks IH]; intros acc w ws Hfiles.
  - exists [], [], (Returned acc), (Returned acc). simpl. unfold ret.
    by rewrite !after_reads_nil.
  - cbn [readChunks readChunks_under]. unfold bind.
    rewrite Promise_all_reads.
    destruct (Promise_all_under_reads σ chunk ws Hfair) as (chunk' & o1 & -> & Hperm & Ho1).
    rewrite Hfiles in Ho1.
    destruct (all_of (map (parsed (files w)) chunk)) as [vs|e|] eqn:E; [| |done].
    + subst o1.
      destruct (IH (addReferenced acc vs) (after_reads w chunk) (after_reads ws chunk'))
        as (read & read' & o & o' & -> & -> & Hp & Ho); [done|].
      exists (chunk ++ read), (chunk' ++ read'), o, o'.
      rewrite !after_reads_app. split; [done|]. split; [done|].
      split; [by apply Permutation_app|done].
    + destruct Ho1 as (name & e' & _ & He' & ->).
      exists chunk, chunk', (Thrown e), (Thrown e').
      split; [done|]. split; [done|]. split; [done|]. split.
      * apply all_of_Thrown, list_elem_of_fmap in E as (name0 & Hname0 & _).
        symmetry in Hname0. by eapply parsed_Thrown.
      * by eapply parsed_Thrown.
Qed.

Lemma getMissingFilesRecursive_under_S σ fuel e names level w :
  getMissingFilesRecursive_under σ (S fuel) e names level w =
  if 10 <? level then (w, Thrown tooDeep) else
  match readChunks_under σ (chunkArrayInGroups (fileNamesWithRefs e names) 50) [] w with
  | (w1, Returned s) =>
      match (if 0 <? JSSet.size s
             then getMissingFilesRecursive_under σ fuel e s (level + 1)
             else ret noChildFiles) w1 with
      | (w2, Returned child) =>
          (w2, Returned {| missingFiles := missingFiles child ++ fileNamesThatAreMissing e names;
                           referencedFiles := referencedFiles child ++ names |})
      | (w2, Thrown err) => (w2, Thrown err)
      | (w2, OutOfFuel) => (w2, OutOfFuel)
      end
  | (w1, Thrown err) => (w1, Thrown err)
  | (w1, OutOfFuel) => (w1, OutOfFuel)
  end.
Proof.
  cbn [getMissingFilesRecursive_under]. destruct (10 <? level); [done|].
  unfold bind at 1. destruct (readChunks_under _ _ _ w) as [w1 [s|err|]]; [|done..].
  unfold bind at 1. destruct (0 <? JSSet.size s).
  - by destruct (getMissingFilesRecursive_under σ fuel e s (level + 1) w1)
      as [w2 [child|err|]].
  - done.
Qed.

(** The resolver reads the same files under any schedule, each chunk in some
    order, and ends alike: with the same lists when it returns. *)
Lemma resolver_under_alike σ fuel e names level w ws :
  fair σ → files ws = files w →
  ∃ read read' o o',
    getMissingFilesRecursive fuel e names level w = (after_reads w read, o)
    ∧ getMissingFilesRecursive_under σ fuel e names level ws = (after_reads ws read', o')
    ∧ read' ≡ₚ read
    ∧ alike o o'.
Proof.
  intros Hfair. revert names level w ws.
  induction fuel as [|fuel IH]; intros names level w ws Hfiles.
  - exists [], [], OutOfFuel, OutOfFuel. simpl. by rewrite !after_reads_nil.
  - rewrite getMissingFilesRecursive_S, getMissingFilesRecursive_under_S.
    destruct (10 <? level).
    { exists [], [], (Thrown tooDeep), (Thrown tooDeep). by rewrite !after_reads_nil. }
    destruct (readChunks_under_alike σ
                (chunkArrayInGroups (fileNamesWithRefs e names) 50) [] w ws Hfair Hfiles)
      as (read & read' & o & o' & -> & -> & Hp & Ho).
    destruct o as [s|err|], o' as [s'|err'|]; try done.
    + subst s'. destruct (0 <? JSSet.size s).
      * destruct (IH s (level + 1) (after_reads w read) (after_reads ws read'))
          as (r1 & r1' & o & o' & -> & -> & Hp1 & Ho); [done|].
        rewrite !after_reads_app.
        destruct o as [child|err|], o' as [child'|err'|]; try done; simpl in Ho.
        -- subst child'. eexists _, _, _, _. split; [done|]. split; [done|].
           split; [by apply Permutation_app|done].
        -- eexists _, _, _, _. split; [done|]. split; [done|].
           split; [by apply Permutation_app|done].
        -- eexists _, _, _, _. split; [done|]. split; [done|].
           split; [by apply Permutation_app|done].
      * eexists _, _, _, _. split; [done|]. split; [done|]. split; [done|]. done.
    + eexists _, _, _, _. split; [done|]. split; [done|]. split; [done|].
      simpl. destruct Ho. split; intros; done.
Qed.

(** ** The handling of the save parameter under a schedule *)

Lemma handleSaveParam_under_verify σ names p suffix e r :
  p ≠ "ifcomplete" → p ≠ "no" → handleSaveParam_under σ names p suffix e r = ret tt.
Proof.
  intros H1%String.eqb_neq H2%String.eqb_neq. unfold handleSaveParam_under.
  by rewrite H1, H2.
Qed.

Lemma unit_of_ending cs d (o : outcome (list unit)) :
  batch_ending cs d (unit_of o) →
  batch_ending cs d
    match o with
    | Returned _ => Returned tt
    | Thrown err => Thrown err
    | OutOfFuel => OutOfFuel
    end.
Proof. by destruct o. Qed.

(** The rollback under a schedule: the deletions of the roots take effect in
    some order. *)
Lemma handleSaveParam_under_rollback σ names p suffix e r w :
  fair σ → p = "no" ∨ (p = "ifcomplete" ∧ missingFiles r ≠ []) →
  ∃ names' o,
    handleSaveParam_under σ names p suffix e r w
    = ({| files := effects (map Unlink names') (files w);
          calls := calls w ++ map Unlink names' |}, o)
    ∧ names' ≡ₚ names
    ∧ batch_ending (map Unlink names') (files w) o.
Proof.
  intros Hfair H. unfold handleSaveParam_under.
  assert (String.eqb p "ifcomplete" || String.eqb p "no" = true) as ->.
  { destruct H as [->|[-> _]]; reflexivity. }
  assert (String.eqb p "ifcomplete" && (length (missingFiles r) =? 0) = false) as ->.
  { destruct H as [->|[-> H]]; [reflexivity|]. by destruct (missingFiles r). }
  unfold bind.
  destruct (Promise_all_under_performs σ _ _ w Hfair (unlinks_perform names))
    as (cs' & o & -> & Hperm & Hend).
  apply Permutation_map_inv in Hperm as (names' & -> & Hperm).
  exists names'. eexists. split; [|split; [done|by apply unit_of_ending]].
  by destruct o.
Qed.

(** The commit under a schedule: the renames of the roots take effect in
    some order, and when none of them fails the deletions of the files to
    prune do. *)
Lemma handleSaveParam_under_commit σ names suffix e r w :
  fair σ → missingFiles r = [] →
  ∃ names',
    names' ≡ₚ names
    ∧ let d1 := effects (renames suffix names') (files w) in
      (∃ err,
         Thrown err ∈ results (renames suffix names') (files w)
         ∧ handleSaveParam_under σ names "ifcomplete" suffix e r w
           = ({| files := d1; calls := calls w ++ renames suffix names' |}, Thrown err))
      ∨ (succeed (renames suffix names') (files w)
         ∧ ∃ prune' o,
             handleSaveParam_under σ names "ifcomplete" suffix e r w
             = ({| files := effects (map Unlink prune') d1;
                   calls := calls w ++ renames suffix names' ++ map Unlink prune' |}, o)
             ∧ prune' ≡ₚ pruneFiles suffix names e r
             ∧ batch_ending (map Unlink prune') d1 o).
Proof.
  intros Hfair Hm. unfold handleSaveParam_under. rewrite Hm.
  cbn [String.eqb orb andb length Nat.eqb]. simpl.
  destruct (rename_all_spec suffix (JSSet.from (referencedFiles r)) e names)
    as (-> & -> & Hp).
  unfold bind.
  destruct (Promise_all_under_performs σ _ _ w Hfair Hp) as (cs' & o & -> & Hperm & Hend).
  apply Permutation_map_inv in Hperm as (names' & -> & Hperm).
  exists names'. split; [done|]. fold (renames suffix names') in *.
  destruct Hend as [[Hs Ho]|(err & Herr & Ho)].
  - right. split; [done|]. destruct o as [us| |]; [|done..].
    destruct (Promise_all_under_performs σ _ _
                {| files := effects (renames suffix names') (files w);
                   calls := calls w ++ renames suffix names' |}
                Hfair (unlinks_perform
                         (difference (renamed_set suffix names e)
                            (renamed_set suffix names (JSSet.from (referencedFiles r))))))
      as (ps' & o & -> & Hperm' & Hend).
    apply Permutation_map_inv in Hperm' as (prune' & -> & Hperm').
    exists prune'. eexists. split; [|split; [done|by apply unit_of_ending]].
    cbn [files calls]. rewrite <- app_assoc. by destruct o.
  - left. exists err. split; [done|]. by destruct o as [us|err'|]; simplify_eq/=.
Qed.

(** ** The entry point under a schedule *)

(** The entry point under a schedule: resolution reads the files that it
    reads in the order of issue, each chunk in some order, and ends alike. *)
Lemma entry_under σ roots policy suffix w :
  fair σ →
  ∃ read read' o o',
    resolution roots w = (after_reads (issue ReadDir w) read, o)
    ∧ read' ≡ₚ read
    ∧ alike o o'
    ∧ getMissingFilesForRootFiles_under σ roots policy suffix w
      = match o' with
        | Returned r =>
            match handleSaveParam_under σ roots policy suffix (snapshot (files w)) r
                    (after_reads (issue ReadDir w) read') with
            | (w2, Returned _) => (w2, Returned (missingFiles r))
            | (w2, Thrown err) => (w2, Thrown err)
            | (w2, OutOfFuel) => (w2, OutOfFuel)
            end
        | Thrown err => (after_reads (issue ReadDir w) read', Thrown err)
        | OutOfFuel => (after_reads (issue ReadDir w) read', OutOfFuel)
        end.
Proof.
  intros Hfair. rewrite resolution_eq.
  destruct (resolver_under_alike σ 12 (snapshot (files w)) roots 0
              (issue ReadDir w) (issue ReadDir w) Hfair eq_refl)
    as (read & read' & o & o' & Hseq & Hsched & Hperm & Ho).
  exists read, read', o, o'. split; [done|]. split; [done|]. split; [done|].
  unfold getMissingFilesForRootFiles_under, bind.
  rewrite getExistingFiles_eq. fold (snapshot (files w)). rewrite Hsched.
  destruct o' as [r|err|]; [|done..].
  by destruct (handleSaveParam_under _ _ _ _ _ r _) as [w2 [[]|err|]].
Qed.

(** ** The commit, whatever the order of its calls *)

Lemma succeed_no_failure cs d e : succeed cs d → Thrown e ∉ results cs d.
Proof.
  unfold succeed. intros Hs He.
  destruct (proj1 (all_of_Returned_iff (results cs d)) Hs _ He) as [a Ha]. done.
Qed.

Lemma batch_ending_Returned cs d o :
  batch_ending cs d o → (o = Returned tt ↔ succeed cs d) ∧ o ≠ OutOfFuel.
Proof.
  intros [[Hs ->]|(e & He & ->)]; (split; [|done]).
  - done.
  - split; [done|]. intros Hs. by apply succeed_no_failure in He.
Qed.

Lemma sequential_ending cs d :
  batch_ending cs d (unit_of (all_of (results cs d))).
Proof.
  destruct (all_of (results cs d)) as [us|e|] eqn:E.
  - left. split; [by exists us|done].
  - right. exists e. split; [by apply all_of_Thrown|done].
  - by apply results_not_OutOfFuel in E.
Qed.

(** A name that is in one set and not in the other after the roots are
    renamed in both was in the one and not in the other before, and is
    neither a root nor the new name of a root. *)
Lemma renamed_set_difference suffix (roots : list string) (s1 s2 : JSSet.t) x :
  x ∈ renamed_set suffix roots s1 → x ∉ renamed_set suffix roots s2 →
  x ∈ s1 ∧ (x ∉ s2) ∧ (x ∉ roots) ∧ (x ∉ map (λ file, newName file suffix) roots).
Proof.
  unfold renamed_set. revert s1 s2.
  induction roots as [|file roots IH]; intros s1 s2 H1 H2; simpl in *.
  - split; [done|]. split; [done|]. split; apply not_elem_of_nil.
  - destruct (IH _ _ H1 H2) as (Hx1 & Hx2 & Hr & Hn).
    rewrite elem_of_add, elem_of_delete in Hx1, Hx2.
    rewrite !not_elem_of_cons. intuition congruence.
Qed.

(** The renames of distinct roots that are in the directory do not fail in
    any order, nor do the deletions of the files to prune after them. *)
Lemma commit_succeeds suffix (roots roots' prune' : list string) (e s : JSSet.t)
    (d : gmap string content) :
  NoDup roots → roots' ≡ₚ roots → NoDup e →
  (∀ n, n ∈ roots → is_Some (d !! n)) →
  (∀ x, x ∈ e ↔ is_Some (d !! x)) →
  prune' ≡ₚ difference (renamed_set suffix roots e) (renamed_set suffix roots s) →
  succeed (renames suffix roots') d
  ∧ succeed (map Unlink prune') (effects (renames suffix roots') d)
  ∧ ∀ x, is_Some (effects (map Unlink prune') (effects (renames suffix roots') d) !! x)
         ↔ x ∈ renamed_set suffix roots' e ∧ x ∉ prune'.
Proof.
  intros Hnd Hperm He Hroots Hdir Hprune.
  destruct (renames_succeed suffix roots' d e) as [Hs Hmirror].
  { by rewrite Hperm. }
  { intros n Hn. apply Hroots. by rewrite <- Hperm. }
  { done. }
  split; [done|].
  assert (∀ n, n ∈ prune' → effects (renames suffix roots') d !! n = d !! n ∧ n ∈ e)
    as Hkept.
  { intros n Hn. rewrite Hprune in Hn. apply elem_of_difference in Hn as [Hn1 Hn2].
    destruct (renamed_set_difference _ _ _ _ _ Hn1 Hn2) as (Hne & _ & Hr & Hnew).
    split; [|done]. apply renames_frame; by rewrite Hperm. }
  split.
  - apply unlinks_succeed_iff. split.
    + rewrite Hprune. by apply NoDup_difference, NoDup_renamed_set.
    + intros n Hn. destruct (Hkept n Hn) as [-> Hne]. by apply Hdir.
  - intros x. destruct (decide (x ∈ prune')) as [Hx|Hx].
    + rewrite effects_unlinks_None by done. split; [by intros [? ?]|by intros [_ ?]].
    + rewrite effects_unlinks_frame by done. rewrite <- Hmirror. tauto.
Qed.

(** ** A run under a schedule, and the run in the order of issue *)

(** With pairwise distinct roots, or a policy that does not commit, a run
    under any schedule returns exactly when the run in the order of issue
    does, the same list, and issues the same calls, each as often. *)
Lemma entry_under_ending σ roots policy suffix w :
  fair σ → NoDup roots ∨ policy ≠ "ifcomplete" →
  let run := getMissingFilesForRootFiles roots policy suffix w in
  let run' := getMissingFilesForRootFiles_under σ roots policy suffix w in
  (∀ l, snd run' = Returned l ↔ snd run = Returned l)
  ∧ snd run' ≠ OutOfFuel
  ∧ issued w (fst run') ≡ₚ issued w (fst run).
Proof.
  intros Hfair Hcond run run'. subst run run'.
  destruct (entry_under σ roots policy suffix w Hfair)
    as (read & read' & o & o' & Hres & Hperm & Halike & ->).
  assert (∀ l l' : list call,
            l' ≡ₚ l →
            calls (after_reads (issue ReadDir w) read') ++ l'
            ≡ₚ calls (after_reads (issue ReadDir w) read) ++ l) as Hlog.
  { intros l l' Hl. simpl. by rewrite Hperm, Hl. }
  assert (∀ (w1 w2 : world) l l',
            calls w1 = calls (after_reads (issue ReadDir w) read') ++ l' →
            calls w2 = calls (after_reads (issue ReadDir w) read) ++ l →
            l' ≡ₚ l → issued w w1 ≡ₚ issued w w2) as Hissued.
  { intros w1 w2 l l' H1 H2 Hl.
    rewrite (issued_app w w1 (ReadDir :: map ReadFile read' ++ l')),
      (issued_app w w2 (ReadDir :: map ReadFile read ++ l)).
    - by rewrite Hperm, Hl.
    - rewrite H2. simpl. by rewrite <- !app_assoc.
    - rewrite H1. simpl. by rewrite <- !app_assoc. }
  destruct o as [r|err|], o' as [r'|err'|]; try done; simpl in Halike.
  - subst r'.
    assert (snd (resolution roots w) = Returned r) as Hr by (by rewrite Hres).
    assert (fst (resolution roots w) = after_reads (issue ReadDir w) read) as Hw1
      by (by rewrite Hres).
    destruct (decide (policy = "ifcomplete" ∧ missingFiles r = [])) as [[-> Hm]|Hnc].
    + (* the commit *)
      destruct Hcond as [Hnd|]; [|done].
      destruct (complete_in_directory _ _ _ Hr Hm) as [Hroots Href].
      rewrite (entry_commit _ _ _ _ Hr Hm). cbn zeta. rewrite Hw1.
      destruct (commit_succeeds suffix roots roots
                  (pruneFiles suffix roots (snapshot (files w)) r)
                  (snapshot (files w)) (JSSet.from (referencedFiles r)) (files w))
        as ([us Hus] & [us' Hus'] & _);
        [done|done|apply NoDup_from|done|intros x; apply elem_of_snapshot|done|].
      rewrite Hus, Hus'.
      destruct (handleSaveParam_under_commit σ roots suffix (snapshot (files w)) r
                  (after_reads (issue ReadDir w) read') Hfair Hm)
        as (roots' & Hroots' & [(err & Herr & ->)|(Hs & prune' & o & -> & Hprune' & Hend)]).
      * exfalso. cbn [files after_reads issue] in Herr.
        destruct (commit_succeeds suffix roots roots'
                    (pruneFiles suffix roots (snapshot (files w)) r)
                    (snapshot (files w)) (JSSet.from (referencedFiles r)) (files w))
          as (Hs & _);
          [done|done|apply NoDup_from|done|intros x; apply elem_of_snapshot|done|].
        by apply succeed_no_failure in Herr.
      * cbn [files after_reads issue] in Hend, Hs.
        destruct (commit_succeeds suffix roots roots' prune'
                    (snapshot (files w)) (JSSet.from (referencedFiles r)) (files w))
          as (_ & Hs' & _);
          [done|done|apply NoDup_from|done|intros x; apply elem_of_snapshot|done|].
        apply batch_ending_Returned in Hend as [Hend _].
        apply Hend in Hs'. subst o. cbn [fst snd]. split; [done|]. split; [done|].
        eapply Hissued; [done..|].
        unfold renames. by rewrite Hroots', Hprune'.
    + destruct (decide (policy = "ifcomplete" ∨ policy = "no")) as [Hp|Hp].
      * (* the rollback *)
        assert (policy = "no" ∨ (policy = "ifcomplete" ∧ missingFiles r ≠ [])) as Hrb.
        { destruct Hp as [-> | ->]; [right|by left]. split; [done|]. intros E. by apply Hnc. }
        rewrite (entry_rollback _ _ _ _ _ Hr Hrb). rewrite Hw1.
        destruct (handleSaveParam_under_rollback σ roots policy suffix (snapshot (files w))
                    r (after_reads (issue ReadDir w) read') Hfair Hrb)
          as (roots' & o & -> & Hroots' & Hend).
        cbn [files after_reads issue] in Hend.
        apply batch_ending_Returned in Hend as [Hend Hfuel].
        pose proof (sequential_ending (map Unlink roots) (files w)) as Hseq.
        apply batch_ending_Returned in Hseq as [Hseq _].
        assert (succeed (map Unlink roots') (files w)
                ↔ succeed (map Unlink roots) (files w)) as Hsame.
        { rewrite !unlinks_succeed_iff. by setoid_rewrite Hroots'. }
        cbn [fst snd]. split; [|split].
        -- intros l. rewrite <- Hsame, <- Hend in Hseq.
           destruct o as [[]|err|], (all_of (results (map Unlink roots) (files w)))
             as [us|err'|]; simpl in Hseq; split; intros [= <-]; try done;
             destruct Hseq as [Hseq1 Hseq2];
             first [by specialize (Hseq1 eq_refl)|by specialize (Hseq2 eq_refl)].
        -- by destruct o as [[]|err|].
        -- destruct o as [[]|err|]; (eapply Hissued; [done..|by rewrite Hroots']).
      * (* the check only *)
        assert (policy ≠ "ifcomplete" ∧ policy ≠ "no") as [H1 H2].
        { split; intros ->; apply Hp; [by left|by right]. }
        rewrite (entry_verify _ _ _ _ H1 H2), Hr, Hw1.
        rewrite handleSaveParam_under_verify by done. unfold ret. cbn [fst snd].
        split; [done|]. split; [done|].
        eapply (Hissued _ _ [] []); by rewrite ?app_nil_r.
  - rewrite (entry_resolution_thrown roots policy suffix w err) by (by rewrite Hres).
    rewrite Hres. cbn [fst snd]. split; [done|]. split; [done|].
    eapply (Hissued _ _ [] []); by rewrite ?app_nil_r.
  - by apply resolution_not_OutOfFuel in Hres.
Qed.

(** ** The order of issue as a schedule *)

Lemma first_failure_ext {A B} (m1 m2 : gmap nat (outcome A)) (order : list nat) :
  (∀ i, i ∈ order → m1 !! i = m2 !! i) →
  first_failure (B := B) m1 order = first_failure m2 order.
Proof.
  induction order as [|i order IH]; intros H; simpl; [done|].
  rewrite (H i) by by left. rewrite IH; [done|]. intros j Hj. apply H. by right.
Qed.

Lemma first_failure_not_Returned {A B} (m : gmap nat (outcome A)) (order : list nat)
    (l : B) :
  first_failure m order ≠ Some (Returned l).
Proof.
  induction order as [|i order IH]; simpl; [done|].
  by destruct (m !! i) as [[a|e|]|].
Qed.

Lemma values_ext {A} (m1 m2 : gmap nat (outcome A)) (order : list nat) :
  (∀ i, i ∈ order → m1 !! i = m2 !! i) →
  omap (λ i, match m1 !! i with Some (Returned a) => Some a | _ => None end) order
  = omap (λ i, match m2 !! i with Some (Returned a) => Some a | _ => None end) order.
Proof.
  induction order as [|i order IH]; intros H; [done|].
  cbn [omap list_omap]. rewrite (H i) by by left.
  assert (∀ j, j ∈ order → m1 !! j = m2 !! j) as H' by (intros j Hj; apply H; by right).
  specialize (IH H'). cbn [omap] in IH. rewrite IH. done.
Qed.

Lemma settle_in_order {A} (rs : list (outcome A)) (k : nat) :
  let outcomes : gmap nat (outcome A) := list_to_map (zip (seq k (length rs)) rs) in
  match first_failure outcomes (seq k (length rs)) with
  | Some failure => failure
  | None =>
      Returned (omap (λ i, match outcomes !! i with
                           | Some (Returned a) => Some a
                           | _ => None
                           end) (seq k (length rs)))
  end = all_of rs.
Proof.
  revert k. induction rs as [|r rs IH]; intros k; [done|].
  cbn [length seq zip zip_with list_to_map foldr first_failure omap list_omap all_of].
  cbn zeta beta. cbn [fst snd]. rewrite lookup_insert_eq.
  destruct r as [a|e|]; [|done..].
  specialize (IH (S k)). cbn zeta in IH.
  assert (∀ i, i ∈ seq (S k) (length rs) →
               (<[k := Returned a]> (list_to_map (zip (seq (S k) (length rs)) rs)
                                      : gmap nat (outcome A))) !! i
               = (list_to_map (zip (seq (S k) (length rs)) rs)
                   : gmap nat (outcome A)) !! i) as Hne.
  { intros i Hi%elem_of_seq. apply lookup_insert_ne. lia. }
  cbn [fst snd]. rewrite (first_failure_ext _ _ _ Hne), (values_ext _ _ _ Hne).
  destruct (first_failure _ (seq (S k) (length rs))) as [f|] eqn:E; rewrite <- IH;
    [|done].
  destruct f as [l| |]; [|done..]. by apply first_failure_not_Returned in E.
Qed.

Lemma take_effect_in_order {A} (promises : list (async A)) (k : nat) w :
  ∃ rs, length rs = length promises
        ∧ take_effect (zip (seq k (length promises)) promises) w
          = (fst (Promise_all promises w), zip (seq k (length promises)) rs)
        ∧ snd (Promise_all promises w) = all_of rs.
Proof.
  revert k w. induction promises as [|p promises IH]; intros k w.
  - by exists [].
  - cbn [length seq zip zip_with take_effect Promise_all].
    destruct (p w) as [w1 r]. destruct (IH (S k) w1) as (rs & Hlen & -> & Hall).
    destruct (Promise_all promises w1) as [w2 o]. simpl in Hall. subst o.
    exists (r :: rs). simpl. rewrite Hlen. done.
Qed.

(** Under the scheduler that takes every batch in the order of issue,
    [Promise.all] is [Promise_all]. *)
Lemma Promise_all_in_order {A} (promises : list (async A)) w :
  Promise_all_under in_order promises w = Promise_all promises w.
Proof.
  unfold Promise_all_under, in_order. cbn [effect_order settle_order].
  pose proof (in_flight_seq [] promises) as E. simpl in E. rewrite E.
  destruct (take_effect_in_order promises 0 w) as (rs & Hlen & -> & Hall).
  unfold settle. rewrite <- Hlen, settle_in_order, <- Hall.
  by destruct (Promise_all promises w).
Qed.

Lemma readChunks_in_order chunks acc w :
  readChunks_under in_order chunks acc w = readChunks chunks acc w.
Proof.
  revert acc w. induction chunks as [|chunk chunks IH]; intros acc w; [done|].
  cbn [readChunks_under readChunks]. unfold bind. rewrite Promise_all_in_order.
  destruct (Promise_all (map readFileWithRefs chunk) w) as [w1 [vs|err|]]; [|done..].
  apply IH.
Qed.

Lemma resolver_in_order fuel e names level w :
  getMissingFilesRecursive_under in_order fuel e names level w
  = getMissingFilesRecursive fuel e names level w.
Proof.
  revert names level w. induction fuel as [|fuel IH]; intros names level w; [done|].
  rewrite getMissingFilesRecursive_under_S, getMissingFilesRecursive_S, readChunks_in_order.
  destruct (10 <? level); [done|].
  destruct (readChunks _ _ w) as [w1 [s|err|]]; [|done..].
  destruct (0 <? JSSet.size s); [|done]. by rewrite IH.
Qed.

(** The run in the order of issue is the run under the scheduler that takes
    every batch in that order. *)
Lemma entry_in_order roots policy suffix w :
  getMissingFilesForRootFiles_under in_order roots policy suffix w
  = getMissingFilesForRootFiles roots policy suffix w.
Proof.
  unfold getMissingFilesForRootFiles_under, getMissingFilesForRootFiles, bind.
  destruct (getExistingFiles w) as [w0 [e|err|]]; [|done..].
  rewrite resolver_in_order.
  destruct (getMissingFilesRecursive 12 e roots 0 w0) as [w1 [r|err|]]; [|done..].
  assert (handleSaveParam_under in_order roots policy suffix e r w1
          = handleSaveParam roots policy suffix e r w1) as ->; [|done].
  unfold handleSaveParam_under, handleSaveParam, bind.
  destruct (_ || _); [|done].
  destruct (_ && _).
  - rewrite Promise_all_in_order.
    destruct (Promise_all _ w1) as [w2 [us|err|]]; [|done..].
    by rewrite Promise_all_in_order.
  - by rewrite Promise_all_in_order.
Qed.

(** * The properties of the specification *)

(** ** C1: the missing files *)

(** C1, as stated, fails on [shared_blob]: no manifest is on a cycle of
    references, [blobX] is absent and is referenced at depth 1 and at depth 2,
    and it is listed twice, in the missing files and in the referenced files. *)
Lemma C1_duplicates_at_two_depths :
  let d := files shared_blob in
  (∀ m, ¬ tc (refers d (snapshot d)) m m)
  ∧ d !! "blobX" = None
  ∧ snd (resolution ["root.json"] shared_blob)
    = Returned {| missingFiles := ["blobX"; "blobX"];
                  referencedFiles := ["blobX"; "a.json"; "blobX"; "root.json"] |}
  ∧ ¬ NoDup ["blobX"; "blobX"]
  ∧ ¬ NoDup ["blobX"; "a.json"; "blobX"; "root.json"].
Proof.
  split; [|split; [by vm_compute|split; [by vm_compute|]]].
  - intros m Hcycle.
    assert (frontier (files shared_blob) (snapshot (files shared_blob)) 3 ["root.json"]
            = []) as Hnil by (vm_compute; reflexivity).
    assert (refers (files shared_blob) (snapshot (files shared_blob))
              "root.json" "a.json") as Hroot.
    { split; [|split].
      - apply elem_of_snapshot. vm_compute. eexists. reflexivity.
      - reflexivity.
      - vm_compute. left. }
    assert (m ∈ snapshot (files shared_blob)) as Hm
      by (inversion Hcycle as [? ? [? _]|? ? ? [? _] _]; subst; assumption).
    assert (snapshot (files shared_blob) = ["a.json"; "root.json"]) as Hs
      by (vm_compute; reflexivity).
    rewrite Hs in Hm.
    apply (cycle_frontier _ _ ["root.json"] m 3) in Hcycle; [exact (Hcycle Hnil)|].
    exists "root.json". split; [apply list_elem_of_singleton; reflexivity|].
    apply elem_of_cons in Hm as [->|Hm]; [apply rtc_once; exact Hroot|].
    apply list_elem_of_singleton in Hm as ->. constructor.
  - split; intros H; repeat (apply NoDup_cons in H as [? H]); set_solver.
Qed.

(** C1, amended.  When resolution returns, the missing files are exactly the
    names reachable from the roots that are absent from the directory, and the
    referenced files are exactly the names reachable from the roots; the
    missing files are listed without a duplicate when no absent name is
    reached at two depths. *)
Theorem C1_missing_files (roots : list string) (w : world) (r : MissingFilesResult) :
  snd (resolution roots w) = Returned r →
  let d := files w in
  let e := snapshot d in
  (∀ x, x ∈ missingFiles r ↔ reachable d e roots x ∧ d !! x = None)
  ∧ (∀ x, x ∈ referencedFiles r ↔ reachable d e roots x)
  ∧ ((∀ x k1 k2, x ∈ frontier d e k1 roots → x ∈ frontier d e k2 roots →
                 d !! x = None → k1 = k2) →
     NoDup (missingFiles r)).
Proof.
  rewrite resolution_eq.
  destruct (getMissingFilesRecursive 12 _ roots 0 _) as [w' o] eqn:E. simpl. intros ->.
  apply resolver_returned in E as [Hm Hr _ _ Hd]. simpl in *.
  assert (∀ x, x ∉ snapshot (files w) ↔ files w !! x = None) as Habsent.
  { intros x. by rewrite elem_of_snapshot, eq_None_not_Some. }
  split_and!.
  - intros x. rewrite Hm, reachable_frontier. split.
    + intros (k & Hk & Hx). split; [by exists k|by apply Habsent].
    + intros [(k & Hk) Hx]. exists k. split; [done|by apply Habsent].
  - intros x. by rewrite Hr, reachable_frontier.
  - intros Hone. apply Hd. intros x k1 k2 H1 H2 Hx. apply (Hone x); [done..|].
    by apply Habsent.
Qed.

(** The missing files of the first scenario. *)
Lemma C1_scenario1 :
  let d := files scenario1 in
  let e := snapshot d in
  (∀ x, x ∈ ["blob1"] ↔ reachable d e ["root.json"] x ∧ d !! x = None)
  ∧ (∀ x, x ∈ ["blob1"; "a.json"; "b.json"; "root.json"] ↔ reachable d e ["root.json"] x)
  ∧ ((∀ x k1 k2, x ∈ frontier d e k1 ["root.json"] → x ∈ frontier d e k2 ["root.json"] →
                 d !! x = None → k1 = k2) →
     NoDup ["blob1"]).
Proof.
  apply (C1_missing_files ["root.json"] scenario1
           {| missingFiles := ["blob1"];
              referencedFiles := ["blob1"; "a.json"; "b.json"; "root.json"] |}).
  vm_compute. reflexivity.
Defined.

(** ** C2: the depth bound *)

Lemma manifests_parseb_spec d e roots :
  manifests_parseb d e roots = true → manifests_parse e d roots 0.
Proof.
  unfold manifests_parseb. rewrite forallb_forall. intros H k n Hk Hn He Hj.
  specialize (H k). rewrite in_seq, forallb_forall in H.
  specialize (H ltac:(lia) n). rewrite <- list_elem_of_In in H. specialize (H Hn).
  unfold parses in H. apply has_true in He. rewrite He, Hj in H. simpl in H.
  destruct (parsed d n) as [v| |]; [by exists v|done..].
Qed.

(** C2.  Levels are counted as the depth counter counts them: the roots are at
    depth 0 and a graph of [n] levels takes the calls down to depth [n].  When
    the manifests down to depth 10 parse: a graph of at most 10 levels (there is
    no name at depth 11) is resolved; a graph with a name at depth 11 makes the
    entry point throw the too-deep error, for every save policy and suffix,
    with no file changed and no rename or deletion issued; and a manifest cycle
    reachable from the roots puts a name at depth 11.  Whenever the entry point
    throws the too-deep error it has changed no file and issued no rename or
    deletion. *)
Theorem C2_depth_bound (roots : list string) (w : world) :
  let d := files w in
  let e := snapshot d in
  manifests_parse e d roots 0 →
  (frontier d e 11 roots = [] → ∃ r, snd (resolution roots w) = Returned r)
  ∧ (frontier d e 11 roots ≠ [] →
     ∀ policy suffix,
       let w' := fst (getMissingFilesForRootFiles roots policy suffix w) in
       snd (getMissingFilesForRootFiles roots policy suffix w) = Thrown tooDeep
       ∧ files w' = files w
       ∧ forallb (λ c, negb (mutation c)) (issued w w') = true)
  ∧ (∀ m, reachable d e roots m → tc (refers d e) m m → frontier d e 11 roots ≠ [])
  ∧ (∀ policy suffix,
       let w' := fst (getMissingFilesForRootFiles roots policy suffix w) in
       snd (getMissingFilesForRootFiles roots policy suffix w) = Thrown tooDeep →
       files w' = files w
       ∧ forallb (λ c, negb (mutation c)) (issued w w') = true).
Proof.
  intros d e Hparse. subst d e. split_and!.
  - intros Hnil. rewrite resolution_eq.
    destruct (resolver_returns (snapshot (files w)) 12 roots 0 (issue ReadDir w))
      as (w' & r & ->); [lia|done|exists 11; split_and!; [lia|lia|done]|by exists r].
  - intros Hdeep policy suffix. apply entry_aborts. rewrite resolution_eq.
    destruct (resolver_too_deep (snapshot (files w)) 12 roots 0 (issue ReadDir w))
      as (w' & ->); [lia|done|done|done].
  - intros m Hm Hcycle. by apply (cycle_frontier _ _ roots m).
  - intros policy suffix. apply entry_too_deep.
Qed.

(** A chain of ten levels, one of eleven, and a manifest that refers to
    itself. *)
Lemma C2_chains :
  (frontier (files chain10) (snapshot (files chain10)) 10 ["c0.json"] ≠ []
   ∧ ∃ r, snd (resolution ["c0.json"] chain10) = Returned r)
  ∧ (∀ policy suffix,
       snd (getMissingFilesForRootFiles ["c0.json"] policy suffix chain11) = Thrown tooDeep
       ∧ files (fst (getMissingFilesForRootFiles ["c0.json"] policy suffix chain11))
         = files chain11)
  ∧ (∀ policy suffix,
       snd (getMissingFilesForRootFiles ["loop.json"] policy suffix selfref) = Thrown tooDeep
       ∧ files (fst (getMissingFilesForRootFiles ["loop.json"] policy suffix selfref))
         = files selfref).
Proof.
  assert (manifests_parse (snapshot (files chain10)) (files chain10) ["c0.json"] 0) as P10.
  { apply manifests_parseb_spec. vm_compute. reflexivity. }
  assert (manifests_parse (snapshot (files chain11)) (files chain11) ["c0.json"] 0) as P11.
  { apply manifests_parseb_spec. vm_compute. reflexivity. }
  assert (manifests_parse (snapshot (files selfref)) (files selfref) ["loop.json"] 0) as PS.
  { apply manifests_parseb_spec. vm_compute. reflexivity. }
  destruct (C2_depth_bound ["c0.json"] chain10 P10) as (H10 & _ & _ & _).
  destruct (C2_depth_bound ["c0.json"] chain11 P11) as (_ & H11 & _ & _).
  destruct (C2_depth_bound ["loop.json"] selfref PS) as (_ & HS & Hcycle & _).
  split; [|split].
  - split.
    + vm_compute. discriminate.
    + apply H10. vm_compute. reflexivity.
  - intros policy suffix.
    assert (frontier (files chain11) (snapshot (files chain11)) 11 ["c0.json"] ≠ [])
      as Hdeep by (vm_compute; discriminate).
    destruct (H11 Hdeep policy suffix) as (E1 & E2 & _). exact (conj E1 E2).
  - intros policy suffix.
    assert (frontier (files selfref) (snapshot (files selfref)) 11 ["loop.json"] ≠ [])
      as Hdeep.
    { apply (Hcycle "loop.json").
      - exists "loop.json". split; [apply list_elem_of_singleton; reflexivity|constructor].
      - apply tc_once. split; [|split].
        + apply elem_of_snapshot. vm_compute. eexists. reflexivity.
        + reflexivity.
        + vm_compute. apply list_elem_of_singleton. reflexivity. }
    destruct (HS Hdeep policy suffix) as (E1 & E2 & _). exact (conj E1 E2).
Defined.

(** ** C3: the commit *)




(** ** C4: the rollback *)



(** ** C5: verification only *)



(** ** C6: manifests that do not parse *)

(** C6, as stated, fails on [garbled]: the entry point throws the error of
    [JSON.parse], which is made from the text alone; the two manifests give the
    same error, so that no function from errors to names gives the offending
    file. *)
Lemma C6_error_names_no_file :
  snd (getMissingFilesForRootFiles ["a.json"] "verify" "" garbled)
  = Thrown (SyntaxError "oops")
  ∧ snd (getMissingFilesForRootFiles ["b.json"] "verify" "" garbled)
    = Thrown (SyntaxError "oops")
  ∧ ¬ ∃ name_of : error → string,
        ∀ (w : world) (n text policy suffix : string) (err : error),
          files w !! n = Some (Unparseable text) → endsWith n ".json" = true →
          snd (getMissingFilesForRootFiles [n] policy suffix w) = Thrown err →
          name_of err = n.
Proof.
  assert (snd (getMissingFilesForRootFiles ["a.json"] "verify" "" garbled)
          = Thrown (SyntaxError "oops")) as Ha by (vm_compute; reflexivity).
  assert (snd (getMissingFilesForRootFiles ["b.json"] "verify" "" garbled)
          = Thrown (SyntaxError "oops")) as Hb by (vm_compute; reflexivity).
  split; [exact Ha|]. split; [exact Hb|].
  intros [name_of H].
  assert (name_of (SyntaxError "oops") = "a.json") as Ea.
  { apply (H garbled "a.json" "oops" "verify" "");
      [vm_compute; reflexivity|reflexivity|exact Ha]. }
  assert (name_of (SyntaxError "oops") = "b.json") as Eb.
  { apply (H garbled "b.json" "oops" "verify" "");
      [vm_compute; reflexivity|reflexivity|exact Hb]. }
  rewrite Ea in Eb. discriminate Eb.
Qed.

(** C6, amended.  When a manifest of the directory at depth at most 10 from
    the roots does not parse, the entry point throws, for every policy and
    suffix: it throws the syntax error made from the text of an unparseable
    manifest that is reachable from the roots, an error other than the too-deep
    error; it returns no list, changes no file and issues no rename or
    deletion. *)
Theorem C6_unparseable (roots : list string) (policy suffix : string) (w : world)
    (k : nat) (n text : string) :
  let d := files w in
  let e := snapshot d in
  let run := getMissingFilesForRootFiles roots policy suffix w in
  k ≤ 10 → n ∈ frontier d e k roots → endsWith n ".json" = true →
  d !! n = Some (Unparseable text) →
  ∃ n' text',
    reachable d e roots n' ∧ endsWith n' ".json" = true
    ∧ d !! n' = Some (Unparseable text')
    ∧ snd run = Thrown (SyntaxError text')
    ∧ SyntaxError text' ≠ tooDeep
    ∧ files (fst run) = files w
    ∧ forallb (λ c, negb (mutation c)) (issued w (fst run)) = true.
Proof.
  intros d e run Hk Hn Hj Hc. subst d e run.
  assert (n ∈ snapshot (files w)) as He by (apply elem_of_snapshot; by rewrite Hc).
  assert (parsed (files w) n = Thrown (SyntaxError text)) as Hp
    by (unfold parsed; by rewrite Hc).
  destruct (resolution roots w) as [w1 o] eqn:E.
  assert (snd (resolution roots w) = o) as Ho by by rewrite E.
  rewrite resolution_eq in E.
  destruct o as [r|err|].
  - apply resolver_returned in E as [_ _ _ Hparse _].
    destruct (Hparse k n) as (v & Hv); [done..|]. simpl in Hv. congruence.
  - apply resolver_thrown in E. simpl in E.
    destruct E as [_ Hparse|k' n' err Hk' Hn' He' Hj' Hp' _].
    + destruct (Hparse k n) as (v & Hv); [lia|done..|]. congruence.
    + apply elem_of_snapshot in He' as He''. destruct He'' as [c Hc'].
      unfold parsed in Hp'. rewrite Hc' in Hp'.
      destruct c as [text'|v]; [|done]. injection Hp' as <-.
      exists n', text'.
      destruct (entry_aborts roots policy suffix w _ Ho) as (? & ? & ?).
      split_and!; try done.
      apply reachable_frontier. by exists k'.
  - by apply resolver_fuel in E; [|lia].
Qed.

(** A root that does not parse, under the commit policy. *)
Lemma C6_garbled :
  let run := getMissingFilesForRootFiles ["a.json"] "ifcomplete" ".tmp" garbled in
  ∃ n' text',
    reachable (files garbled) (snapshot (files garbled)) ["a.json"] n'
    ∧ endsWith n' ".json" = true
    ∧ files garbled !! n' = Some (Unparseable text')
    ∧ snd run = Thrown (SyntaxError text')
    ∧ SyntaxError text' ≠ tooDeep
    ∧ files (fst run) = files garbled
    ∧ forallb (λ c, negb (mutation c)) (issued garbled (fst run)) = true.
Proof.
  apply (C6_unparseable ["a.json"] "ifcomplete" ".tmp" garbled 0 "a.json" "oops").
  - lia.
  - apply list_elem_of_singleton. reflexivity.
  - reflexivity.
  - vm_compute. reflexivity.
Defined.

(** ** C7: the merge of a level *)

(** C7.  A call that returns has appended the missing names of its own level
    after the missing files of the call on the referenced names, and its own
    input after the referenced files of that call; when its manifests refer to
    nothing there is no such call and nothing before its own part.  So the
    missing files are the missing names of the levels, and the referenced files
    the inputs of the levels, from the deepest level to the level of the
    call. *)
Theorem C7_merge (fuel : nat) (e : JSSet.t) (names : list string) (level : nat)
    (w w' : world) (r : MissingFilesResult) :
  getMissingFilesRecursive (S fuel) e names level w = (w', Returned r) →
  (∃ child,
     missingFiles r = missingFiles child ++ fileNamesThatAreMissing e names
     ∧ referencedFiles r = referencedFiles child ++ names
     ∧ (let referenced := next (files w) e names in
        (referenced = [] ∧ child = noChildFiles)
        ∨ (referenced ≠ []
           ∧ snd (getMissingFilesRecursive fuel e referenced (level + 1)
                    (after_reads w (fileNamesWithRefs e names))) = Returned child)))
  ∧ (∃ depth,
       depth + level ≤ 10
       ∧ frontier (files w) e (S depth) names = []
       ∧ missingFiles r
         = deepest_first
             (λ k, fileNamesThatAreMissing e (frontier (files w) e k names)) depth
       ∧ referencedFiles r = deepest_first (λ k, frontier (files w) e k names) depth).
Proof.
  intros H. split; [|by apply resolver_returned_levels in H].
  apply getMissingFilesRecursive_cases in H.
  inversion H as [| |Hl Hn Hok|w2 child Hl Hn Hok Hc| |]; subst; clear H.
  - exists noChildFiles. split; [done|]. split; [done|]. by left.
  - exists child. split; [done|]. split; [done|]. right. split; [done|]. by rewrite Hc.
Qed.

(** The merge at depth 0, with a root that is absent. *)
Lemma C7_shared_blob :
  let d := files shared_blob in
  let e := snapshot d in
  let roots := ["gone"; "root.json"] in
  (∃ child,
     (["blobX"; "blobX"; "gone"] = missingFiles child ++ fileNamesThatAreMissing e roots)
     ∧ (["blobX"; "a.json"; "blobX"; "gone"; "root.json"]
        = referencedFiles child ++ roots)
     ∧ (let referenced := next d e roots in
        (referenced = [] ∧ child = noChildFiles)
        ∨ (referenced ≠ []
           ∧ snd (getMissingFilesRecursive 11 e referenced (0 + 1)
                    (after_reads shared_blob (fileNamesWithRefs e roots)))
             = Returned child)))
  ∧ (∃ depth,
       depth + 0 ≤ 10
       ∧ frontier d e (S depth) roots = []
       ∧ ["blobX"; "blobX"; "gone"]
         = deepest_first (λ k, fileNamesThatAreMissing e (frontier d e k roots)) depth
       ∧ ["blobX"; "a.json"; "blobX"; "gone"; "root.json"]
         = deepest_first (λ k, frontier d e k roots) depth).
Proof.
  apply (C7_merge 11 (snapshot (files shared_blob)) ["gone"; "root.json"] 0 shared_blob
           (fst (getMissingFilesRecursive 12 (snapshot (files shared_blob))
                   ["gone"; "root.json"] 0 shared_blob))
           {| missingFiles := ["blobX"; "blobX"; "gone"];
              referencedFiles := ["blobX"; "a.json"; "blobX"; "gone"; "root.json"] |}).
  vm_compute. reflexivity.
Defined.

(** ** C8: the three cases of a name *)

Lemma parsed_Returned d name v : parsed d name = Returned v ↔ d !! name = Some (Json v).
Proof.
  unfold parsed. destruct (d !! name) as [[text|v']|]; split; intros H; simplify_eq; done.
Qed.

Lemma parsed_Thrown_iff d name err :
  parsed d name = Thrown err
  ↔ (d !! name = None ∧ err = ENOENT "open" name)
    ∨ (∃ text, d !! name = Some (Unparseable text) ∧ err = SyntaxError text).
Proof.
  unfold parsed. destruct (d !! name) as [[text|v']|]; split.
  - intros [= <-]. right. eauto.
  - intros [[? _]|(text' & [= ->] & ->)]; done.
  - done.
  - intros [[? _]|(text' & ? & _)]; done.
  - intros [= <-]. by left.
  - intros [[_ ->]|(text' & ? & _)]; done.
Qed.

Lemma elem_of_refs_of d m y :
  y ∈ refs_of d m
  ↔ ∃ v targets i, d !! m = Some (Json v) ∧ refs v = Some targets ∧ (i, y) ∈ targets.
Proof.
  unfold refs_of, referencedFileNames, Object_values.
  destruct (parsed d m) as [v|err|] eqn:E.
  - apply parsed_Returned in E. destruct (refs v) as [targets|] eqn:R.
    + rewrite list_elem_of_fmap. split.
      * intros ([i y'] & -> & Hy). by exists v, targets, i.
      * intros (v' & targets' & i & Hv & Ht & Hy). simplify_eq. by exists (i, y).
    + split; [by intros []%elem_of_nil|].
      intros (v' & targets' & i & Hv & Ht & Hy). simplify_eq.
  - split; [by intros []%elem_of_nil|].
    intros (v' & targets' & i & Hv%parsed_Returned & _). congruence.
  - by apply parsed_not_OutOfFuel in E.
Qed.

(** C8.  A call at a level up to 10 sorts its input, without duplicates, by
    the snapshot: the names to read are the input names that are in the
    snapshot and end in [.json], the missing names of the level are the input
    names that are not in the snapshot, and an input name in the snapshot that
    does not end in [.json] is in neither.  The call changes no file, and the
    files it or the calls below it read are in the snapshot and end in
    [.json]: no other file is read or parsed.  Either a name to read cannot be
    read or parsed: then it has been read, only names to read of the level
    have been read, and the call throws the error of that name.  Or every name
    to read is read, in the order of the set, and parses; the names that the
    values parsed hold under [refs] are, without duplicates, the input of the
    call at the next level, which is made when there is such a name; the call
    then ends as that call does, and when it returns it returns the missing
    names of the level after the missing files of that call, and its input
    after the referenced files of that call.  A whole run lists the directory
    once, at its start, and reads only files of that listing that end in
    [.json]. *)
Theorem C8_partition (e : JSSet.t) (names : list string) (fuel level : nat)
    (w w' : world) (o : outcome MissingFilesResult) :
  level ≤ 10 →
  getMissingFilesRecursive (S fuel) e names level w = (w', o) →
  let toRead := fileNamesWithRefs e names in
  let missing := fileNamesThatAreMissing e names in
  (∀ x, x ∈ toRead ↔ x ∈ names ∧ x ∈ e ∧ endsWith x ".json" = true)
  ∧ (∀ x, x ∈ missing ↔ x ∈ names ∧ x ∉ e)
  ∧ (∀ x, x ∈ names → x ∈ e → endsWith x ".json" = false →
          (x ∉ toRead) ∧ (x ∉ missing))
  ∧ NoDup toRead
  ∧ NoDup missing
  ∧ files w' = files w
  ∧ (∃ read, issued w w' = map ReadFile read
             ∧ ∀ x, x ∈ read → x ∈ e ∧ endsWith x ".json" = true)
  ∧ ((∃ n err read,
        n ∈ toRead ∧ n ∈ read ∧ (∀ x, x ∈ read → x ∈ toRead)
        ∧ issued w w' = map ReadFile read
        ∧ ((files w !! n = None ∧ err = ENOENT "open" n)
           ∨ (∃ text, files w !! n = Some (Unparseable text) ∧ err = SyntaxError text))
        ∧ o = Thrown err)
     ∨ (∃ children w1,
          (∀ n, n ∈ toRead → ∃ v, files w !! n = Some (Json v))
          ∧ NoDup children
          ∧ (∀ y, y ∈ children
                  ↔ ∃ m v targets i,
                      m ∈ toRead ∧ files w !! m = Some (Json v)
                      ∧ refs v = Some targets ∧ (i, y) ∈ targets)
          ∧ files w1 = files w
          ∧ issued w w1 = map ReadFile toRead
          ∧ ((children = [] ∧ w' = w1
              ∧ o = Returned {| missingFiles := missing; referencedFiles := names |})
             ∨ (children ≠ []
                ∧ ∃ child,
                    getMissingFilesRecursive fuel e children (level + 1) w1 = (w', child)
                    ∧ o = match child with
                          | Returned c =>
                              Returned {| missingFiles := missingFiles c ++ missing;
                                          referencedFiles := referencedFiles c ++ names |}
                          | Thrown err => Thrown err
                          | OutOfFuel => OutOfFuel
                          end))))
  ∧ (∀ roots policy suffix w0,
       ∃ read ops,
         issued w0 (fst (getMissingFilesForRootFiles roots policy suffix w0))
         = ReadDir :: map ReadFile read ++ ops
         ∧ Forall (λ n, is_Some (files w0 !! n) ∧ endsWith n ".json" = true) read
         ∧ forallb mutation ops = true).
Proof.
  intros Hl H toRead missing. subst toRead missing.
  split; [intros x; apply elem_of_fileNamesWithRefs|].
  split; [intros x; apply elem_of_fileNamesThatAreMissing|].
  split.
  { intros x Hx He Hj.
    rewrite elem_of_fileNamesWithRefs, elem_of_fileNamesThatAreMissing.
    split; [intros (_ & _ & ?); congruence|intros [_ ?]; done]. }
  split; [apply NoDup_fileNamesWithRefs|].
  split; [apply NoDup_fileNamesThatAreMissing|].
  split; [by apply resolver_files in H|].
  split.
  { destruct (resolver_reads _ _ _ _ _ _ _ H) as (read & -> & Hread).
    exists read. split; [by apply issued_app|]. by apply Forall_forall. }
  split; [|apply entry_issued].
  rewrite getMissingFilesRecursive_S in H.
  destruct (Nat.ltb_spec 10 level) as [|_]; [lia|].
  destruct (readChunks (chunkArrayInGroups (fileNamesWithRefs e names) 50) [] w)
    as [w1 [s|err|]] eqn:E.
  - right. apply read_level_spec in E as (read & -> & _ & -> & -> & Hparse).
    exists (next (files w) e names), (after_reads w (fileNamesWithRefs e names)).
    split. { intros n (v & Hv%parsed_Returned)%Hparse. eauto. }
    split; [apply NoDup_from|].
    split.
    { intros y. rewrite elem_of_next. unfold refers. split.
      - intros (m & Hm & He & Hj & (v & targets & i & Hv & Ht & Hy)%elem_of_refs_of).
        exists m, v, targets, i. by rewrite elem_of_fileNamesWithRefs.
      - intros (m & v & targets & i & (Hm & He & Hj)%elem_of_fileNamesWithRefs
                & Hv & Ht & Hy).
        exists m. rewrite elem_of_refs_of. eauto 10. }
    split; [done|]. split; [by apply issued_app|].
    destruct (0 <? JSSet.size (next (files w) e names)) eqn:Z.
    + right. split; [by apply size_pos_true|].
      destruct (getMissingFilesRecursive fuel e (next (files w) e names) (level + 1)
                  (after_reads w (fileNamesWithRefs e names))) as [w2 child].
      exists child. by destruct child; simplify_eq.
    + left. apply size_pos_false in Z. split; [done|]. unfold ret in H. by simplify_eq.
  - left. injection H as <- <-.
    apply readChunks_Thrown in E as (j & chunk & name & Hj & Hname & Herr & _ & ->).
    assert (∀ x, x ∈ concat (take (S j) (chunkArrayInGroups (fileNamesWithRefs e names) 50))
                 → x ∈ fileNamesWithRefs e names) as Hsub.
    { intros x Hx. unfold chunkArrayInGroups in Hx.
      rewrite chunk_loop_take in Hx by lia.
      apply elem_of_take in Hx as (i & Hi & _). by eapply list_elem_of_lookup_2. }
    assert (name ∈ concat (take (S j) (chunkArrayInGroups (fileNamesWithRefs e names) 50)))
      as Hread.
    { apply list_elem_of_In, in_concat. exists chunk. split; [|by apply list_elem_of_In].
      apply list_elem_of_In. apply list_elem_of_lookup. exists j.
      rewrite lookup_take_lt by lia. done. }
    exists name, err. eexists. split; [by apply Hsub|]. split; [exact Hread|].
    split; [exact Hsub|]. split; [by apply issued_app|].
    split; [by apply parsed_Thrown_iff|done].
  - by apply read_level_spec in E as (read & _ & _ & []).
Qed.

(** A call on a manifest given twice, a blob of the directory and a name that
    is not in the directory: the manifest is read once and the two manifests
    it refers to are read by the call at the next level; the blob is not
    read. *)
Lemma C8_scenario1 :
  let w := with_blob "one" in
  let e := snapshot (files w) in
  let names := ["root.json"; "blob"; "gone"; "root.json"] in
  let w' := {| files := files w;
               calls := [ReadFile "root.json"; ReadFile "a.json"; ReadFile "b.json"] |} in
  let o := Returned {| missingFiles := ["blob1"; "gone"];
                       referencedFiles := ["blob1"; "a.json"; "b.json"; "root.json";
                                           "blob"; "gone"; "root.json"] |} in
  let toRead := fileNamesWithRefs e names in
  let missing := fileNamesThatAreMissing e names in
  (∀ x, x ∈ toRead ↔ x ∈ names ∧ x ∈ e ∧ endsWith x ".json" = true)
  ∧ (∀ x, x ∈ missing ↔ x ∈ names ∧ x ∉ e)
  ∧ (∀ x, x ∈ names → x ∈ e → endsWith x ".json" = false →
          (x ∉ toRead) ∧ (x ∉ missing))
  ∧ NoDup toRead
  ∧ NoDup missing
  ∧ files w' = files w
  ∧ (∃ read, issued w w' = map ReadFile read
             ∧ ∀ x, x ∈ read → x ∈ e ∧ endsWith x ".json" = true)
  ∧ ((∃ n err read,
        n ∈ toRead ∧ n ∈ read ∧ (∀ x, x ∈ read → x ∈ toRead)
        ∧ issued w w' = map ReadFile read
        ∧ ((files w !! n = None ∧ err = ENOENT "open" n)
           ∨ (∃ text, files w !! n = Some (Unparseable text) ∧ err = SyntaxError text))
        ∧ o = Thrown err)
     ∨ (∃ children w1,
          (∀ n, n ∈ toRead → ∃ v, files w !! n = Some (Json v))
          ∧ NoDup children
          ∧ (∀ y, y ∈ children
                  ↔ ∃ m v targets i,
                      m ∈ toRead ∧ files w !! m = Some (Json v)
                      ∧ refs v = Some targets ∧ (i, y) ∈ targets)
          ∧ files w1 = files w
          ∧ issued w w1 = map ReadFile toRead
          ∧ ((children = [] ∧ w' = w1
              ∧ o = Returned {| missingFiles := missing; referencedFiles := names |})
             ∨ (children ≠ []
                ∧ ∃ child,
                    getMissingFilesRecursive 11 e children (0 + 1) w1 = (w', child)
                    ∧ o = match child with
                          | Returned c =>
                              Returned {| missingFiles := missingFiles c ++ missing;
                                          referencedFiles := referencedFiles c ++ names |}
                          | Thrown err => Thrown err
                          | OutOfFuel => OutOfFuel
                          end))))
  ∧ (∀ roots policy suffix w0,
       ∃ read ops,
         issued w0 (fst (getMissingFilesForRootFiles roots policy suffix w0))
         = ReadDir :: map ReadFile read ++ ops
         ∧ Forall (λ n, is_Some (files w0 !! n) ∧ endsWith n ".json" = true) read
         ∧ forallb mutation ops = true).
Proof.
  intros w e names w' o.
  apply (C8_partition e names 11 0 w w' o).
  - lia.
  - vm_compute. reflexivity.
Defined.

(** ** C9: the permanent name *)

(** C9.  In the commit the rename issued for a root goes to [newName], the
    first characters of the root, as many as the root has more than the suffix:
    the last characters, as many as the suffix has, are dropped whatever they
    are (they are the suffix when the root ends with it), and a root shorter
    than the suffix is renamed to the empty name. *)
Theorem C9_permanent_name (roots : list string) (suffix : string) (w : world)
    (r : MissingFilesResult) :
  snd (resolution roots w) = Returned r →
  missingFiles r = [] →
  (∃ rest, issued (fst (resolution roots w))
             (fst (getMissingFilesForRootFiles roots "ifcomplete" suffix w))
           = map (λ file, Rename file (newName file suffix)) roots ++ rest)
  ∧ (∀ file, newName file suffix
             = String.substring 0 (String.length file - String.length suffix) file)
  ∧ (∀ file, String.length suffix ≤ String.length file →
       let last := String.substring (String.length file - String.length suffix)
                     (String.length suffix) file in
       file = String.append (newName file suffix) last
       ∧ String.length last = String.length suffix)
  ∧ (∀ file, endsWith file suffix = true →
             file = String.append (newName file suffix) suffix)
  ∧ (∀ file, String.length file < String.length suffix → newName file suffix = "").
Proof.
  intros Hr Hm. split_and!.
  - rewrite (entry_commit _ _ _ _ Hr Hm). simpl.
    destruct (all_of (results (renames suffix roots) (files w))).
    + eexists. by apply issued_app.
    + exists []. apply issued_app. by rewrite app_nil_r.
    + exists []. apply issued_app. by rewrite app_nil_r.
  - intros file. apply newName_eq.
  - intros file. apply newName_strips.
  - intros file. apply newName_endsWith.
  - intros file H. apply newName_short. lia.
Qed.

(** Roots without the suffix: one longer than it and one shorter. *)
Lemma C9_unsuffixed :
  (∃ rest, issued (fst (resolution ["root.json"; "ab"] unsuffixed))
             (fst (getMissingFilesForRootFiles ["root.json"; "ab"] "ifcomplete" ".tmp"
                     unsuffixed))
           = [Rename "root.json" "root."; Rename "ab" ""] ++ rest)
  ∧ newName "ab" ".tmp" = "".
Proof.
  destruct (C9_permanent_name ["root.json"; "ab"] ".tmp" unsuffixed
              {| missingFiles := []; referencedFiles := ["root.json"; "ab"] |})
    as (Hissued & _ & _ & _ & Hshort).
  - vm_compute. reflexivity.
  - reflexivity.
  - split; [exact Hissued|]. apply Hshort. simpl. lia.
Defined.

(** ** C10: what does not depend on the schedule *)

Lemma same_listing_names (d1 d2 : gmap string content) :
  (map_to_list d1).*1 = (map_to_list d2).*1 → same_names d1 d2.
Proof. intros H n. by rewrite <- !elem_of_listing, H. Qed.

Lemma handleSaveParam_same roots policy suffix e r w1 w2 :
  same_names (files w1) (files w2) →
  snd (handleSaveParam roots policy suffix e r w1)
  = snd (handleSaveParam roots policy suffix e r w2)
  ∧ ∃ ops, calls (fst (handleSaveParam roots policy suffix e r w1)) = calls w1 ++ ops
           ∧ calls (fst (handleSaveParam roots policy suffix e r w2)) = calls w2 ++ ops.
Proof.
  intros Hn.
  assert (∀ cs, same_names (effects cs (files w1)) (effects cs (files w2))
                ∧ results cs (files w1) = results cs (files w2)) as Hsame
    by (intros cs; by apply same_names_effects).
  destruct (decide (policy = "ifcomplete")) as [->|H1].
  - destruct (missingFiles r) as [|x l] eqn:Hm.
    + rewrite !handleSaveParam_commit by done. simpl.
      destruct (Hsame (renames suffix roots)) as [Hn' ->].
      destruct (all_of (results (renames suffix roots) (files w2))); simpl;
        [|by eauto..].
      destruct (same_names_effects (map Unlink (pruneFiles suffix roots e r)) _ _ Hn')
        as [_ ->].
      by eauto.
    + rewrite !handleSaveParam_rollback by (right; by rewrite Hm). simpl.
      destruct (Hsame (map Unlink roots)) as [_ ->]. by eauto.
  - destruct (decide (policy = "no")) as [->|H2].
    + rewrite !handleSaveParam_rollback by by left. simpl.
      destruct (Hsame (map Unlink roots)) as [_ ->]. by eauto.
    + rewrite !(handleSaveParam_verify _ _ _ _ _ H1 H2). simpl. split; [done|].
      exists []. by rewrite !app_nil_r.
Qed.

(** Two runs in the order of issue on directories with the same listing and
    the same contents of the files that end in [.json] end alike and issue
    the same calls. *)
Lemma sequential_runs_alike roots policy suffix w1 w2 :
  (map_to_list (files w1)).*1 = (map_to_list (files w2)).*1 →
  (∀ n, endsWith n ".json" = true → files w1 !! n = files w2 !! n) →
  snd (getMissingFilesForRootFiles roots policy suffix w1)
  = snd (getMissingFilesForRootFiles roots policy suffix w2)
  ∧ issued w1 (fst (getMissingFilesForRootFiles roots policy suffix w1))
    = issued w2 (fst (getMissingFilesForRootFiles roots policy suffix w2)).
Proof.
  intros Hl Hj.
  assert (snapshot (files w2) = snapshot (files w1)) as He
    by (unfold snapshot; by rewrite Hl).
  rewrite !getMissingFilesForRootFiles_eq, !resolution_eq, He.
  destruct (resolver_ext 12 (snapshot (files w1)) roots 0
              (issue ReadDir w1) (issue ReadDir w2)) as (read & o & -> & ->).
  { intros n _ Hn. simpl. unfold parsed. by rewrite (Hj n Hn). }
  assert (∀ (w : world) ops, 
            issued w {| files := files w;
                        calls := calls (after_reads (issue ReadDir w) read) ++ ops |}
            = ReadDir :: map ReadFile read ++ ops) as Hissued.
  { intros w ops. apply issued_app. simpl. by rewrite <- !app_assoc. }
  destruct o as [r|err|]; simpl.
  - pose proof (handleSaveParam_same roots policy suffix (snapshot (files w1)) r
                  (after_reads (issue ReadDir w1) read)
                  (after_reads (issue ReadDir w2) read)) as [Ho (ops & H1 & H2)].
    { simpl. by apply same_listing_names. }
    destruct (handleSaveParam _ _ _ _ r (after_reads (issue ReadDir w1) read))
      as [w1' o1].
    destruct (handleSaveParam _ _ _ _ r (after_reads (issue ReadDir w2) read))
      as [w2' o2].
    simpl in *. subst o2.
    assert (issued w1 w1' = issued w2 w2') as Hi.
    { rewrite (issued_app w1 w1' (ReadDir :: map ReadFile read ++ ops)),
        (issued_app w2 w2' (ReadDir :: map ReadFile read ++ ops)); [done|..].
      - rewrite H2. by rewrite <- !app_assoc.
      - rewrite H1. by rewrite <- !app_assoc. }
    by destruct o1 as [[]|err|].
  - split; [done|]. rewrite !(issued_app _ _ (ReadDir :: map ReadFile read));
      [done|simpl; by rewrite <- !app_assoc..].
  - split; [done|]. rewrite !(issued_app _ _ (ReadDir :: map ReadFile read));
      [done|simpl; by rewrite <- !app_assoc..].
Qed.

(** C10, as stated, fails on [raced]: with the root [a.t] given twice beside
    [a.t.t], the second rename of [a.t] fails when it takes effect before the
    rename of [a.t.t] to [a.t] and succeeds when it takes effect after it.
    Of two runs on the same directory with the same roots, policy and suffix,
    one throws and deletes nothing, the other returns the empty list and
    deletes [old]. *)
Lemma C10_duplicate_roots_race :
  let roots := ["a.t"; "a.t"; "a.t.t"] in
  let run1 := getMissingFilesForRootFiles_under in_order roots "ifcomplete" ".t" raced in
  let run2 := getMissingFilesForRootFiles_under second_last roots "ifcomplete" ".t" raced in
  fair in_order ∧ fair second_last
  ∧ snd run1 = Thrown (ENOENT "rename" "a.t")
  ∧ snd run2 = Returned []
  ∧ issued raced (fst run1)
    = [ReadDir; Rename "a.t" "a"; Rename "a.t" "a"; Rename "a.t.t" "a.t"]
  ∧ issued raced (fst run2)
    = [ReadDir; Rename "a.t" "a"; Rename "a.t.t" "a.t"; Rename "a.t" "a"; Unlink "old"].
Proof.
  split; [apply fair_in_order|]. split; [apply fair_second_last|].
  split; [vm_compute; reflexivity|]. split; [vm_compute; reflexivity|].
  split; vm_compute; reflexivity.
Qed.

(** C10.  Under any two schedules, two runs on directories with the same
    listing and the same contents of the files that end in [.json], with the
    same roots, policy and suffix, where the roots are pairwise distinct or
    the policy is not [ifcomplete]: when one run returns a list the other
    returns the same list, when one throws the other throws, and the two
    issue the same calls, each as often.  The order of the calls of a batch,
    and the error thrown, may differ. *)
Theorem C10_schedules (σ1 σ2 : scheduler) (roots : list string) (policy suffix : string)
    (w1 w2 : world) :
  fair σ1 → fair σ2 →
  (map_to_list (files w1)).*1 = (map_to_list (files w2)).*1 →
  (∀ n, endsWith n ".json" = true → files w1 !! n = files w2 !! n) →
  NoDup roots ∨ policy ≠ "ifcomplete" →
  let run1 := getMissingFilesForRootFiles_under σ1 roots policy suffix w1 in
  let run2 := getMissingFilesForRootFiles_under σ2 roots policy suffix w2 in
  (∀ l, snd run1 = Returned l ↔ snd run2 = Returned l)
  ∧ ((∃ err, snd run1 = Thrown err) ↔ (∃ err, snd run2 = Thrown err))
  ∧ issued w1 (fst run1) ≡ₚ issued w2 (fst run2).
Proof.
  intros Hf1 Hf2 Hl Hj Hcond run1 run2. subst run1 run2.
  destruct (entry_under_ending σ1 roots policy suffix w1 Hf1 Hcond) as (Hr1 & Hfuel1 & Hi1).
  destruct (entry_under_ending σ2 roots policy suffix w2 Hf2 Hcond) as (Hr2 & Hfuel2 & Hi2).
  destruct (sequential_runs_alike roots policy suffix w1 w2 Hl Hj) as [Ho Hi].
  assert (∀ l, snd (getMissingFilesForRootFiles_under σ1 roots policy suffix w1) = Returned l
               ↔ snd (getMissingFilesForRootFiles_under σ2 roots policy suffix w2)
                 = Returned l) as Hr.
  { intros l. by rewrite Hr1, Hr2, Ho. }
  split; [done|]. split; [|by rewrite Hi1, Hi2, Hi].
  destruct (snd (getMissingFilesForRootFiles_under σ1 roots policy suffix w1))
    as [l1|err1|] eqn:E1;
    destruct (snd (getMissingFilesForRootFiles_under σ2 roots policy suffix w2))
      as [l2|err2|] eqn:E2;
    first [ by destruct Hfuel1 | by destruct Hfuel2
          | by destruct (proj1 (Hr l1) eq_refl)
          | by destruct (proj2 (Hr l2) eq_refl)
          | split; intros [err Herr]; discriminate Herr
          | split; eauto ].
Qed.

(** Two staged roots, committed in the order of issue and last first: the
    calls of each batch take effect in the opposite order, and the two runs
    return the same list and issue the same calls. *)
Lemma C10_two_roots :
  let roots := ["x.json.tmp.json"; "y.json.tmp.json"] in
  let run1 := getMissingFilesForRootFiles_under in_order roots "ifcomplete" ".tmp.json"
                two_roots in
  let run2 := getMissingFilesForRootFiles_under last_first roots "ifcomplete" ".tmp.json"
                two_roots in
  snd run1 = Returned []
  ∧ issued two_roots (fst run1)
    = [ReadDir; ReadFile "x.json.tmp.json"; ReadFile "y.json.tmp.json";
       ReadFile "a.json"; ReadFile "b.json";
       Rename "x.json.tmp.json" "x.json"; Rename "y.json.tmp.json" "y.json";
       Unlink "old.json"]
  ∧ issued two_roots (fst run2)
    = [ReadDir; ReadFile "y.json.tmp.json"; ReadFile "x.json.tmp.json";
       ReadFile "b.json"; ReadFile "a.json";
       Rename "y.json.tmp.json" "y.json"; Rename "x.json.tmp.json" "x.json";
       Unlink "old.json"]
  ∧ (∀ l, snd run1 = Returned l ↔ snd run2 = Returned l)
  ∧ ((∃ err, snd run1 = Thrown err) ↔ (∃ err, snd run2 = Thrown err))
  ∧ issued two_roots (fst run1) ≡ₚ issued two_roots (fst run2).
Proof.
  split; [vm_compute; reflexivity|].
  split; [vm_compute; reflexivity|].
  split; [vm_compute; reflexivity|].
  apply (C10_schedules in_order last_first ["x.json.tmp.json"; "y.json.tmp.json"]
           "ifcomplete" ".tmp.json" two_roots two_roots).
  - apply fair_in_order.
  - apply fair_last_first.
  - reflexivity.
  - reflexivity.
  - left. apply NoDup_cons. split; [|apply NoDup_singleton].
    intros H%list_elem_of_singleton. discriminate H.
Defined.

(** * Further properties of the code *)

(** ** The chunks *)

(** X1.  The chunks of an array, one after the other, are the array: no
    element is lost, repeated or moved. *)
Theorem X1_chunks_concat {T} (arr : list T) (size : nat) :
  0 < size → concat (chunkArrayInGroups arr size) = arr.
Proof. apply chunkArrayInGroups_concat. Qed.

(** The chunks of five names by two. *)
Lemma X1_five_by_two :
  concat (chunkArrayInGroups ["a"; "b"; "c"; "d"; "e"] 2) = ["a"; "b"; "c"; "d"; "e"].
Proof. apply (X1_chunks_concat ["a"; "b"; "c"; "d"; "e"] 2). lia. Defined.

(** X2.  The chunk of index [i] is [arr.slice(i * size, i * size + size)] when
    [i * size] is below the length, and there is no other chunk: every chunk
    but the last has [size] elements, the last has between 1 and [size], an
    empty array has no chunk, and there are as many chunks as the length
    divided by [size], rounded up. *)
Theorem X2_chunks_slices {T} (arr : list T) (size : nat) :
  0 < size →
  (∀ i, chunkArrayInGroups arr size !! i
        = if decide (i * size < length arr)
          then Some (take size (drop (i * size) arr)) else None)
  ∧ (∀ i chunk, chunkArrayInGroups arr size !! i = Some chunk →
        1 ≤ length chunk ≤ size
        ∧ (S i < length (chunkArrayInGroups arr size) → length chunk = size))
  ∧ length arr ≤ length (chunkArrayInGroups arr size) * size
  ∧ length (chunkArrayInGroups arr size) * size < length arr + size
  ∧ (arr = [] → chunkArrayInGroups arr size = []).
Proof.
  intros Hsize.
  assert (∀ i, chunkArrayInGroups arr size !! i
               = if decide (i * size < length arr)
                 then Some (take size (drop (i * size) arr)) else None) as Hlookup.
  { intros i. by apply chunk_loop_lookup. }
  assert (∀ i, i < length (chunkArrayInGroups arr size) ↔ i * size < length arr) as Hlt.
  { intros i. rewrite <- lookup_lt_is_Some, Hlookup.
    destruct (decide (i * size < length arr)); split; intros H;
      first [done|by eexists|by destruct H]. }
  split; [done|]. split; [|split; [|split]].
  - intros i chunk. rewrite Hlookup.
    destruct (decide (i * size < length arr)) as [Hi|]; [|done].
    intros [= <-]. rewrite length_take, length_drop. split; [lia|].
    intros HS%Hlt. lia.
  - destruct (decide (length arr ≤ length (chunkArrayInGroups arr size) * size));
      [done|].
    assert (length (chunkArrayInGroups arr size) < length (chunkArrayInGroups arr size));
      [apply Hlt|]; lia.
  - destruct (length (chunkArrayInGroups arr size)) as [|n] eqn:E; [lia|].
    assert (n * size < length arr) by (apply Hlt; lia). lia.
  - by intros ->.
Qed.

(** One hundred and twenty names by fifty: the last chunk has twenty. *)
Lemma X2_by_fifty :
  chunkArrayInGroups (replicate 120 "f") 50 !! 2 = Some (replicate 20 "f")
  ∧ chunkArrayInGroups (replicate 120 "f") 50 !! 3 = None.
Proof.
  destruct (X2_chunks_slices (replicate 120 "f") 50) as (H & _); [lia|].
  rewrite !H. split; vm_compute; reflexivity.
Defined.

(** ** The difference of two sets, and the snapshot *)

Lemma filter_not_in_nil (a : list string) : filter (λ x, x ∉ []) a = a.
Proof.
  induction a as [|x a IH]; [done|].
  rewrite filter_cons_True by apply not_elem_of_nil. by rewrite IH.
Qed.

(** X3.  [difference(setA, setB)] is [setA] without the elements of [setB], in
    the order of [setA]. *)
Theorem X3_difference_filter (setA setB : JSSet.t) :
  difference setA setB = filter (λ x, x ∉ setB) setA.
Proof.
  unfold difference. revert setA.
  induction setB as [|elem setB IH]; intros setA; simpl.
  - by rewrite filter_not_in_nil.
  - rewrite IH. unfold JSSet.delete. rewrite list_filter_filter.
    apply list_filter_iff. intros x. rewrite not_elem_of_cons. tauto.
Qed.

Lemma fold_add_fresh (l acc : list string) :
  NoDup (acc ++ l) → fold_left (λ s x, JSSet.add x s) l acc = acc ++ l.
Proof.
  revert acc. induction l as [|x l IH]; intros acc H; simpl.
  - by rewrite app_nil_r.
  - assert (JSSet.add x acc = acc ++ [x]) as ->.
    { unfold JSSet.add.
      assert (JSSet.has x acc = false) as ->; [|done].
      apply has_false. apply NoDup_app in H as (_ & H & _).
      intros Hx. apply (H x Hx). by left. }
    rewrite IH; rewrite <- app_assoc; done.
Qed.

Lemma from_NoDup (l : list string) : NoDup l → JSSet.from l = l.
Proof. intros H. unfold JSSet.from. by rewrite fold_add_fresh. Qed.

(** X4.  [getExistingFiles] lists the directory once and changes no file; the
    set it returns is the listing, in its order: it has every name of the
    directory, once, and no other name. *)
Theorem X4_getExistingFiles (w : world) :
  getExistingFiles w = (issue ReadDir w, Returned (map_to_list (files w)).*1)
  ∧ NoDup (map_to_list (files w)).*1
  ∧ (∀ n, n ∈ (map_to_list (files w)).*1 ↔ is_Some (files w !! n))
  ∧ files (issue ReadDir w) = files w.
Proof.
  split; [|split; [|split]].
  - rewrite getExistingFiles_eq. unfold snapshot.
    by rewrite from_NoDup by apply NoDup_fst_map_to_list.
  - apply NoDup_fst_map_to_list.
  - intros n. apply elem_of_listing.
  - done.
Qed.

(** ** When the deletions of a batch succeed *)


Lemma resolution_nil w :
  resolution [] w = (issue ReadDir w, Returned noChildFiles).
Proof. reflexivity. Qed.

(** X5.  With no root at all, the policy [ifcomplete] empties the directory:
    nothing is referenced, so that every file of the listing is pruned, and the
    empty list is returned.  With any other policy no file is changed. *)
Theorem X5_no_roots (suffix : string) (w : world) :
  (let run := getMissingFilesForRootFiles [] "ifcomplete" suffix w in
   snd run = Returned []
   ∧ files (fst run) = ∅
   ∧ issued w (fst run) = ReadDir :: map Unlink (map_to_list (files w)).*1)
  ∧ (∀ policy, policy ≠ "ifcomplete" →
       let run := getMissingFilesForRootFiles [] policy suffix w in
       snd run = Returned [] ∧ files (fst run) = files w
       ∧ issued w (fst run) = [ReadDir]).
Proof.
  assert (snd (resolution [] w) = Returned noChildFiles) as Hr
    by by rewrite resolution_nil.
  split.
  - rewrite (entry_commit [] suffix w noChildFiles Hr eq_refl).
    rewrite resolution_nil.
    change (renames suffix []) with (@nil call). cbn [results effects all_of].
    change (pruneFiles suffix [] (snapshot (files w)) noChildFiles)
      with (snapshot (files w)).
    unfold snapshot. rewrite from_NoDup by apply NoDup_fst_map_to_list.
    destruct (proj2 (unlinks_succeed_iff (map_to_list (files w)).*1 (files w)))
      as [us Hus].
    { split; [apply NoDup_fst_map_to_list|]. intros n. by rewrite elem_of_listing. }
    cbn zeta. rewrite Hus. cbn [fst snd files calls].
    split; [done|]. split.
    + apply map_empty. intros n.
      destruct (files w !! n) as [c|] eqn:E.
      * apply effects_unlinks_None, elem_of_listing. by rewrite E.
      * rewrite effects_unlinks_frame; [done|].
        rewrite elem_of_listing, E. by intros [? ?].
    + apply issued_app. simpl. by rewrite <- app_assoc.
  - intros policy Hp. destruct (decide (policy = "no")) as [->|Hno].
    + rewrite (entry_rollback [] "no" suffix w noChildFiles Hr) by by left.
      rewrite resolution_nil. simpl. split; [done|]. split; [done|].
      apply issued_app. by rewrite app_nil_r.
    + rewrite entry_verify by done. rewrite resolution_nil. simpl.
      split; [done|]. split; [done|]. by apply issued_app.
Qed.

(** ** The rollback, root by root *)





(** ** The commit of distinct roots *)

(** When no new name is a root, the renamed set is the set without the roots
    and with their new names, in whatever order the roots are renamed. *)
Lemma elem_of_renamed_set_apart suffix (roots : list string) (s : JSSet.t) x :
  (∀ file, file ∈ roots → newName file suffix ∉ roots) →
  x ∈ renamed_set suffix roots s
  ↔ (x ∈ s ∧ x ∉ roots) ∨ x ∈ map (λ file, newName file suffix) roots.
Proof.
  unfold renamed_set. revert s. induction roots as [|file roots IH]; intros s H; simpl.
  - split; [intros ?; left; split; [done|apply not_elem_of_nil]|].
    intros [[? _]|[]%elem_of_nil]. done.
  - rewrite IH, elem_of_add, elem_of_delete, !elem_of_cons.
    + assert (newName file suffix ∉ roots) as Hnew.
      { intros Hin. apply (H file); [by left|by right]. }
      destruct (decide (x = newName file suffix)) as [->|]; intuition congruence.
    + intros g Hg Hin. apply (H g); by right.
Qed.

(** X8.  Under any schedule, the commit of pairwise distinct roots goes
    through when no file is missing and the new names of the roots are names
    of files, none of them a root: every rename and every deletion succeeds,
    the empty list is returned, and afterwards the directory has exactly the
    referenced files, with the new name of each root in the place of the
    root. *)
Theorem X8_commit_completes (σ : scheduler) (roots : list string) (suffix : string)
    (w : world) (r : MissingFilesResult) :
  fair σ →
  NoDup roots →
  (∀ file, file ∈ roots → newName file suffix ∉ roots) →
  (∀ file, file ∈ roots → plain (newName file suffix) = true) →
  snd (resolution roots w) = Returned r →
  missingFiles r = [] →
  let run := getMissingFilesForRootFiles_under σ roots "ifcomplete" suffix w in
  snd run = Returned []
  ∧ ∀ x, is_Some (files (fst run) !! x)
         ↔ x ∈ renamed_set suffix roots (JSSet.from (referencedFiles r)).
Proof.
  intros Hfair Hnd Hapart _ Hr Hm run. subst run.
  destruct (complete_in_directory _ _ _ Hr Hm) as [Hroots Href].
  destruct (entry_under σ roots "ifcomplete" suffix w Hfair)
    as (read & read' & o & o' & Hres & _ & Halike & ->).
  rewrite Hres in Hr. simpl in Hr. subst o.
  destruct o' as [r'|err'|]; try done. simpl in Halike. subst r'.
  destruct (handleSaveParam_under_commit σ roots suffix (snapshot (files w)) r
              (after_reads (issue ReadDir w) read') Hfair Hm)
    as (roots' & Hroots' & [(err & Herr & ->)|(Hs & prune' & o & -> & Hprune' & Hend)]);
    cbn [files after_reads issue] in *.
  - exfalso.
    destruct (commit_succeeds suffix roots roots'
                (pruneFiles suffix roots (snapshot (files w)) r)
                (snapshot (files w)) (JSSet.from (referencedFiles r)) (files w))
      as (Hs & _);
      [done|done|apply NoDup_from|done|intros x; apply elem_of_snapshot|done|].
    by apply succeed_no_failure in Herr.
  - destruct (commit_succeeds suffix roots roots' prune'
                (snapshot (files w)) (JSSet.from (referencedFiles r)) (files w))
      as (_ & Hs' & Hnames);
      [done|done|apply NoDup_from|done|intros x; apply elem_of_snapshot|done|].
    apply batch_ending_Returned in Hend as [Hend _].
    apply Hend in Hs'. subst o. cbn [fst snd files]. rewrite Hm. split; [done|].
    intros x. rewrite Hnames, Hprune'. unfold pruneFiles. rewrite elem_of_difference.
    assert (x ∈ renamed_set suffix roots' (snapshot (files w))
            ↔ x ∈ renamed_set suffix roots (snapshot (files w))) as ->.
    { rewrite !elem_of_renamed_set_apart; [by rewrite Hroots'|done|].
      intros file. rewrite Hroots'. apply Hapart. }
    split.
    + intros [Hx Hp].
      destruct (decide (x ∈ renamed_set suffix roots (JSSet.from (referencedFiles r))));
        [done|]. by destruct Hp.
    + intros Hx. split; [by eapply renamed_set_mono|]. by intros [_ ?].
Qed.

(** The commit of two staged roots, the second renamed first: the directory
    is left with the two roots and the files they refer to. *)
Lemma X8_two_roots :
  let run := getMissingFilesForRootFiles_under last_first
               ["x.json.tmp.json"; "y.json.tmp.json"] "ifcomplete" ".tmp.json" two_roots in
  snd run = Returned []
  ∧ ∀ x, is_Some (files (fst run) !! x) ↔ x ∈ ["a.json"; "b.json"; "x.json"; "y.json"].
Proof.
  apply (X8_commit_completes last_first ["x.json.tmp.json"; "y.json.tmp.json"]
           ".tmp.json" two_roots
           {| missingFiles := [];
              referencedFiles := ["a.json"; "b.json"; "x.json.tmp.json";
                                  "y.json.tmp.json"] |}).
  - apply fair_last_first.
  - apply NoDup_cons. split; [|apply NoDup_singleton].
    intros H%list_elem_of_singleton. discriminate H.
  - intros file [->|[->|[]%elem_of_nil]%elem_of_cons]%elem_of_cons;
      intros [H|[H|[]%elem_of_nil]%elem_of_cons]%elem_of_cons; discriminate H.
  - intros file [->|[->|[]%elem_of_nil]%elem_of_cons]%elem_of_cons; reflexivity.
  - vm_compute. reflexivity.
  - reflexivity.
Defined.

Lemma renamed_set_keeps suffix (roots : list string) (s : JSSet.t) x :
  x ∈ s → x ∉ roots → x ∈ renamed_set suffix roots s.
Proof.
  unfold renamed_set. revert s. induction roots as [|file roots IH]; intros s Hx Hr;
    simpl; [done|].
  apply not_elem_of_cons in Hr as [? ?].
  apply IH; [|done]. rewrite elem_of_add, elem_of_delete. auto.
Qed.


Lemma newName_in_renamed_set suffix (roots : list string) (s : JSSet.t) file :
  file ∈ roots → newName file suffix ∉ roots →
  newName file suffix ∈ renamed_set suffix roots s.
Proof.
  revert s. induction roots as [|file' roots IH]; intros s Hf Hn.
  - by apply elem_of_nil in Hf.
  - apply not_elem_of_cons in Hn as [Hne Hn].
    change (renamed_set suffix (file' :: roots) s)
      with (renamed_set suffix roots
              (JSSet.add (newName file' suffix) (JSSet.delete file' s))).
    apply elem_of_cons in Hf as [->|Hf]; [|by apply IH].
    apply renamed_set_keeps; [|done]. apply elem_of_add. by left.
Qed.


(** After the renames of distinct roots to distinct new names that are not
    roots, each new name has the content of its root, and no root is left. *)
Lemma renames_content suffix (roots : list string) (d : gmap string content) :
  NoDup roots → NoDup (map (λ file, newName file suffix) roots) →
  (∀ file, file ∈ roots → newName file suffix ∉ roots) →
  (∀ n, n ∈ roots → is_Some (d !! n)) →
  ∀ file, file ∈ roots →
    effects (renames suffix roots) d !! newName file suffix = d !! file
    ∧ effects (renames suffix roots) d !! file = None.
Proof.
  revert d. induction roots as [|file' roots IH]; intros d Hnd Hnew Hdisj Hall file Hf.
  - by apply elem_of_nil in Hf.
  - apply NoDup_cons in Hnd as [Hfile' Hnd].
    cbn [map] in Hnew. apply NoDup_cons in Hnew as [Hnew' Hnew].
    destruct (Hall file') as [c Hc]; [by left|].
    cbn [renames map effects effect]. rewrite Hc. fold (renames suffix roots).
    assert (newName file' suffix ≠ file') as Hne.
    { intros E. apply (Hdisj file'); [by left|]. rewrite E. by left. }
    apply elem_of_cons in Hf as [->|Hf].
    + rewrite !renames_frame.
      * rewrite lookup_insert_eq, lookup_insert_ne, lookup_delete_eq by done. done.
      * done.
      * intros Hin. apply list_elem_of_In, in_map_iff in Hin as (g & Hg & Hin).
        apply (Hdisj g); [right; by apply list_elem_of_In|]. rewrite Hg. by left.
      * intros Hin. apply (Hdisj file'); [by left|by right].
      * done.
    + assert (file ≠ file') as Hff by (intros ->; done).
      assert (newName file' suffix ≠ file) as Hnf.
      { intros E. apply (Hdisj file'); [by left|]. rewrite E. by right. }
      destruct (IH (<[newName file' suffix := c]> (delete file' d))) with file
        as [H1 H2]; [done|done| | |done|].
      * intros g Hg Hin. apply (Hdisj g); [by right|by right].
      * intros n Hn. apply lookup_insert_is_Some.
        destruct (decide (newName file' suffix = n)); [by left|right].
        split; [done|]. apply lookup_delete_is_Some. split; [|apply Hall; by right].
        intros ->. done.
      * rewrite H1, H2. by rewrite lookup_insert_ne, lookup_delete_ne.
Qed.


(** X9.  Under any schedule the commit moves the staged contents: when the
    roots are pairwise distinct, their new names are names of files, pairwise
    distinct and none of them a root, and no file is missing, then after the
    run each new name has the content that its root had, whatever was under
    that name before, and no root is left in the directory. *)
Theorem X9_commit_moves (σ : scheduler) (roots : list string) (suffix : string)
    (w : world) (r : MissingFilesResult) :
  fair σ →
  NoDup roots →
  NoDup (map (λ file, newName file suffix) roots) →
  (∀ file, file ∈ roots → newName file suffix ∉ roots) →
  (∀ file, file ∈ roots → plain (newName file suffix) = true) →
  snd (resolution roots w) = Returned r →
  missingFiles r = [] →
  let run := getMissingFilesForRootFiles_under σ roots "ifcomplete" suffix w in
  ∀ file, file ∈ roots →
    files (fst run) !! newName file suffix = files w !! file
    ∧ is_Some (files w !! file)
    ∧ files (fst run) !! file = None.
Proof.
  intros Hfair Hnd Hnew Hapart _ Hr Hm run file Hf. subst run.
  destruct (complete_in_directory _ _ _ Hr Hm) as [Hroots Href].
  destruct (entry_under σ roots "ifcomplete" suffix w Hfair)
    as (read & read' & o & o' & Hres & _ & Halike & ->).
  rewrite Hres in Hr. simpl in Hr. subst o.
  destruct o' as [r'|err'|]; try done. simpl in Halike. subst r'.
  destruct (handleSaveParam_under_commit σ roots suffix (snapshot (files w)) r
              (after_reads (issue ReadDir w) read') Hfair Hm)
    as (roots' & Hroots' & [(err & Herr & ->)|(Hs & prune' & o & -> & Hprune' & Hend)]);
    cbn [files after_reads issue] in *.
  - exfalso.
    destruct (commit_succeeds suffix roots roots'
                (pruneFiles suffix roots (snapshot (files w)) r)
                (snapshot (files w)) (JSSet.from (referencedFiles r)) (files w))
      as (Hs & _);
      [done|done|apply NoDup_from|done|intros x; apply elem_of_snapshot|done|].
    by apply succeed_no_failure in Herr.
  - destruct (renames_content suffix roots' (files w)) with file as [Hmoved Hgone].
    { by rewrite Hroots'. }
    { by rewrite Hroots'. }
    { intros g. rewrite Hroots'. apply Hapart. }
    { intros n. rewrite Hroots'. apply Hroots. }
    { by rewrite Hroots'. }
    assert (newName file suffix ∉ prune') as Hkept.
    { rewrite Hprune'. unfold pruneFiles. intros [_ Hp]%elem_of_difference. apply Hp.
      apply newName_in_renamed_set; [done|by apply Hapart]. }
    destruct o as [[]|err|]; cbn [fst files];
      (split; [|split; [by apply Hroots|]]);
      first [ by rewrite effects_unlinks_frame
            | destruct (decide (file ∈ prune'));
              [by apply effects_unlinks_None|by rewrite effects_unlinks_frame] ].
Qed.

(** The commit of two staged roots, the second renamed first: [x.json] has
    the staged content, not the one it had. *)
Lemma X9_two_roots :
  let run := getMissingFilesForRootFiles_under last_first
               ["x.json.tmp.json"; "y.json.tmp.json"] "ifcomplete" ".tmp.json" two_roots in
  files (fst run) !! "x.json" = Some (manifest ["a.json"])
  ∧ files two_roots !! "x.json" = Some (manifest ["old.json"])
  ∧ files (fst run) !! "x.json.tmp.json" = None.
Proof.
  destruct (X9_commit_moves last_first ["x.json.tmp.json"; "y.json.tmp.json"]
              ".tmp.json" two_roots
              {| missingFiles := [];
                 referencedFiles := ["a.json"; "b.json"; "x.json.tmp.json";
                                     "y.json.tmp.json"] |})
    with "x.json.tmp.json" as (H1 & _ & H3).
  - apply fair_last_first.
  - apply NoDup_cons. split; [|apply NoDup_singleton].
    intros H%list_elem_of_singleton. discriminate H.
  - apply NoDup_cons. split; [|apply NoDup_singleton].
    intros H%list_elem_of_singleton. discriminate H.
  - intros file [->|[->|[]%elem_of_nil]%elem_of_cons]%elem_of_cons;
      intros [H|[H|[]%elem_of_nil]%elem_of_cons]%elem_of_cons; discriminate H.
  - intros file [->|[->|[]%elem_of_nil]%elem_of_cons]%elem_of_cons; reflexivity.
  - vm_compute. reflexivity.
  - reflexivity.
  - left.
  - split; [|split; [vm_compute; reflexivity|exact H3]].
    change (newName "x.json.tmp.json" ".tmp.json") with "x.json" in H1.
    rewrite H1. vm_compute. reflexivity.
Defined.

(** ** A rename that fails *)




(** ** How much a run reads *)

Lemma fileNamesWithRefs_length (e : JSSet.t) (names : list string) :
  length (fileNamesWithRefs e names)
  ≤ length (filter (λ n, endsWith n ".json" = true) e).
Proof.
  apply submseteq_length, NoDup_submseteq; [apply NoDup_fileNamesWithRefs|].
  intros x (_ & ? & ?)%elem_of_fileNamesWithRefs. by apply list_elem_of_filter.
Qed.

Lemma resolver_reads_bound (e : JSSet.t) fuel names level w w' o :
  getMissingFilesRecursive fuel e names level w = (w', o) →
  ∃ read, w' = after_reads w read
          ∧ length read
            ≤ (11 - level) * length (filter (λ n, endsWith n ".json" = true) e).
Proof.
  revert names level w w' o.
  induction fuel as [|fuel IH]; intros names level w w' o H.
  { injection H as <- <-. exists []. rewrite after_reads_nil. split; [done|simpl; apply Nat.le_0_l]. }
  pose proof (fileNamesWithRefs_length e names) as Hlevel.
  assert (∀ w2 o2,
            getMissingFilesRecursive fuel e (next (files w) e names) (level + 1)
              (after_reads w (fileNamesWithRefs e names)) = (w2, o2) →
            level ≤ 10 →
            ∃ read, w2 = after_reads w read
                    ∧ length read
                      ≤ (11 - level)
                        * length (filter (λ n, endsWith n ".json" = true) e)) as Hchild.
  { intros w2 o2 Hc Hl. apply IH in Hc as (read & -> & Hread).
    rewrite after_reads_app. eexists. split; [done|]. rewrite length_app.
    replace (11 - level) with (S (11 - (level + 1))) by lia. simpl. nia. }
  apply getMissingFilesRecursive_cases in H.
  destruct H as [?|read err n ? Hpre|?|w2 child ? ? ? Hc|w2 err ? ? ? Hc|w2 ? ? Hc].
  - exists []. rewrite after_reads_nil. split; [done|simpl; apply Nat.le_0_l].
  - exists read. split; [done|]. apply prefix_length in Hpre.
    replace (11 - level) with (S (10 - level)) by lia. simpl. nia.
  - eexists. split; [done|]. replace (11 - level) with (S (10 - level)) by lia. simpl. nia.
  - by eapply Hchild.
  - by eapply Hchild.
  - by eapply Hchild.
Qed.

(** X11.  A run reads at most eleven times as many files as the directory has
    names that end in [.json], however the manifests refer to each other: each
    of the levels 0 to 10 reads a manifest once at most. *)
Theorem X11_reads_bounded (roots : list string) (policy suffix : string) (w : world) :
  ∃ read ops,
    issued w (fst (getMissingFilesForRootFiles roots policy suffix w))
    = ReadDir :: map ReadFile read ++ ops
    ∧ forallb mutation ops = true
    ∧ length read
      ≤ 11 * length (filter (λ n, endsWith n ".json" = true) (map_to_list (files w)).*1).
Proof.
  rewrite getMissingFilesForRootFiles_eq, resolution_eq.
  destruct (getMissingFilesRecursive 12 _ roots 0 _) as [w1 o] eqn:E.
  apply resolver_reads_bound in E as (read & -> & Hread).
  unfold snapshot in Hread. rewrite from_NoDup in Hread by apply NoDup_fst_map_to_list.
  exists read.
  assert (∀ ops, calls w ++ ReadDir :: map ReadFile read ++ ops
                 = calls (after_reads (issue ReadDir w) read) ++ ops) as Hcalls.
  { intros ops. simpl. by rewrite <- !app_assoc. }
  destruct o as [r|err|].
  - destruct (handleSaveParam_issued roots policy suffix (snapshot (files w)) r
                (after_reads (issue ReadDir w) read)) as (ops & Hops & Hmut).
    exists ops. split; [|done].
    destruct (handleSaveParam _ _ _ _ r _) as [w2 [[]|err|]]; simpl in Hops |- *;
      apply issued_app; by rewrite Hops, <- !app_assoc.
  - exists []. split; [|done]. apply issued_app. by rewrite Hcalls, app_nil_r.
  - exists []. split; [|done]. apply issued_app. by rewrite Hcalls, app_nil_r.
Qed.

(** ** Where the reads of a level stop *)

(** X12.  When reading the manifests of a level fails, the names were read
    fifty at a time: a name that cannot be read or parsed is in the last group
    read, that group is read to its end, no name after it is read, and the
    names of the groups before it all parse. *)
Theorem X12_reads_stop_at_chunk (names : list string) (acc : JSSet.t) (w w' : world)
    (err : error) :
  readChunks (chunkArrayInGroups names 50) acc w = (w', Thrown err) →
  ∃ j i name,
    names !! i = Some name ∧ 50 * j ≤ i < 50 * (j + 1)
    ∧ parsed (files w) name = Thrown err
    ∧ (∀ i' n, i' < 50 * j → names !! i' = Some n →
               ∃ v, parsed (files w) n = Returned v)
    ∧ w' = after_reads w (take (50 * (j + 1)) names).
Proof.
  intros (j & chunk & name & Hj & Hname & Herr & Hbefore & ->)%readChunks_Thrown.
  unfold chunkArrayInGroups in *.
  rewrite chunk_loop_take in Hbefore |- * by lia.
  rewrite chunk_loop_lookup in Hj by lia.
  case_decide as Hlt; [|done]. injection Hj as <-.
  apply elem_of_take in Hname as (i0 & Hi0 & Hlt0). rewrite lookup_drop in Hi0.
  exists j, (j * 50 + i0), name. split; [done|]. split; [lia|]. split; [done|]. split.
  - intros i' n Hi' Hn. apply Hbefore, elem_of_take. exists i'. split; [done|lia].
  - f_equal. f_equal. lia.
Qed.

Lemma X12_garbled :
  ∃ j i name,
    ["a.json"; "b.json"] !! i = Some name ∧ 50 * j ≤ i < 50 * (j + 1)
    ∧ parsed (files garbled) name = Thrown (SyntaxError "oops")
    ∧ (∀ i' n, i' < 50 * j → ["a.json"; "b.json"] !! i' = Some n →
               ∃ v, parsed (files garbled) n = Returned v)
    ∧ after_reads garbled ["a.json"; "b.json"]
      = after_reads garbled (take (50 * (j + 1)) ["a.json"; "b.json"]).
Proof.
  apply (X12_reads_stop_at_chunk ["a.json"; "b.json"] [] garbled).
  vm_compute. reflexivity.
Defined.

(** ** The two sets of a level, in order *)

Lemma fold_classify_filter (e : JSSet.t) (names : list string) (sets : JSSet.t * JSSet.t) :
  fold_left (classify_step e) names sets
  = (fold_left (λ s x, JSSet.add x s)
       (filter (λ x, x ∈ e ∧ endsWith x ".json" = true) names) sets.1,
     fold_left (λ s x, JSSet.add x s) (filter (λ x, x ∉ e) names) sets.2).
Proof.
  revert sets. induction names as [|x names IH]; intros sets; [by destruct sets|].
  cbn [fold_left]. rewrite IH, !filter_cons. unfold classify_step.
  destruct (JSSet.has x e) eqn:E; [apply has_true in E | apply has_false in E].
  - destruct (endsWith x ".json") eqn:J.
    + rewrite decide_True by done. by rewrite decide_False by (intros H; by apply H).
    + rewrite decide_False by (intros [_ H]; discriminate H).
      by rewrite decide_False by (intros H; by apply H).
  - rewrite decide_False by (by intros [H _]). by rewrite decide_True by done.
Qed.

(** X13.  The manifests that a level reads are the names of its input that are
    in the snapshot and end in [.json], and its missing names are the names of
    its input that are not in the snapshot, each in the order of the input
    with a repeated name kept at its first place only. *)
Theorem X13_level_in_order (existingFiles : JSSet.t) (fileNames : list string) :
  fileNamesWithRefs existingFiles fileNames
  = JSSet.from (filter (λ x, x ∈ existingFiles ∧ endsWith x ".json" = true) fileNames)
  ∧ fileNamesThatAreMissing existingFiles fileNames
    = JSSet.from (filter (λ x, x ∉ existingFiles) fileNames).
Proof.
  unfold fileNamesWithRefs, fileNamesThatAreMissing, classify.
  by rewrite fold_classify_filter.
Qed.

(** ** The missing files among the referenced files *)

Lemma missing_filter (e : JSSet.t) (names : list string) :
  NoDup names → fileNamesThatAreMissing e names = filter (λ x, x ∉ e) names.
Proof.
  intros Hnames. unfold fileNamesThatAreMissing, classify.
  rewrite fold_classify_filter. simpl.
  by apply from_NoDup, NoDup_filter.
Qed.

Lemma deepest_first_ext {A} (part1 part2 : nat → list A) depth :
  (∀ k, part1 k = part2 k) → deepest_first part1 depth = deepest_first part2 depth.
Proof. intros H. unfold deepest_first. f_equal. by apply map_ext. Qed.

Lemma deepest_first_filter (P : string → Prop) `{!∀ x, Decision (P x)}
    (part : nat → list string) depth :
  deepest_first (λ k, filter P (part k)) depth = filter P (deepest_first part depth).
Proof.
  unfold deepest_first. induction (rev (seq 0 (S depth))) as [|k l IH]; [done|].
  simpl. by rewrite filter_app, IH.
Qed.

Lemma NoDup_frontier_S d (e : JSSet.t) k names : NoDup (frontier d e (S k) names).
Proof. rewrite frontier_S. apply NoDup_from. Qed.

(** X14.  The referenced files that resolution returns end with the roots, and
    its missing files are the referenced files that are not in the directory,
    in the same order and as often, apart from a root that is given more than
    once.  No file is missing exactly when every referenced file is in the
    directory. *)
Theorem X14_missing_among_referenced (roots : list string) (w : world)
    (r : MissingFilesResult) :
  snd (resolution roots w) = Returned r →
  (∃ deeper,
     referencedFiles r = deeper ++ roots
     ∧ missingFiles r
       = filter (λ x, x ∉ snapshot (files w)) deeper
         ++ JSSet.from (filter (λ x, x ∉ snapshot (files w)) roots))
  ∧ (NoDup roots →
     missingFiles r = filter (λ x, x ∉ snapshot (files w)) (referencedFiles r))
  ∧ (missingFiles r = [] ↔ ∀ x, x ∈ referencedFiles r → is_Some (files w !! x)).
Proof.
  intros Hr.
  assert (∃ deeper,
     referencedFiles r = deeper ++ roots
     ∧ missingFiles r
       = filter (λ x, x ∉ snapshot (files w)) deeper
         ++ fileNamesThatAreMissing (snapshot (files w)) roots) as (deeper & Href & Hmiss).
  { rewrite resolution_eq in Hr.
    destruct (getMissingFilesRecursive 12 _ roots 0 _) as [w' o] eqn:E.
    simpl in Hr. subst o.
    apply resolver_returned_levels in E as (depth & _ & _ & Hm & Hf).
    change (files (issue ReadDir w)) with (files w) in Hm, Hf.
    destruct depth as [|depth].
    - rewrite deepest_first_0 in Hm, Hf. by exists [].
    - rewrite deepest_first_S in Hm, Hf. eexists. split; [exact Hf|].
      rewrite Hm. f_equal.
      rewrite <- deepest_first_filter. apply deepest_first_ext.
      intros k. apply missing_filter, NoDup_frontier_S. }
  split; [|split].
  - exists deeper. split; [done|]. rewrite Hmiss. f_equal.
    unfold fileNamesThatAreMissing, classify. by rewrite fold_classify_filter.
  - intros Hroots. by rewrite Hmiss, Href, filter_app, missing_filter.
  - destruct (resolution_returned _ _ _ Hr) as [Hm Hf _ _ _]. split.
    + intros Hnil x (k & Hk)%Hf. apply elem_of_snapshot.
      destruct (decide (x ∈ snapshot (files w))) as [|Hnot]; [done|].
      assert (x ∈ missingFiles r) as Hx by (apply Hm; eauto).
      rewrite Hnil in Hx. by apply elem_of_nil in Hx.
    + intros Hall. destruct (missingFiles r) as [|x l] eqn:El; [done|].
      assert (x ∈ x :: l) as (k & Hk & Hnot)%Hm by left.
      destruct Hnot. apply elem_of_snapshot, Hall, Hf. eauto.
Qed.

Lemma X14_shared_blob :
  let r := {| missingFiles := ["blobX"; "blobX"];
              referencedFiles := ["blobX"; "a.json"; "blobX"; "root.json"] |} in
  (∃ deeper,
     referencedFiles r = deeper ++ ["root.json"]
     ∧ missingFiles r
       = filter (λ x, x ∉ snapshot (files shared_blob)) deeper
         ++ JSSet.from (filter (λ x, x ∉ snapshot (files shared_blob)) ["root.json"]))
  ∧ (NoDup ["root.json"] →
     missingFiles r
     = filter (λ x, x ∉ snapshot (files shared_blob)) (referencedFiles r))
  ∧ (missingFiles r = [] ↔ ∀ x, x ∈ referencedFiles r → is_Some (files shared_blob !! x)).
Proof.
  apply (X14_missing_among_referenced ["root.json"] shared_blob
           {| missingFiles := ["blobX"; "blobX"];
              referencedFiles := ["blobX"; "a.json"; "blobX"; "root.json"] |}).
  vm_compute. reflexivity.
Defined.

(** ** Resolution of two lists of roots at once *)

Lemma resolution_returns_iff (roots : list string) (w : world) :
  (∃ r, snd (resolution roots w) = Returned r)
  ↔ manifests_parse (snapshot (files w)) (files w) roots 0
    ∧ ∃ k, 1 ≤ k ∧ k ≤ 11 ∧ frontier (files w) (snapshot (files w)) k roots = [].
Proof.
  split.
  - intros (r & Hr). destruct (resolution_returned _ _ _ Hr) as [_ _ Hd Hp _]. split.
    + intros k n _. apply Hp.
    + destruct Hd as (k & ? & ? & ?). exists k. split; [done|]. split; [lia|done].
  - intros (Hp & k & Hk1 & Hk2 & Hnil). rewrite resolution_eq.
    destruct (resolver_returns (snapshot (files w)) 12 roots 0 (issue ReadDir w))
      as (w' & r & Hr); [lia|done| |].
    + exists k. split; [done|]. split; [lia|done].
    + exists r. by rewrite Hr.
Qed.

Lemma frontier_nil_iff d (e : JSSet.t) k names :
  frontier d e k names = [] ↔ ∀ x, x ∉ frontier d e k names.
Proof.
  split.
  - intros -> x. apply not_elem_of_nil.
  - intros H. destruct (frontier d e k names) as [|x l]; [done|].
    destruct (H x). left.
Qed.

Lemma elem_of_frontier_app d (e : JSSet.t) k names1 names2 x :
  x ∈ frontier d e k (names1 ++ names2)
  ↔ x ∈ frontier d e k names1 ∨ x ∈ frontier d e k names2.
Proof.
  rewrite !elem_of_frontier. split.
  - intros (r & [Hr|Hr]%elem_of_app & Hs); eauto.
  - intros [(r & Hr & Hs)|(r & Hr & Hs)]; exists r; rewrite elem_of_app; eauto.
Qed.

(** X15.  Resolution of two lists of roots given together returns exactly when
    the resolution of each list returns, and then a file is missing, or
    referenced, for the two lists together exactly when it is for one of
    them. *)
Theorem X15_roots_together (roots1 roots2 : list string) (w : world) :
  ((∃ r, snd (resolution (roots1 ++ roots2) w) = Returned r)
   ↔ (∃ r1, snd (resolution roots1 w) = Returned r1)
     ∧ (∃ r2, snd (resolution roots2 w) = Returned r2))
  ∧ (∀ r r1 r2,
       snd (resolution (roots1 ++ roots2) w) = Returned r →
       snd (resolution roots1 w) = Returned r1 →
       snd (resolution roots2 w) = Returned r2 →
       (∀ x, x ∈ missingFiles r ↔ x ∈ missingFiles r1 ∨ x ∈ missingFiles r2)
       ∧ (∀ x, x ∈ referencedFiles r ↔ x ∈ referencedFiles r1 ∨ x ∈ referencedFiles r2)).
Proof.
  split.
  - rewrite !resolution_returns_iff. unfold manifests_parse. split.
    + intros (Hp & k & Hk1 & Hk2 & Hnil). rewrite frontier_nil_iff in Hnil.
      split; (split; [|exists k; split; [done|]; split; [done|]]).
      * intros k' n Hk' Hn. apply (Hp k' n Hk'). apply elem_of_frontier_app. by left.
      * apply frontier_nil_iff. intros x Hx. apply (Hnil x), elem_of_frontier_app. by left.
      * intros k' n Hk' Hn. apply (Hp k' n Hk'). apply elem_of_frontier_app. by right.
      * apply frontier_nil_iff. intros x Hx. apply (Hnil x), elem_of_frontier_app. by right.
    + intros [(Hp1 & k1 & Hk1 & Hk1' & Hnil1) (Hp2 & k2 & Hk2 & Hk2' & Hnil2)]. split.
      * intros k n Hk [Hn|Hn]%elem_of_frontier_app; [exact (Hp1 k n Hk Hn)|exact (Hp2 k n Hk Hn)].
      * exists (k1 `max` k2). split; [lia|]. split; [lia|].
        apply frontier_nil_iff. intros x [Hx|Hx]%elem_of_frontier_app.
        -- rewrite (frontier_nil_le _ _ k1) in Hx by (done || lia).
           by apply elem_of_nil in Hx.
        -- rewrite (frontier_nil_le _ _ k2) in Hx by (done || lia).
           by apply elem_of_nil in Hx.
  - intros r r1 r2 Hr Hr1 Hr2.
    destruct (resolution_returned _ _ _ Hr) as [Hm Hf _ _ _].
    destruct (resolution_returned _ _ _ Hr1) as [Hm1 Hf1 _ _ _].
    destruct (resolution_returned _ _ _ Hr2) as [Hm2 Hf2 _ _ _].
    split; intros x.
    + rewrite Hm, Hm1, Hm2. split.
      * intros (k & [Hk|Hk]%elem_of_frontier_app & Hx); eauto.
      * intros [(k & Hk & Hx)|(k & Hk & Hx)]; exists k;
          rewrite elem_of_frontier_app; eauto.
    + rewrite Hf, Hf1, Hf2. split.
      * intros (k & [Hk|Hk]%elem_of_frontier_app); eauto.
      * intros [(k & Hk)|(k & Hk)]; exists k; rewrite elem_of_frontier_app; eauto.
Qed.

Lemma X15_scenario1 :
  let r := {| missingFiles := ["blob1"];
              referencedFiles := ["blob1"; "a.json"; "b.json"] |} in
  let r1 := {| missingFiles := ["blob1"]; referencedFiles := ["blob1"; "a.json"] |} in
  let r2 := {| missingFiles := []; referencedFiles := ["b.json"] |} in
  (∀ x, x ∈ missingFiles r ↔ x ∈ missingFiles r1 ∨ x ∈ missingFiles r2)
  ∧ (∀ x, x ∈ referencedFiles r ↔ x ∈ referencedFiles r1 ∨ x ∈ referencedFiles r2).
Proof.
  apply (proj2 (X15_roots_together ["a.json"] ["b.json"] scenario1)).
  - vm_compute. reflexivity.
  - vm_compute. reflexivity.
  - vm_compute. reflexivity.
Defined.

(** ** The roots as a set *)

Lemma elem_of_frontier_same d (e : JSSet.t) k names1 names2 x :
  (∀ n, n ∈ names1 ↔ n ∈ names2) →
  x ∈ frontier d e k names1 ↔ x ∈ frontier d e k names2.
Proof.
  intros H. rewrite !elem_of_frontier. split; intros (r & Hr & Hs); exists r.
  - by rewrite <- H.
  - by rewrite H.
Qed.

(** X16.  Resolution looks at the roots as a set: two lists with the same
    names, in any order and with any repetition, resolve or fail to resolve
    together, and the same files are missing and referenced for both. *)
Theorem X16_roots_as_a_set (roots1 roots2 : list string) (w : world) :
  (∀ n, n ∈ roots1 ↔ n ∈ roots2) →
  ((∃ r1, snd (resolution roots1 w) = Returned r1)
   ↔ (∃ r2, snd (resolution roots2 w) = Returned r2))
  ∧ (∀ r1 r2,
       snd (resolution roots1 w) = Returned r1 →
       snd (resolution roots2 w) = Returned r2 →
       (∀ x, x ∈ missingFiles r1 ↔ x ∈ missingFiles r2)
       ∧ (∀ x, x ∈ referencedFiles r1 ↔ x ∈ referencedFiles r2)).
Proof.
  intros Hsame.
  assert (∀ k x, x ∈ frontier (files w) (snapshot (files w)) k roots1
                 ↔ x ∈ frontier (files w) (snapshot (files w)) k roots2) as Hlevel.
  { intros k x. by apply elem_of_frontier_same. }
  split.
  - rewrite !resolution_returns_iff. unfold manifests_parse.
    split; intros (Hp & k & Hk1 & Hk2 & Hnil); rewrite frontier_nil_iff in Hnil;
      (split; [|exists k; split; [done|]; split; [done|]]).
    + intros k' n Hk' Hn. apply (Hp k' n Hk'). by apply Hlevel.
    + apply frontier_nil_iff. intros x Hx. apply (Hnil x). by apply Hlevel.
    + intros k' n Hk' Hn. apply (Hp k' n Hk'). by apply Hlevel.
    + apply frontier_nil_iff. intros x Hx. apply (Hnil x). by apply Hlevel.
  - intros r1 r2 Hr1 Hr2.
    destruct (resolution_returned _ _ _ Hr1) as [Hm1 Hf1 _ _ _].
    destruct (resolution_returned _ _ _ Hr2) as [Hm2 Hf2 _ _ _].
    split; intros x.
    + rewrite Hm1, Hm2. by setoid_rewrite Hlevel.
    + rewrite Hf1, Hf2. by setoid_rewrite Hlevel.
Qed.

Lemma X16_scenario1 :
  let r1 := {| missingFiles := ["blob1"];
               referencedFiles := ["blob1"; "a.json"; "b.json"] |} in
  let r2 := {| missingFiles := ["blob1"];
               referencedFiles := ["blob1"; "b.json"; "a.json"; "a.json"] |} in
  (∀ x, x ∈ missingFiles r1 ↔ x ∈ missingFiles r2)
  ∧ (∀ x, x ∈ referencedFiles r1 ↔ x ∈ referencedFiles r2).
Proof.
  apply (proj2 (X16_roots_as_a_set ["a.json"; "b.json"] ["b.json"; "a.json"; "a.json"]
                  scenario1
                  ltac:(intros n; rewrite !elem_of_cons, !elem_of_nil; tauto))).
  - vm_compute. reflexivity.
  - vm_compute. reflexivity.
Defined.
